(** * cobs_to_shm: serial ingest, byte-stuffed frame decoder and
      shared-memory ring buffer

    A shallow embedding of [shared_memory_ringbuffer.c], [cobs_to_shm.c]
    and [bin_to_shm.c], and the properties of the design document stated
    over it.

    Conventions of the embedding.
    - [size_t], [unsigned long] and [unsigned long long] are 64-bit
      (LP64); their values are [Z] in [0, 2^64) and every operation that
      can wrap is written with [wrap64].
    - A byte is a [Z] in [0, 256).  Memory is a total map from addresses
      to bytes; multi-byte objects are little endian.
    - Pointers into the mapped segment are offsets from [shm->data].
    - The values observed by atomic loads of [writer_cursor] are arguments
      of the reader functions: the writer runs concurrently, so two loads
      in one call may see different values.
    - Diagnostics written to stderr are not part of the model, except the
      count of decoder warnings. *)

From Stdlib Require Import ZArith List Lia Bool.
Import ListNotations.
Local Open Scope Z_scope.

(** ** Machine arithmetic *)

Definition wrap64 (x : Z) : Z := x mod 2 ^ 64.

(** Conversion of a [size_t] to the [ssize_t] a function returns. *)
Definition to_ssize (x : Z) : Z := if x <? 2 ^ 63 then x else x - 2 ^ 64.

(** Conversion of the [long] that holds [writer_pid] to [pid_t], a 32-bit
    [int]: the value modulo [2 ^ 32], taken in [-2 ^ 31, 2 ^ 31). *)
Definition to_pid_t (x : Z) : Z :=
  let y := x mod 2 ^ 32 in if y <? 2 ^ 31 then y else y - 2 ^ 32.

(** [(x + 15) & ~15] on [size_t]: [~15] is the [int] -16, converted to
    [size_t] before the bitwise and. *)
Definition pad16 (x : Z) : Z := Z.land (wrap64 (x + 15)) (wrap64 (Z.lnot 15)).

(** [(x + 7) & ~7] on [size_t]. *)
Definition pad8 (x : Z) : Z := Z.land (wrap64 (x + 7)) (wrap64 (Z.lnot 7)).

(** The rounding the design document names: least multiple of [a] that is
    not below [x]. *)
Definition round_up (a x : Z) : Z := a * ((x + (a - 1)) / a).

(** ** Byte memory *)

Definition memory := Z -> Z.

Definition store (m : memory) (a v : Z) : memory :=
  fun x => if x =? a then v else m x.

Fixpoint store_bytes (m : memory) (a : Z) (bs : list Z) : memory :=
  match bs with
  | [] => m
  | b :: bs' => store_bytes (store m a b) (a + 1) bs'
  end.

Definition load_bytes (m : memory) (a : Z) (n : nat) : list Z :=
  map (fun i => m (a + Z.of_nat i)) (seq 0 n).

(** [memset(p, c, n)] *)
Definition memset (m : memory) (a c : Z) (n : nat) : memory :=
  store_bytes m a (repeat c n).

(** The [n] little-endian bytes of [v]. *)
Fixpoint le_bytes (n : nat) (v : Z) : list Z :=
  match n with
  | O => []
  | S n' => v mod 256 :: le_bytes n' (v / 256)
  end.

Fixpoint le_value (bs : list Z) : Z :=
  match bs with
  | [] => 0
  | b :: bs' => b + 256 * le_value bs'
  end.

Definition store64 (m : memory) (a v : Z) : memory := store_bytes m a (le_bytes 8 v).
Definition load64 (m : memory) (a : Z) : Z := le_value (load_bytes m a 8).

(** ** shared_memory_ringbuffer.c *)

(** [sizeof(struct shared_memory_ringbuffer_slot)]: an 8-byte [size_t
    size], then [data] aligned to 16. *)
Definition sizeof_slot : Z := 16.

(** [offsetof(struct shared_memory_ringbuffer, data)]: four 8-byte fields,
    then [data] aligned to 16. *)
Definition offsetof_data : Z := 32.

Record shared_memory_ringbuffer := {
  cursor_wrap : Z;
  max_slot_size : Z;
  writer_cursor : Z;
  writer_pid : Z;
  data : memory
}.

Inductive writer_init_result :=
| WriterAbort                                   (* an assert failed *)
| WriterMAP_FAILED
| WriterOk (shm : shared_memory_ringbuffer).

(** The three system calls of the writer's initialisation, each of which
    may fail. *)
Record writer_os := {
  shm_open_creates : bool;
  ftruncate_ok : bool;
  writer_mmap_ok : bool;
  getpid : Z
}.

Definition shared_memory_ringbuffer_writer_init (os : writer_os)
    (ringbuffer_size packet_size_max : Z) : writer_init_result :=
  if negb (negb (ringbuffer_size =? 0)
           && (Z.land ringbuffer_size (wrap64 (ringbuffer_size - 1)) =? 0))
  then WriterAbort
  else
    let max_slot_size := wrap64 (packet_size_max + sizeof_slot) in
    let total_size := wrap64 (wrap64 (offsetof_data + ringbuffer_size) + max_slot_size) in
    if negb (packet_size_max mod 16 =? 0) then WriterAbort
    else if negb (total_size mod 16 =? 0) then WriterAbort
    else if negb (shm_open_creates os) then WriterMAP_FAILED
    else if negb (ftruncate_ok os) then WriterMAP_FAILED
    else if negb (writer_mmap_ok os) then WriterMAP_FAILED
    else WriterOk {| cursor_wrap := ringbuffer_size;
                     max_slot_size := max_slot_size;
                     writer_cursor := 0;
                     writer_pid := getpid os;
                     data := fun _ => 0 |}.

(** Offset of the slot a cursor designates: [cursor % cursor_wrap]. *)
Definition slot_offset (shm : shared_memory_ringbuffer) (cursor : Z) : Z :=
  cursor mod cursor_wrap shm.

(** Returns [slot->data] of the slot at the writer's cursor. *)
Definition shared_memory_ringbuffer_acquire (shm : shared_memory_ringbuffer) : Z :=
  slot_offset shm (writer_cursor shm) + sizeof_slot.

(** [None] is the failed [assert(size_padded <= shm->max_slot_size)]. *)
Definition shared_memory_ringbuffer_send (shm : shared_memory_ringbuffer) (size : Z)
  : option shared_memory_ringbuffer :=
  let writer_cursor0 := writer_cursor shm in
  let slot := slot_offset shm writer_cursor0 in
  let data1 := store64 (data shm) slot size in
  let size_padded := pad16 (sizeof_slot + load64 data1 slot) in
  if size_padded <=? max_slot_size shm then
    Some {| cursor_wrap := cursor_wrap shm;
            max_slot_size := max_slot_size shm;
            writer_cursor := wrap64 (writer_cursor0 + size_padded);
            writer_pid := writer_pid shm;
            data := data1 |}
  else None.

(** The segment as the failed assert of [send] leaves it: line 131 has
    stored the size in the slot, the cursor has not moved. *)
Definition send_aborted (shm : shared_memory_ringbuffer) (size : Z)
  : shared_memory_ringbuffer :=
  {| cursor_wrap := cursor_wrap shm;
     max_slot_size := max_slot_size shm;
     writer_cursor := writer_cursor shm;
     writer_pid := writer_pid shm;
     data := store64 (data shm) (slot_offset shm (writer_cursor shm)) size |}.

Record shared_memory_ringbuffer_reader := { reader_cursor : Z }.

Inductive pointer := NULL | Ptr (offset : Z).

(** What one call of [recv] leaves behind: the returned [ssize_t], the
    store to [*ret_p] if one was made, and the reader's private state. *)
Record recv_result := {
  recv_ret : Z;
  recv_ret_p : option pointer;
  recv_reader : shared_memory_ringbuffer_reader
}.

Definition shared_memory_ringbuffer_reader_has_kept_up
    (shm : shared_memory_ringbuffer) (writer_cursor : Z)
    (reader : shared_memory_ringbuffer_reader) : bool :=
  let lag := wrap64 (writer_cursor - reader_cursor reader) in
  wrap64 (lag + max_slot_size shm) <=? cursor_wrap shm.

Definition shared_memory_ringbuffer_recv
    (shm : shared_memory_ringbuffer)
    (writer_cursor writer_cursor_after_reading_size : Z)
    (reader : shared_memory_ringbuffer_reader) : recv_result :=
  if writer_cursor =? reader_cursor reader then
    {| recv_ret := 0; recv_ret_p := Some NULL; recv_reader := reader |}
  else
    let slot := slot_offset shm (reader_cursor reader) in
    let slot_size := load64 (data shm) slot in
    if wrap64 (wrap64 (wrap64 (writer_cursor_after_reading_size + max_slot_size shm)
                       - reader_cursor reader) - sizeof_slot) >? cursor_wrap shm
    then {| recv_ret := -1; recv_ret_p := None; recv_reader := reader |}
    else
      let size_padded := pad16 (sizeof_slot + slot_size) in
      {| recv_ret := to_ssize slot_size;
         recv_ret_p := Some (Ptr (slot + sizeof_slot));
         recv_reader := {| reader_cursor := wrap64 (reader_cursor reader + size_padded) |} |}.

Inductive shm_open_result :=
| ShmOpened (segment : shared_memory_ringbuffer)
| ShmENOENT
| ShmOpenError.

(** Result of [kill(writer_pid, 0)], called with the pid as narrowed to
    [pid_t]: success, or -1 with [errno] EPERM, ESRCH or anything else. *)
Inductive kill_result := KillOk | KillEPERM | KillESRCH | KillOtherErrno.

Record reader_os := {
  shm_open_r : shm_open_result;
  fstat_ok : bool;
  reader_mmap_ok : bool;
  kill_r : kill_result
}.

(** What a call of [reader_init] comes to.  [ReaderReadsUnmapped] is the
    path of lines 249-251: after [munmap(shm, ...)] the message of the
    [fprintf] reads [shm->writer_pid], an access to memory that is no
    longer mapped, before the [return MAP_FAILED] is reached. *)
Inductive reader_init_result :=
| ReaderNULL
| ReaderMAP_FAILED
| ReaderReadsUnmapped
| ReaderOk (reader : shared_memory_ringbuffer_reader).

Definition shared_memory_ringbuffer_reader_init (os : reader_os) : reader_init_result :=
  match shm_open_r os with
  | ShmENOENT => ReaderNULL
  | ShmOpenError => ReaderMAP_FAILED
  | ShmOpened shm =>
      if negb (fstat_ok os) then ReaderMAP_FAILED
      else if negb (reader_mmap_ok os) then ReaderMAP_FAILED
      else if to_pid_t (writer_pid shm) =? 0 then ReaderNULL
      else
        match kill_r os with
        | KillESRCH => ReaderNULL
        | KillOtherErrno => ReaderReadsUnmapped
        | KillOk | KillEPERM =>
            ReaderOk {| reader_cursor := writer_cursor shm |}
        end
  end.

(** ** cobs_to_shm.c: the frame decoder *)

(** The decoder is modelled twice.  Here it runs on a [stream], the bytes
    that the [read] calls deliver one after the other, and the [read] that
    finds the stream exhausted fails with -1 (an error, or a signal).  The
    ingest loop is stated over this form.  Further down
    [read_escaped_frame_fd] is the same function on a descriptor whose
    [read] calls may also return short counts and 0 (end of file), with
    [readall] written out; the two are shown to agree whenever no [read]
    returns 0 before the frame ends. *)
Definition stream := list Z.

Record frame_result := {
  frame_ret : Z;              (* the returned ssize_t *)
  frame_mem : memory;         (* the memory holding [out] afterwards *)
  frame_fd : stream;          (* what the descriptor still holds *)
  frame_warnings : nat        (* "missing end byte" warnings printed *)
}.

(** [do if (-1 == read(fd, &code, 1)) return -1; while (code);]
    [None] is the failed read; otherwise the stream after the zero byte. *)
Fixpoint discard_until_zero (fd : stream) : option stream :=
  match fd with
  | [] => None
  | code :: fd' => if code =? 0 then Some fd' else discard_until_zero fd'
  end.

(** The [while (1)] loop of [read_escaped_frame] with [plain = out] and the
    current [dst]; the recursive call of the C function restarts it with
    [dst = out].  Every turn reads at least the count byte, so [fuel]
    beyond the length of the stream is never used up; [None] is fuel
    exhaustion. *)
Fixpoint frame_loop (fuel : nat) (m : memory) (out max_plain_size dst : Z)
    (warnings : nat) (fd : stream) : option frame_result :=
  match fuel with
  | O => None
  | S fuel' =>
      match fd with
      | [] => Some {| frame_ret := -1; frame_mem := m; frame_fd := [];
                      frame_warnings := warnings |}
      | code :: fd1 =>
          if code =? 0 then
            Some {| frame_ret := if dst >? out then (dst - out) - 1 else 0;
                    frame_mem := m; frame_fd := fd1;
                    frame_warnings := warnings |}
          else if (dst - out) + code >? max_plain_size then
            match discard_until_zero fd1 with
            | None => Some {| frame_ret := -1; frame_mem := m; frame_fd := [];
                              frame_warnings := S warnings |}
            | Some fd2 => frame_loop fuel' m out max_plain_size out (S warnings) fd2
            end
          else
            let size := Z.to_nat (code - 1) in
            let chunk := firstn size fd1 in
            let m1 := store_bytes m dst chunk in
            if (length chunk <? size)%nat then
              Some {| frame_ret := -1; frame_mem := m1; frame_fd := [];
                      frame_warnings := warnings |}
            else
              let dst1 := dst + (code - 1) in
              if code =? 255 then
                frame_loop fuel' m1 out max_plain_size dst1 warnings (skipn size fd1)
              else
                frame_loop fuel' (store m1 dst1 0) out max_plain_size (dst1 + 1)
                           warnings (skipn size fd1)
      end
  end.

Definition read_escaped_frame (m : memory) (out max_plain_size : Z) (fd : stream)
  : option frame_result :=
  frame_loop (S (length fd)) m out max_plain_size out 0 fd.

(** The bytes a caller finds in [out] after a successful return. *)
Definition frame_payload (out : Z) (r : frame_result) : list Z :=
  load_bytes (frame_mem r) out (Z.to_nat (frame_ret r)).

(** Modelled from the spec: the byte-stuffing encoder runs on the upstream
    device and is not part of this repository.  This is an encoder for the
    wire format of section 4.2: the payload is cut at its zero bytes into
    blocks of a count byte and at most 254 non-zero bytes; a zero is
    implied between two blocks unless the earlier one is a maximal run of
    254 bytes (count 0xFF); a maximal run that ends the payload ends the
    frame, as in scenario 3 of section 8 (0xFF, the 254 bytes, 0x00).
    [run] is the block being filled. *)
Fixpoint stuff (run : list Z) (payload : list Z) : list Z :=
  match payload with
  | [] => (Z.of_nat (length run) + 1) :: run
  | b :: payload' =>
      if b =? 0 then (Z.of_nat (length run) + 1) :: run ++ stuff [] payload'
      else if Z.of_nat (length run) + 1 =? 254 then
        255 :: (run ++ [b])
          ++ match payload' with
             | [] => []
             | _ :: _ => stuff [] payload'
             end
      else stuff (run ++ [b]) payload'
  end.

(** The frame on the wire: the stuffed payload and the terminating zero. *)
Definition cobs_encode (payload : list Z) : list Z := stuff [] payload ++ [0].

(** Modelled from the spec: the wire format of section 4.2 read as a
    relation, for any encoder.  A block is its data bytes; on the wire it
    is preceded by its count byte, the number of data bytes plus one. *)
Definition block_wire (d : list Z) : list Z := (Z.of_nat (length d) + 1) :: d.

(** A maximal run: count 0xFF, 254 data bytes. *)
Definition full_block (d : list Z) : bool := Z.of_nat (length d) + 1 =? 255.

(** A frame on the wire: its blocks, then the terminating zero. *)
Definition frame_wire (blocks : list (list Z)) : list Z :=
  flat_map block_wire blocks ++ [0].

(** Modelled from the spec: the payload a sequence of blocks stands for,
    with a zero implied between consecutive blocks unless the earlier one
    is a maximal run. *)
Fixpoint blocks_payload (blocks : list (list Z)) : list Z :=
  match blocks with
  | [] => []
  | d :: blocks' =>
      match blocks' with
      | [] => d
      | _ :: _ => d ++ (if full_block d then [] else [0]) ++ blocks_payload blocks'
      end
  end.


Definition is_byte (b : Z) : Prop := 0 <= b < 256.

(** ** cobs_to_shm.c: the ingest loop *)

(** [sizeof(buf->packet)] *)
Definition sizeof_packet : Z := 65528.

(** [((packet_time_microseconds / 16) << 16) | packet_size] *)
Definition logging_header (packet_time_microseconds packet_size : Z) : Z :=
  Z.lor (wrap64 (Z.shiftl (packet_time_microseconds / 16) 16)) packet_size.

(** [logging_header & 65535U], as [bin_to_shm.c] extracts the size. *)
Definition header_size (h : Z) : Z := Z.land h 65535.

(** The upper 48 bits of a header. *)
Definition header_time (h : Z) : Z := Z.shiftr h 16.

Record pipeline := {
  shm : shared_memory_ringbuffer;
  buf : option Z;                      (* acquired slot data pointer; None is NULL *)
  fd_serial : stream;
  fh : option (list Z);                (* the open log file: bytes written so far *)
  path : Z;                            (* the UTC second the file name spells *)
  time_microseconds_file_start : Z;
  packet_time_previous : Z;
  stdout : list Z                      (* paths printed, oldest first *)
}.

(** What the environment shows during one turn of the loop: the signal
    flag after the decoder returns, the clock, the flag again. *)
Record turn := {
  sig_after_read : bool;
  current_time_in_unix_microseconds : Z;
  sig_after_clock : bool
}.

(** How a turn of the loop ends: [continue] or the end of the body,
    [break], or the process aborted by the assert of [send]. *)
Inductive loop_status := LoopContinue | LoopBreak | LoopAbort.

Definition set_data (s : shared_memory_ringbuffer) (d : memory) : shared_memory_ringbuffer :=
  {| cursor_wrap := cursor_wrap s; max_slot_size := max_slot_size s;
     writer_cursor := writer_cursor s; writer_pid := writer_pid s; data := d |}.

(** Lines 333-342: close the file when the frame's time, rounded down to
    10 s, is later than the file's start time. *)
Definition rotate_log (packet_time_microseconds : Z) (st : pipeline) : pipeline :=
  let rounded_down_to_10s :=
    packet_time_microseconds - packet_time_microseconds mod 10000000 in
  match fh st with
  | Some _ =>
      if rounded_down_to_10s >? time_microseconds_file_start st then
        {| shm := shm st; buf := buf st; fd_serial := fd_serial st;
           fh := None; path := path st;
           time_microseconds_file_start := time_microseconds_file_start st;
           packet_time_previous := packet_time_previous st;
           stdout := stdout st ++ [path st] |}
      else st
  | None => st
  end.

(** Lines 345-357: open a file named after the frame's second.  [fopen]
    is taken to succeed (its failure ends the program), and so is the
    [fwrite] of line 376. *)
Definition open_log (logging_path : bool) (packet_time_microseconds : Z)
    (st : pipeline) : pipeline :=
  match fh st with
  | None =>
      if logging_path then
        {| shm := shm st; buf := buf st; fd_serial := fd_serial st;
           fh := Some []; path := packet_time_microseconds / 1000000;
           time_microseconds_file_start := packet_time_microseconds;
           packet_time_previous := packet_time_previous st;
           stdout := stdout st |}
      else st
  | Some _ => st
  end.

(** Lines 359-377: header, padding, commit to the ring, append to the
    file.  [b] is [buf]; the packet sits at [b + 8]. *)
Definition publish_frame (packet_time_microseconds packet_size b : Z)
    (st : pipeline) : loop_status * pipeline :=
  let d1 := store64 (data (shm st)) b (logging_header packet_time_microseconds packet_size) in
  let packet_size_padded := pad8 packet_size in
  let d2 := if negb (packet_size_padded =? packet_size)
            then memset d1 (b + 8 + packet_size) 0 (Z.to_nat (packet_size_padded - packet_size))
            else d1 in
  match shared_memory_ringbuffer_send (set_data (shm st) d2) (8 + packet_size) with
  | None =>
      (LoopAbort,
       {| shm := send_aborted (set_data (shm st) d2) (8 + packet_size);
          buf := buf st; fd_serial := fd_serial st; fh := fh st; path := path st;
          time_microseconds_file_start := time_microseconds_file_start st;
          packet_time_previous := packet_time_previous st;
          stdout := stdout st |})
  | Some shm' =>
      (LoopContinue,
       {| shm := shm'; buf := None; fd_serial := fd_serial st;
          fh := match fh st with
                | Some written =>
                    Some (written ++ load_bytes (data shm') b (Z.to_nat (8 + packet_size_padded)))
                | None => None
                end;
          path := path st;
          time_microseconds_file_start := time_microseconds_file_start st;
          packet_time_previous := packet_time_previous st;
          stdout := stdout st |})
  end.

(** One turn of [while (1)] in [main], lines 304-386.  The decoder runs
    in its form on a stream: the serial port delivers the bytes of
    [fd_serial] and then a [read] fails.  What [read_escaped_frame] does
    when a [read] returns 0 is [read_escaped_frame_fd] below, which agrees
    with this form on every frame that is complete before the bytes
    end. *)
Definition main_loop_body (logging_path : bool) (t : turn) (st : pipeline)
  : loop_status * pipeline :=
  let b := match buf st with
           | Some b => b
           | None => shared_memory_ringbuffer_acquire (shm st)
           end in
  match read_escaped_frame (data (shm st)) (b + 8) sizeof_packet (fd_serial st) with
  | None => (LoopAbort, st)
  | Some r =>
      let st1 := {| shm := set_data (shm st) (frame_mem r); buf := Some b;
                    fd_serial := frame_fd r; fh := fh st; path := path st;
                    time_microseconds_file_start := time_microseconds_file_start st;
                    packet_time_previous := packet_time_previous st;
                    stdout := stdout st |} in
      if sig_after_read t then (LoopBreak, st1)
      else if frame_ret r =? -1 then (LoopBreak, st1)
      else if frame_ret r =? 0 then (LoopContinue, st1)
      else
        let packet_size := frame_ret r in
        let packet_time_microseconds := current_time_in_unix_microseconds t in
        if sig_after_clock t then (LoopBreak, st1)
        else
          let st2 := {| shm := shm st1; buf := buf st1; fd_serial := fd_serial st1;
                        fh := fh st1; path := path st1;
                        time_microseconds_file_start := time_microseconds_file_start st1;
                        packet_time_previous := packet_time_microseconds;
                        stdout := stdout st1 |} in
          publish_frame packet_time_microseconds packet_size b
            (open_log logging_path packet_time_microseconds
               (rotate_log packet_time_microseconds st2))
  end.

(** Lines 388-396, after the loop: close the open file and print its path. *)
Definition main_exit (st : pipeline) : pipeline :=
  match fh st with
  | Some _ =>
      {| shm := shm st; buf := buf st; fd_serial := fd_serial st;
         fh := None; path := path st;
         time_microseconds_file_start := time_microseconds_file_start st;
         packet_time_previous := packet_time_previous st;
         stdout := stdout st ++ [path st] |}
  | None => st
  end.

(** The loop run against a finite list of turns: a prefix of an execution,
    or a whole one when a turn breaks. *)
Fixpoint main_loop (logging_path : bool) (turns : list turn) (st : pipeline) : pipeline :=
  match turns with
  | [] => st
  | t :: turns' =>
      match main_loop_body logging_path t st with
      | (LoopContinue, st') => main_loop logging_path turns' st'
      | (_, st') => st'
      end
  end.

(** The state [main] enters the loop with, on the ring it created. *)
Definition main_start (ring : shared_memory_ringbuffer) (fd : stream) : pipeline :=
  {| shm := ring; buf := None; fd_serial := fd; fh := None; path := 0;
     time_microseconds_file_start := 0; packet_time_previous := 0; stdout := [] |}.

(** ** bin_to_shm.c: replay from standard input *)

Record replay := {
  replay_shm : shared_memory_ringbuffer;
  replay_buf : option Z;
  stdin : stream
}.

(** [fread(ptr, size, 1, stdin)]: whether it returns 1 (a complete item of
    [size] bytes, [size] not 0), the bytes it has stored at [ptr] (the
    item, or what the input still held of it), and the rest of the
    input. *)
Definition fread_item (size : Z) (input : stream) : bool * list Z * stream :=
  let n := Z.to_nat size in
  (negb (size =? 0) && (n <=? length input)%nat, firstn n input, skipn n input).

(** Lines 68-72: read 8-byte headers until one is not all zero.  The
    [fread] that finds fewer than 8 bytes stores them in the low bytes of
    [logging_header], which was 0, and ends the loop with the input at its
    end. *)
Fixpoint read_logging_header (input : stream) : Z * stream :=
  match input with
  | b0 :: b1 :: b2 :: b3 :: b4 :: b5 :: b6 :: b7 :: rest =>
      let h := le_value [b0; b1; b2; b3; b4; b5; b6; b7] in
      if h =? 0 then read_logging_header rest else (h, rest)
  | partial => (le_value partial, [])
  end.

(** One turn of [while (1)] in [main] of bin_to_shm.c, lines 64-91.  The
    state after a [break] holds the bytes that the failed [fread] of line
    77 stored in the slot; the state after a failed assert holds the
    packet, its padding and the size that [send] stored before its
    assert. *)
Definition replay_loop_body (st : replay) : loop_status * replay :=
  let b := match replay_buf st with
           | Some b => b
           | None => shared_memory_ringbuffer_acquire (replay_shm st)
           end in
  let '(header, input1) := read_logging_header (stdin st) in
  let packet_size := header_size header in
  let packet_size_padded := pad8 packet_size in
  let '(complete, bytes, input2) := fread_item packet_size_padded input1 in
  let d1 := store_bytes (data (replay_shm st)) (b + 8) bytes in
  if negb complete then
    (LoopBreak,
     {| replay_shm := set_data (replay_shm st) d1; replay_buf := Some b; stdin := input2 |})
  else
    let d2 := if negb (packet_size_padded =? packet_size)
              then memset d1 (b + 8 + packet_size) 0
                          (Z.to_nat (packet_size_padded - packet_size))
              else d1 in
    match shared_memory_ringbuffer_send (set_data (replay_shm st) d2) (8 + packet_size) with
    | None =>
        (LoopAbort,
         {| replay_shm := send_aborted (set_data (replay_shm st) d2) (8 + packet_size);
            replay_buf := Some b; stdin := input2 |})
    | Some shm' =>
        (LoopContinue, {| replay_shm := shm'; replay_buf := None; stdin := input2 |})
    end.

(** A record of the log file: header, payload, zero padding to 8. *)
Definition log_record (h : Z) (payload : list Z) : list Z :=
  le_bytes 8 h ++ payload
  ++ repeat 0 (Z.to_nat (round_up 8 (Z.of_nat (length payload))) - length payload)%nat.

(** The slot a reader is handed for the cursor [c]: the stored size and
    that many bytes after the prefix. *)
Definition slot_contents (s : shared_memory_ringbuffer) (c : Z) : Z * list Z :=
  let slot := slot_offset s c in
  (load64 (data s) slot,
   load_bytes (data s) (slot + sizeof_slot) (Z.to_nat (load64 (data s) slot))).

(** ** Runs and scenarios used in the statements *)

(** A sequence of [send] calls; [None] as soon as one assert fails. *)
Fixpoint send_all (s : shared_memory_ringbuffer) (sizes : list Z)
  : option shared_memory_ringbuffer :=
  match sizes with
  | [] => Some s
  | size :: sizes' =>
      match shared_memory_ringbuffer_send s size with
      | Some s' => send_all s' sizes'
      | None => None
      end
  end.


Definition all_calls_succeed : writer_os :=
  {| shm_open_creates := true; ftruncate_ok := true; writer_mmap_ok := true;
     getpid := 4242 |}.

(** The ring [writer_init(name, ringbuffer_size, packet_size_max)] creates
    when no system call fails, after the given [send] calls. *)
Definition ring_after (ringbuffer_size packet_size_max : Z) (sizes : list Z)
  : option shared_memory_ringbuffer :=
  match shared_memory_ringbuffer_writer_init all_calls_succeed
          ringbuffer_size packet_size_max with
  | WriterOk s => send_all s sizes
  | _ => None
  end.

(** The ring of the two programs: [writer_init] on the name /cobs_to_shm with a
    capacity of 4194304 and the size of [buf]'s target, 8 + 65528, as
    largest packet. *)
Definition program_ring : option shared_memory_ringbuffer :=
  ring_after 4194304 (8 + sizeof_packet) [].

(** That ring, written out. *)
Definition fresh_program_ring : shared_memory_ringbuffer :=
  {| cursor_wrap := 4194304; max_slot_size := 65552; writer_cursor := 0;
     writer_pid := 4242; data := fun _ => 0 |}.

(** The 10-second bucket of a time in microseconds. *)
Definition bucket (t : Z) : Z := t / 10000000.

(** The write position of the open log file is a multiple of 8. *)
Definition log_aligned (st : pipeline) : Prop :=
  match fh st with
  | Some written => Z.of_nat (length written) mod 8 = 0
  | None => True
  end.

(** [buf], when not NULL, is the data pointer of the slot at the writer
    cursor. *)
Definition buf_acquired (st : pipeline) : Prop :=
  match buf st with
  | Some b => b = shared_memory_ringbuffer_acquire (shm st)
  | None => True
  end.

(** The bytes 1, 2, ..., [n]: a run of non-zero data. *)
Definition nonzero_run (n : nat) : list Z := map Z.of_nat (seq 1 n).

(** ** shared_memory_ringbuffer.c: the remaining functions *)

(** [writer_close]: the store of 0 to [writer_pid]; the mapping is then
    dropped, the segment stays in the name space. *)
Definition shared_memory_ringbuffer_writer_close (s : shared_memory_ringbuffer)
  : shared_memory_ringbuffer :=
  {| cursor_wrap := cursor_wrap s; max_slot_size := max_slot_size s;
     writer_cursor := writer_cursor s; writer_pid := 0; data := data s |}.

(** [eof], on the segment as the reader sees it and the outcome of
    [kill(writer_pid, 0)]; the stored [long] is narrowed to [pid_t]
    first. *)
Definition shared_memory_ringbuffer_eof (s : shared_memory_ringbuffer) (k : kill_result) : Z :=
  if to_pid_t (writer_pid s) =? 0 then 1
  else
    match k with
    | KillESRCH => 1
    | KillOtherErrno => -1
    | KillOk | KillEPERM => 0
    end.

(** A reader's loop against an idle writer: [n] calls of [recv], each of
    which loads the same writer cursor twice; what each call returned and
    stored through [ret_p], and the reader afterwards. *)
Fixpoint recv_all (s : shared_memory_ringbuffer) (n : nat)
    (reader : shared_memory_ringbuffer_reader)
  : list (Z * option pointer) * shared_memory_ringbuffer_reader :=
  match n with
  | O => ([], reader)
  | S n' =>
      let r := shared_memory_ringbuffer_recv s (writer_cursor s) (writer_cursor s) reader in
      let '(l, reader') := recv_all s n' (recv_reader r) in
      ((recv_ret r, recv_ret_p r) :: l, reader')
  end.

(** The bytes a slot of payload size [size] takes in the ring. *)
Definition slot_span (size : Z) : Z := round_up 16 (sizeof_slot + size).

(** The bytes a sequence of slots takes. *)
Fixpoint total_span (sizes : list Z) : Z :=
  match sizes with
  | [] => 0
  | size :: sizes' => slot_span size + total_span sizes'
  end.

(** What a reader at cursor [c] is handed for slots of the given sizes
    committed from [c] on: each size, with the payload pointer of its
    slot. *)
Fixpoint deliveries (wrap c : Z) (sizes : list Z) : list (Z * option pointer) :=
  match sizes with
  | [] => []
  | size :: sizes' =>
      (size, Some (Ptr (c mod wrap + sizeof_slot)))
        :: deliveries wrap (c + slot_span size) sizes'
  end.

(** ** cobs_to_shm.c: the remaining functions *)

(** [timespec.tv_sec * 1000000ULL + timespec.tv_nsec / 1000UL], the value
    [current_time_in_unix_microseconds] returns for the [timespec] that
    [clock_gettime] filled in. *)
Definition microseconds_of_timespec (tv_sec tv_nsec : Z) : Z :=
  wrap64 (wrap64 (tv_sec * 1000000) + wrap64 (tv_nsec) / 1000).

(** What successive [read] calls on a descriptor find: some bytes (a
    [read] returns at most what one event holds), end of file, or an
    error. *)
Inductive read_event :=
| ReadData (bytes : list Z)
| ReadEof
| ReadError.

Definition descriptor := list read_event.

(** [read(fd, buf, count)]: the returned value, the bytes stored at [buf],
    and the descriptor afterwards.  An exhausted descriptor reports an
    error. *)
Definition sys_read (fd : descriptor) (count : nat) : Z * list Z * descriptor :=
  match fd with
  | [] => (-1, [], [])
  | ReadError :: fd' => (-1, [], fd')
  | ReadEof :: _ => (0, [], fd)
  | ReadData bytes :: fd' =>
      let got := firstn count bytes in
      (Z.of_nat (length got), got,
       match skipn count bytes with
       | [] => fd'
       | remaining => ReadData remaining :: fd'
       end)
  end.

(** The [for] loop of [readall], with [size_read] bytes already stored;
    every turn that goes on has stored at least one byte, so [fuel] beyond
    [size] is never used up ([None]).  The final [return size] converts the
    [size_t] to the [ssize_t] of the result. *)
Fixpoint readall_loop (fuel : nat) (fd : descriptor) (m : memory) (buf : Z)
    (size size_read : nat) : option (Z * memory * descriptor) :=
  if (size_read <? size)%nat then
    match fuel with
    | O => None
    | S fuel' =>
        let '(now, got, fd') := sys_read fd (size - size_read) in
        let m' := store_bytes m (buf + Z.of_nat size_read) got in
        if now =? -1 then Some (-1, m', fd')
        else if now =? 0 then Some (Z.of_nat size_read, m', fd')
        else readall_loop fuel' fd' m' buf size (size_read + length got)
    end
  else Some (to_ssize (Z.of_nat size), m, fd).

Definition readall (fd : descriptor) (m : memory) (buf : Z) (size : nat)
  : option (Z * memory * descriptor) :=
  readall_loop (S size) fd m buf size 0.

(** The bytes a descriptor delivers before its first end of file, error or
    empty read. *)
Fixpoint available (fd : descriptor) : list Z :=
  match fd with
  | ReadData (b :: bytes) :: fd' => (b :: bytes) ++ available fd'
  | _ => []
  end.

(** What the [read] that finds no more data returns: 0 at the end of the
    file (and for a [read] that delivers nothing), -1 for an error. *)
Fixpoint ending (fd : descriptor) : Z :=
  match fd with
  | ReadData (_ :: _) :: fd' => ending fd'
  | ReadData [] :: _ | ReadEof :: _ => 0
  | ReadError :: _ | [] => -1
  end.

(** Every byte the descriptor delivers is an [unsigned char]. *)
Definition descriptor_bytes (fd : descriptor) : Prop :=
  Forall (fun e => match e with
                   | ReadData bytes => Forall is_byte bytes
                   | ReadEof | ReadError => True
                   end) fd.

(** ** cobs_to_shm.c: the frame decoder on a descriptor *)

(** What [read_escaped_frame] leaves behind on a descriptor. *)
Record descriptor_frame := {
  fd_ret : Z;                 (* the returned ssize_t *)
  fd_mem : memory;            (* the memory holding [out] afterwards *)
  fd_rest : descriptor;       (* the descriptor afterwards *)
  fd_warnings : nat           (* "missing end byte" warnings printed *)
}.

(** [do if (-1 == read(fd, &code, 1)) return -1; while (code);] with the
    value [code] holds on entry.  Only -1 is tested: a [read] that returns
    0 stores nothing, [code] keeps its value, which is not 0, and the loop
    reads again.  [Some (false, _)] is the [return -1], [Some (true, _)]
    the end of the loop at a zero byte, [None] a loop that is still reading
    when the fuel is used up. *)
Fixpoint discard_loop (fuel : nat) (fd : descriptor) (code : Z)
  : option (bool * descriptor) :=
  match fuel with
  | O => None
  | S fuel' =>
      let '(now, got, fd1) := sys_read fd 1 in
      if now =? -1 then Some (false, fd1)
      else
        let code1 := match got with
                     | c :: _ => c
                     | [] => code
                     end in
        if code1 =? 0 then Some (true, fd1) else discard_loop fuel' fd1 code1
  end.

(** The [while (1)] loop of [read_escaped_frame], as [frame_loop] above but
    on a descriptor.  [code] is declared in the body of the loop and not
    initialised: in a turn whose [read] returns 0 it holds an indeterminate
    value, here [indeterminate n] for the turn entered with fuel [n].
    [readall] returns a short count at the end of the file, which line 205
    takes for success.  [None] is a loop that has not returned when the
    fuel is used up. *)
Fixpoint frame_loop_fd (indeterminate : nat -> Z) (fuel : nat) (fd : descriptor)
    (m : memory) (out max_plain_size dst : Z) (warnings : nat)
  : option descriptor_frame :=
  match fuel with
  | O => None
  | S fuel' =>
      let '(now, got, fd1) := sys_read fd 1 in
      if now =? -1 then
        Some {| fd_ret := -1; fd_mem := m; fd_rest := fd1; fd_warnings := warnings |}
      else
        let code := match got with
                    | c :: _ => c
                    | [] => indeterminate fuel'
                    end in
        if code =? 0 then
          Some {| fd_ret := if dst >? out then (dst - out) - 1 else 0;
                  fd_mem := m; fd_rest := fd1; fd_warnings := warnings |}
        else if (dst - out) + code >? max_plain_size then
          match discard_loop fuel' fd1 code with
          | None => None
          | Some (false, fd2) =>
              Some {| fd_ret := -1; fd_mem := m; fd_rest := fd2;
                      fd_warnings := S warnings |}
          | Some (true, fd2) =>
              frame_loop_fd indeterminate fuel' fd2 m out max_plain_size out (S warnings)
          end
        else
          match readall fd1 m dst (Z.to_nat (code - 1)) with
          | None => None
          | Some (ret, m1, fd2) =>
              if ret =? -1 then
                Some {| fd_ret := -1; fd_mem := m1; fd_rest := fd2;
                        fd_warnings := warnings |}
              else
                let dst1 := dst + (code - 1) in
                if code =? 255 then
                  frame_loop_fd indeterminate fuel' fd2 m1 out max_plain_size dst1 warnings
                else
                  frame_loop_fd indeterminate fuel' fd2 (store m1 dst1 0) out
                                max_plain_size (dst1 + 1) warnings
          end
  end.

Definition read_escaped_frame_fd (indeterminate : nat -> Z) (fuel : nat)
    (fd : descriptor) (m : memory) (out max_plain_size : Z) : option descriptor_frame :=
  frame_loop_fd indeterminate fuel fd m out max_plain_size out 0.

(** [isprint] in the C locale (the programs never call [setlocale]). *)
Definition isprint (c : Z) : bool := (32 <=? c) && (c <=? 126).

(** The [for] loop of [text_packet] over the bytes of the packet: the
    characters counted before a carriage return, a line feed or the end,
    or [None] for the [return 0] at a byte that is not printable. *)
Fixpoint printable_characters (bytes : list Z) : option (list Z) :=
  match bytes with
  | [] => Some []
  | c :: bytes' =>
      if (c =? 13) || (c =? 10) then Some []
      else if negb (isprint c) then None
      else
        match printable_characters bytes' with
        | Some text => Some (c :: text)
        | None => None
        end
  end.

(** [text_packet]: the returned [int] and the text printed to stderr, if
    any. *)
Definition text_packet (m : memory) (packet_buffer : Z) (packet_size : nat)
  : Z * option (list Z) :=
  match printable_characters (load_bytes m packet_buffer packet_size) with
  | None => (0, None)
  | Some [] => (1, None)
  | Some text => (1, Some text)
  end.

(** What ends the text that [text_packet] counts: the end of the packet, a
    carriage return or a line feed. *)
Definition newline_or_end (rest : list Z) : Prop :=
  match rest with
  | [] => True
  | c :: _ => c = 13 \/ c = 10
  end.
(** * Properties *)

(** ** Facts about machine arithmetic *)

Lemma wrap64_range (x : Z) : 0 <= wrap64 x < 2 ^ 64.
Proof. unfold wrap64. apply Z.mod_pos_bound. lia. Qed.

Lemma wrap64_small (x : Z) : 0 <= x < 2 ^ 64 -> wrap64 x = x.
Proof. unfold wrap64. apply Z.mod_small. Qed.

Lemma wrap64_add_l (x y : Z) : wrap64 (wrap64 x + y) = wrap64 (x + y).
Proof. unfold wrap64. apply Zplus_mod_idemp_l. Qed.

Lemma wrap64_add_r (x y : Z) : wrap64 (x + wrap64 y) = wrap64 (x + y).
Proof. unfold wrap64. apply Zplus_mod_idemp_r. Qed.

Lemma wrap64_sub_l (x y : Z) : wrap64 (wrap64 x - y) = wrap64 (x - y).
Proof. unfold wrap64. apply Zminus_mod_idemp_l. Qed.

Lemma wrap64_mod16 (x : Z) : wrap64 x mod 16 = x mod 16.
Proof.
  unfold wrap64. change (2 ^ 64) with (16 * 2 ^ 60).
  rewrite Z.rem_mul_r by lia.
  rewrite (Z.mul_comm 16), Z.mod_add by lia.
  apply Z.mod_mod. lia.
Qed.

(** Clearing the [k] low bits of a 64-bit value with the mask [~(2^k - 1)]
    rounds it down to a multiple of [2^k]. *)
Lemma land_clear_low (k x : Z) :
  0 <= k <= 64 -> 0 <= x < 2 ^ 64 ->
  Z.land x (wrap64 (Z.lnot (2 ^ k - 1))) = 2 ^ k * (x / 2 ^ k).
Proof.
  intros Hk Hx.
  assert (Hp : 0 < 2 ^ k <= 2 ^ 64).
  { split; [apply Z.pow_pos_nonneg; lia | apply Z.pow_le_mono_r; lia]. }
  assert (Hm : wrap64 (Z.lnot (2 ^ k - 1)) = Z.shiftl (Z.ones (64 - k)) k).
  { unfold wrap64, Z.lnot.
    replace (Z.pred (- (2 ^ k - 1))) with ((2 ^ 64 - 2 ^ k) + (-1) * 2 ^ 64) by lia.
    rewrite Z.mod_add, Z.mod_small by lia.
    rewrite Z.shiftl_mul_pow2, Z.ones_equiv by lia.
    replace (Z.pred (2 ^ (64 - k)) * 2 ^ k) with (2 ^ (64 - k) * 2 ^ k - 2 ^ k) by lia.
    rewrite <- Z.pow_add_r by lia. do 2 f_equal. lia. }
  rewrite Hm. apply Z.bits_inj'. intros n Hn.
  rewrite Z.land_spec, (Z.mul_comm (2 ^ k)).
  rewrite <- Z.shiftl_mul_pow2, <- Z.shiftr_div_pow2 by lia.
  rewrite !Z.shiftl_spec by lia.
  destruct (Z.ltb_spec n k) as [Hlow | Hhigh].
  - rewrite !(Z.testbit_neg_r _ (n - k)) by lia. apply andb_false_r.
  - rewrite Z.shiftr_spec by lia. replace (n - k + k) with n by lia.
    destruct (Z.ltb_spec n 64) as [Hin | Hout].
    + rewrite Z.ones_spec_low by lia. apply andb_true_r.
    + rewrite Z.ones_spec_high, andb_false_r by lia.
      symmetry. destruct (Z.eq_dec x 0) as [-> | Hnz]; [apply Z.bits_0 |].
      apply Z.bits_above_log2; [lia |].
      apply Z.log2_lt_pow2; [lia |].
      assert (2 ^ 64 <= 2 ^ n) by (apply Z.pow_le_mono_r; lia). lia.
Qed.

Lemma pad16_spec (x : Z) : pad16 x = 16 * (wrap64 (x + 15) / 16).
Proof. unfold pad16. apply (land_clear_low 4); [lia | apply wrap64_range]. Qed.

Lemma pad8_spec (x : Z) : pad8 x = 8 * (wrap64 (x + 7) / 8).
Proof. unfold pad8. apply (land_clear_low 3); [lia | apply wrap64_range]. Qed.

(** The bit trick of the code is the rounding of the design document, up to
    the wrap of [size_t]. *)
Lemma pad16_round_up (x : Z) : pad16 x = wrap64 (round_up 16 x).
Proof.
  rewrite pad16_spec. unfold round_up, wrap64.
  replace (x + (16 - 1)) with (x + 15) by lia.
  set (y := x + 15). set (q := y / 2 ^ 64). set (r := y mod 2 ^ 64).
  assert (Hy : y = 2 ^ 60 * q * 16 + r).
  { pose proof (Z.div_mod y (2 ^ 64) ltac:(lia)) as H. fold q r in H.
    change (2 ^ 64) with (2 ^ 60 * 16) in H. lia. }
  assert (Hd : y / 16 = 2 ^ 60 * q + r / 16).
  { rewrite Hy at 1. apply Z.div_add_l. lia. }
  rewrite Hd.
  replace (16 * (2 ^ 60 * q + r / 16)) with (16 * (r / 16) + q * 2 ^ 64) by
    (change (2 ^ 64) with (2 ^ 60 * 16); lia).
  rewrite Z.mod_add by lia.
  assert (Hr : 0 <= r < 2 ^ 64) by (apply Z.mod_pos_bound; lia).
  pose proof (Z.mul_div_le r 16 ltac:(lia)).
  assert (0 <= r / 16) by (apply Z.div_pos; lia).
  rewrite Z.mod_small; lia.
Qed.

Lemma pad8_small (x : Z) : 0 <= x < 2 ^ 63 -> pad8 x = round_up 8 x.
Proof.
  intros H. rewrite pad8_spec, wrap64_small by lia. reflexivity.
Qed.

Lemma round_up_bounds (a x : Z) : 0 < a -> x <= round_up a x < x + a.
Proof.
  intros Ha. unfold round_up.
  pose proof (Z.div_mod (x + (a - 1)) a ltac:(lia)).
  pose proof (Z.mod_pos_bound (x + (a - 1)) a Ha). lia.
Qed.

Lemma round_up_mod (a x : Z) : 0 < a -> round_up a x mod a = 0.
Proof. intros Ha. unfold round_up. rewrite Z.mul_comm. apply Z.mod_mul. lia. Qed.

(** ** Facts about memory *)

Lemma store_bytes_outside (bs : list Z) (m : memory) (a x : Z) :
  x < a \/ a + Z.of_nat (length bs) <= x -> store_bytes m a bs x = m x.
Proof.
  revert m a. induction bs as [| b bs IH]; intros m a H; simpl in *; [reflexivity |].
  rewrite IH by lia. unfold store.
  destruct (Z.eqb_spec x a); [lia | reflexivity].
Qed.

Lemma load_bytes_length (m : memory) (a : Z) (n : nat) : length (load_bytes m a n) = n.
Proof. unfold load_bytes. now rewrite length_map, length_seq. Qed.

Lemma load_bytes_ext (m1 m2 : memory) (a : Z) (n : nat) :
  (forall x, a <= x < a + Z.of_nat n -> m1 x = m2 x) ->
  load_bytes m1 a n = load_bytes m2 a n.
Proof.
  intros H. unfold load_bytes. apply map_ext_in. intros i Hi.
  apply in_seq in Hi. apply H. lia.
Qed.

Lemma load_bytes_succ (m : memory) (a : Z) (n : nat) :
  load_bytes m a (S n) = m a :: load_bytes m (a + 1) n.
Proof.
  unfold load_bytes. simpl. rewrite Z.add_0_r. f_equal.
  rewrite <- seq_shift, map_map. apply map_ext. intros i. f_equal. lia.
Qed.

Lemma load_bytes_app (m : memory) (a : Z) (n k : nat) :
  load_bytes m a (n + k) = load_bytes m a n ++ load_bytes m (a + Z.of_nat n) k.
Proof.
  revert a. induction n as [| n IH]; intros a.
  - simpl. now rewrite Z.add_0_r.
  - change (S n + k)%nat with (S (n + k)). rewrite !load_bytes_succ, IH. simpl.
    do 3 f_equal. lia.
Qed.

Lemma load_store_bytes (bs : list Z) (m : memory) (a : Z) :
  load_bytes (store_bytes m a bs) a (length bs) = bs.
Proof.
  revert m a. induction bs as [| b bs IH]; intros m a; [reflexivity |].
  simpl length. rewrite load_bytes_succ. simpl. rewrite IH. f_equal.
  rewrite store_bytes_outside by lia. unfold store. now rewrite Z.eqb_refl.
Qed.

Lemma load_bytes_firstn (m : memory) (a : Z) (n k : nat) :
  (n <= k)%nat -> load_bytes m a n = firstn n (load_bytes m a k).
Proof.
  intros Hnk. replace k with (n + (k - n))%nat by lia.
  rewrite load_bytes_app, firstn_app, load_bytes_length, Nat.sub_diag, firstn_O, app_nil_r.
  symmetry. apply firstn_all2. rewrite load_bytes_length. lia.
Qed.

Lemma le_bytes_length (n : nat) (v : Z) : length (le_bytes n v) = n.
Proof. revert v. induction n; intros v; simpl; [reflexivity | now rewrite IHn]. Qed.

Lemma le_value_bytes (n : nat) (v : Z) :
  le_value (le_bytes n v) = v mod 2 ^ (8 * Z.of_nat n).
Proof.
  revert v. induction n as [| n IH]; intros v.
  - simpl. now rewrite Z.mod_1_r.
  - cbn [le_bytes le_value]. rewrite IH.
    replace (8 * Z.of_nat (S n)) with (8 + 8 * Z.of_nat n) by lia.
    rewrite Z.pow_add_r by lia. change (2 ^ 8) with 256.
    rewrite Z.rem_mul_r by (try apply Z.pow_pos_nonneg; lia). reflexivity.
Qed.

Lemma load_store64 (m : memory) (a v : Z) : load64 (store64 m a v) a = wrap64 v.
Proof.
  unfold load64, store64.
  rewrite <- (le_bytes_length 8 v) at 2.
  rewrite load_store_bytes, le_value_bytes. reflexivity.
Qed.

(** ** The ring: [recv] *)

Lemma to_ssize_small (s : Z) : s < 2 ^ 63 -> to_ssize s = s.
Proof. intros H. unfold to_ssize. destruct (Z.ltb_spec s (2 ^ 63)); lia. Qed.

(** The overrun test of [recv], whose three subtractions and additions each
    wrap, is one comparison of the wrapped difference. *)
Lemma recv_overrun_test (wc_after max rc : Z) :
  wrap64 (wrap64 (wrap64 (wc_after + max) - rc) - sizeof_slot)
  = wrap64 (wc_after + max - rc - sizeof_slot).
Proof.
  rewrite wrap64_sub_l.
  replace (wrap64 (wc_after + max) - rc - sizeof_slot)
    with (wrap64 (wc_after + max) - (rc + sizeof_slot)) by lia.
  rewrite wrap64_sub_l. f_equal. lia.
Qed.

Lemma recv_advance (rc x : Z) : wrap64 (rc + pad16 x) = wrap64 (rc + round_up 16 x).
Proof. now rewrite pad16_round_up, wrap64_add_r. Qed.



(** C10: whenever [recv] returns the overrun result (-1, with nothing
    stored through [ret_p]) or the empty result (0, with NULL stored
    through [ret_p]), the reader cursor, which is all the private state a
    reader has, is left as it was: a later [recv], whatever the writer has
    done meanwhile, behaves as it would have from the reader before the
    call, and reads the same slot position.  These two results are the two
    early returns of the function, and no other path produces them. *)
Theorem recv_error_atomicity
    (shm : shared_memory_ringbuffer) (wc wc_after : Z)
    (reader : shared_memory_ringbuffer_reader) :
  let r := shared_memory_ringbuffer_recv shm wc wc_after reader in
  let empty := recv_ret r = 0 /\ recv_ret_p r = Some NULL in
  let overrun := recv_ret r = -1 /\ recv_ret_p r = None in
  (empty \/ overrun ->
   recv_reader r = reader /\
   (forall shm', slot_offset shm' (reader_cursor (recv_reader r))
                 = slot_offset shm' (reader_cursor reader)) /\
   (forall shm' wc' wc_after',
      shared_memory_ringbuffer_recv shm' wc' wc_after' (recv_reader r)
      = shared_memory_ringbuffer_recv shm' wc' wc_after' reader)) /\
  (empty <-> wc = reader_cursor reader) /\
  (overrun <->
   wc <> reader_cursor reader /\
   cursor_wrap shm
   < wrap64 (wc_after + max_slot_size shm - reader_cursor reader - sizeof_slot)).
Proof.
  intros r empty overrun. subst r empty overrun.
  unfold shared_memory_ringbuffer_recv. rewrite recv_overrun_test.
  destruct (Z.eqb_spec wc (reader_cursor reader)) as [Heq | Hne].
  { cbn. split; [intros _; repeat split |]. split.
    - tauto.
    - split; [intros [H _]; discriminate H | tauto]. }
  destruct (Z.gtb_spec (wrap64 (wc_after + max_slot_size shm - reader_cursor reader
                                - sizeof_slot)) (cursor_wrap shm)) as [Hgt | Hle].
  { cbn. split; [intros _; repeat split |]. split.
    - split; [intros [H _]; discriminate H | tauto].
    - split; [intros _; split; [exact Hne | lia] | tauto]. }
  cbn. split; [| split].
  - intros [[_ H] | [_ H]]; discriminate H.
  - split; [intros [_ H]; discriminate H | tauto].
  - split; [intros [_ H]; discriminate H | intros [_ H]; lia].
Qed.

(** A reader that is level with the writer gets the empty result and stays
    where it is. *)
Lemma recv_error_atomicity_witness :
  match ring_after 128 16 [16] with
  | Some shm =>
      recv_reader (shared_memory_ringbuffer_recv shm 32 32 {| reader_cursor := 32 |})
      = {| reader_cursor := 32 |}
  | None => False
  end.
Proof.
  destruct (ring_after 128 16 [16]) as [shm |] eqn:E; [| discriminate E].
  apply (proj1 (recv_error_atomicity shm 32 32 {| reader_cursor := 32 |})).
  left. split; reflexivity.
Defined.

(** ** The ring: [has_kept_up] *)

(** What the code tests: the lag of the reader cursor as it stands, that
    is after the advance of the last [recv]. *)
Lemma has_kept_up_test
    (shm : shared_memory_ringbuffer) (wc : Z) (reader : shared_memory_ringbuffer_reader) :
  shared_memory_ringbuffer_reader_has_kept_up shm wc reader = true <->
  wrap64 (wc - reader_cursor reader + max_slot_size shm) <= cursor_wrap shm.
Proof.
  unfold shared_memory_ringbuffer_reader_has_kept_up.
  rewrite wrap64_add_l. apply Z.leb_le.
Qed.

(** C3 (the code departs from it): a ring of 128 bytes with slots of at
    most 32.  The reader takes the first slot (cursor 0 to 32, payload at
    offset 16); the writer commits three more and is back at offset 0,
    where its next [acquire] hands out the payload the reader holds.
    [has_kept_up] answers 1, while [writer_cursor - (reader_cursor -
    last_slot_span) + max_slot_size] is 160, above [cursor_wrap]. *)
Theorem has_kept_up_misses_last_slot :
  match ring_after 128 16 [16], ring_after 128 16 [16; 16; 16; 16] with
  | Some ring1, Some ring4 =>
      let attached := {| reader_cursor := 0 |} in
      let r := shared_memory_ringbuffer_recv ring1 (writer_cursor ring1)
                 (writer_cursor ring1) attached in
      let last_slot_span := reader_cursor (recv_reader r) - reader_cursor attached in
      recv_ret r = 16 /\ recv_ret_p r = Some (Ptr 16) /\ last_slot_span = 32 /\
      writer_cursor ring4 = 128 /\
      shared_memory_ringbuffer_acquire ring4 = 16 /\
      shared_memory_ringbuffer_reader_has_kept_up ring4 (writer_cursor ring4)
        (recv_reader r) = true /\
      wrap64 (writer_cursor ring4 - (reader_cursor (recv_reader r) - last_slot_span)
              + max_slot_size ring4) = 160 /\
      cursor_wrap ring4 = 128
  | _, _ => False
  end.
Proof. vm_compute. repeat split. Qed.

(** ** The ring: [reader_init] *)

Lemma to_pid_t_zero : to_pid_t 0 = 0.
Proof. reflexivity. Qed.

(** C8 (the code departs from it on one path): [reader_init] returns NULL
    when the segment does not exist, when its [writer_pid], narrowed to
    [pid_t], is zero (so when it is zero), or when the probe of the pid
    reports no such process; it returns MAP_FAILED, a different value,
    when [shm_open] fails otherwise or [fstat] or [mmap] fails; on success
    the reader cursor is the writer cursor loaded at that moment.  When
    the probe fails with any other [errno], the call does not come to its
    [return MAP_FAILED] without first reading [shm->writer_pid] in the
    segment it has just unmapped. *)
Theorem reader_init_outcomes (os : reader_os) :
  let r := shared_memory_ringbuffer_reader_init os in
  (r = ReaderNULL <->
     shm_open_r os = ShmENOENT \/
     exists seg, shm_open_r os = ShmOpened seg /\
       fstat_ok os = true /\ reader_mmap_ok os = true /\
       (to_pid_t (writer_pid seg) = 0 \/ kill_r os = KillESRCH)) /\
  (forall seg, shm_open_r os = ShmOpened seg ->
     fstat_ok os = true -> reader_mmap_ok os = true ->
     writer_pid seg = 0 -> r = ReaderNULL) /\
  (r = ReaderMAP_FAILED <->
     shm_open_r os = ShmOpenError \/
     exists seg, shm_open_r os = ShmOpened seg /\
       (fstat_ok os = false \/ reader_mmap_ok os = false)) /\
  (forall reader, r = ReaderOk reader <->
     exists seg, shm_open_r os = ShmOpened seg /\
       fstat_ok os = true /\ reader_mmap_ok os = true /\
       to_pid_t (writer_pid seg) <> 0 /\
       (kill_r os = KillOk \/ kill_r os = KillEPERM) /\
       reader = {| reader_cursor := writer_cursor seg |}) /\
  (r = ReaderReadsUnmapped <->
     exists seg, shm_open_r os = ShmOpened seg /\
       fstat_ok os = true /\ reader_mmap_ok os = true /\
       to_pid_t (writer_pid seg) <> 0 /\ kill_r os = KillOtherErrno) /\
  ReaderNULL <> ReaderMAP_FAILED.
Proof.
  intros r. subst r. unfold shared_memory_ringbuffer_reader_init.
  destruct os as [[seg | |] fs mm k]; cbn [shm_open_r fstat_ok reader_mmap_ok kill_r].
  - assert (Hseg : forall (P : shared_memory_ringbuffer -> Prop),
               (exists seg', ShmOpened seg = ShmOpened seg' /\ P seg') <-> P seg).
    { intros P. split; [intros (seg' & [= <-] & H); exact H | intros H; exists seg; tauto]. }
    assert (Hno : ShmOpened seg = ShmENOENT <-> False) by (split; [discriminate | tauto]).
    assert (Hno' : ShmOpened seg = ShmOpenError <-> False) by (split; [discriminate | tauto]).
    split; [| split; [| split; [| split; [| split; [| discriminate]]]]].
    + rewrite Hno, (Hseg (fun seg' => fs = true /\ mm = true /\
                            (to_pid_t (writer_pid seg') = 0 \/ k = KillESRCH))).
      destruct fs, mm; cbn [negb];
        try (destruct (Z.eqb_spec (to_pid_t (writer_pid seg)) 0); try destruct k);
        intuition (try discriminate; try congruence).
    + intros seg' [= <-] -> -> Hpid. cbn [negb]. rewrite Hpid. reflexivity.
    + rewrite Hno', (Hseg (fun _ => fs = false \/ mm = false)).
      destruct fs, mm; cbn [negb];
        try (destruct (Z.eqb_spec (to_pid_t (writer_pid seg)) 0); try destruct k);
        intuition (try discriminate; try congruence).
    + intros reader.
      rewrite (Hseg (fun seg' => fs = true /\ mm = true /\
                       to_pid_t (writer_pid seg') <> 0 /\
                       (k = KillOk \/ k = KillEPERM) /\
                       reader = {| reader_cursor := writer_cursor seg' |})).
      destruct fs, mm; cbn [negb];
        try (destruct (Z.eqb_spec (to_pid_t (writer_pid seg)) 0); try destruct k);
        intuition (try discriminate; try congruence).
    + rewrite (Hseg (fun seg' => fs = true /\ mm = true /\
                       to_pid_t (writer_pid seg') <> 0 /\ k = KillOtherErrno)).
      destruct fs, mm; cbn [negb];
        try (destruct (Z.eqb_spec (to_pid_t (writer_pid seg)) 0); try destruct k);
        intuition (try discriminate; try congruence).
  - repeat split; try discriminate; try (intros _; now left);
      try (intros [H | (seg & H & _)]; discriminate H);
      try (intros (seg & H & _); discriminate H);
      try (intros seg H; discriminate H).
  - repeat split; try discriminate; try (intros _; now left);
      try (intros [H | (seg & H & _)]; discriminate H);
      try (intros (seg & H & _); discriminate H);
      try (intros seg H; discriminate H).
Qed.

(** The failing path: the writer of the segment is alive and the probe
    fails with an [errno] that is neither EPERM nor ESRCH. *)
Lemma reader_init_outcomes_witness :
  shared_memory_ringbuffer_reader_init
    {| shm_open_r := ShmOpened fresh_program_ring; fstat_ok := true;
       reader_mmap_ok := true; kill_r := KillOtherErrno |}
  = ReaderReadsUnmapped.
Proof.
  apply (proj2 (proj1 (proj2 (proj2 (proj2 (proj2
           (reader_init_outcomes
              {| shm_open_r := ShmOpened fresh_program_ring; fstat_ok := true;
                 reader_mmap_ok := true; kill_r := KillOtherErrno |}))))))).
  exists fresh_program_ring. repeat split. vm_compute. discriminate.
Defined.

(** ** The frame decoder *)

Lemma discard_until_zero_shorter (fd fd' : stream) :
  discard_until_zero fd = Some fd' -> (length fd' < length fd)%nat.
Proof.
  induction fd as [| c fd IH]; simpl; [discriminate |].
  destruct (c =? 0); intros H.
  - injection H as <-. lia.
  - apply IH in H. lia.
Qed.


(** Fuel beyond the length of the stream changes nothing. *)
Lemma frame_loop_fuel (n : nat) :
  forall (fd : stream) (fuel1 fuel2 : nat) (m : memory) (out max dst : Z) (w : nat),
    (length fd <= n)%nat -> (n < fuel1)%nat -> (n < fuel2)%nat ->
    frame_loop fuel1 m out max dst w fd = frame_loop fuel2 m out max dst w fd.
Proof.
  induction n as [| n IH]; intros fd fuel1 fuel2 m out max dst w Hfd H1 H2;
    destruct fuel1 as [| fuel1]; try lia; destruct fuel2 as [| fuel2]; try lia;
    destruct fd as [| code fd1]; try reflexivity; simpl in Hfd; try lia.
  cbn [frame_loop].
  destruct (code =? 0); [reflexivity |].
  destruct (_ >? max).
  - destruct (discard_until_zero fd1) as [fd2 |] eqn:E; [| reflexivity].
    apply discard_until_zero_shorter in E. apply IH; lia.
  - destruct (_ <? _)%nat; [reflexivity |].
    assert (length (skipn (Z.to_nat (code - 1)) fd1) <= n)%nat
      by (rewrite length_skipn; lia).
    destruct (code =? 255); apply IH; lia.
Qed.

(** The decoder returns on every stream: the loop never runs out of the
    fuel [read_escaped_frame] gives it. *)
Lemma frame_loop_total (n : nat) :
  forall (fd : stream) (fuel : nat) (m : memory) (out max dst : Z) (w : nat),
    (length fd <= n)%nat -> (n < fuel)%nat ->
    exists r, frame_loop fuel m out max dst w fd = Some r.
Proof.
  induction n as [| n IH]; intros fd fuel m out max dst w Hfd Hf;
    (destruct fuel as [| fuel]; [lia |]);
    (destruct fd as [| code fd1]; [eexists; reflexivity |]); simpl in Hfd; try lia.
  cbn [frame_loop].
  destruct (code =? 0); [eexists; reflexivity |].
  destruct (_ >? max).
  - destruct (discard_until_zero fd1) as [fd2 |] eqn:E; [| eexists; reflexivity].
    apply discard_until_zero_shorter in E. apply IH; lia.
  - destruct (_ <? _)%nat; [eexists; reflexivity |].
    assert (length (skipn (Z.to_nat (code - 1)) fd1) <= n)%nat
      by (rewrite length_skipn; lia).
    destruct (code =? 255); apply IH; lia.
Qed.

Lemma read_escaped_frame_total (m : memory) (out max : Z) (fd : stream) :
  exists r, read_escaped_frame m out max fd = Some r.
Proof. apply (frame_loop_total (length fd)); lia. Qed.



(** One block on the wire, count byte and data, when it fits: the data goes
    to [dst], and a zero after it unless the block is a full one. *)
Lemma frame_loop_block
    (fuel : nat) (m : memory) (out max dst : Z) (w : nat) (d rest : list Z) :
  (dst - out) + (Z.of_nat (length d) + 1) <= max ->
  frame_loop (S fuel) m out max dst w ((Z.of_nat (length d) + 1) :: d ++ rest)
  = if Z.of_nat (length d) + 1 =? 255
    then frame_loop fuel (store_bytes m dst d) out max
           (dst + Z.of_nat (length d)) w rest
    else frame_loop fuel (store (store_bytes m dst d) (dst + Z.of_nat (length d)) 0)
           out max (dst + Z.of_nat (length d) + 1) w rest.
Proof.
  intros Hfit. cbn [frame_loop].
  destruct (Z.eqb_spec (Z.of_nat (length d) + 1) 0); [lia |].
  destruct (Z.gtb_spec (dst - out + (Z.of_nat (length d) + 1)) max); [lia |].
  replace (Z.of_nat (length d) + 1 - 1) with (Z.of_nat (length d)) by lia.
  rewrite Nat2Z.id, firstn_app, Nat.sub_diag, firstn_all, firstn_O, app_nil_r.
  rewrite Nat.ltb_irrefl, skipn_app, skipn_all, Nat.sub_diag.
  reflexivity.
Qed.

(** Memory that agrees with a store on the stored range reads back the
    stored bytes. *)
Lemma load_bytes_stored (bs : list Z) (m m' : memory) (a : Z) :
  (forall x, a <= x < a + Z.of_nat (length bs) -> m' x = store_bytes m a bs x) ->
  load_bytes m' a (length bs) = bs.
Proof.
  intros H. rewrite <- (load_store_bytes bs m a) at 2. now apply load_bytes_ext.
Qed.

(** A run of 254 non-zero bytes leaves the encoder as 0xFF, the bytes and
    the terminator, the frame of scenario 3. *)
Lemma stuff_maximal_run (payload : list Z) :
  forall run,
    Forall (fun b => b <> 0) payload ->
    payload <> [] ->
    (length run + length payload = 254)%nat ->
    stuff run payload = 255 :: run ++ payload.
Proof.
  induction payload as [| b p IH]; intros run Hnz Hne Hlen; [contradiction |].
  inversion Hnz as [| ? ? Hb Hp]; subst. cbn [stuff].
  destruct (Z.eqb_spec b 0) as [| _]; [contradiction |].
  cbn [length] in Hlen.
  destruct (Z.eqb_spec (Z.of_nat (length run) + 1) 254) as [Hfull | Hroom].
  - destruct p as [| b' p']; [| cbn [length] in Hlen; lia].
    now rewrite app_nil_r.
  - rewrite IH.
    + now rewrite <- app_assoc.
    + exact Hp.
    + destruct p; [cbn [length] in Hlen; lia | discriminate].
    + rewrite length_app. cbn [length]. lia.
Qed.

Lemma cobs_encode_maximal_run (payload : list Z) :
  Forall (fun b => b <> 0) payload -> length payload = 254%nat ->
  cobs_encode payload = frame_wire [payload] /\
  frame_wire [payload] = 255 :: payload ++ [0] /\
  blocks_payload [payload] = payload.
Proof.
  intros Hnz Hlen. unfold cobs_encode, frame_wire, block_wire. cbn [flat_map].
  rewrite Hlen, app_nil_r. split; [| split; reflexivity].
  rewrite stuff_maximal_run; [reflexivity | exact Hnz | | exact Hlen].
  intros ->. discriminate Hlen.
Qed.

(** Two frames of the design document: 03 41 42 00 is the payload AB, and
    01 01 00 is the one-byte payload 00. *)
Example decode_two_bytes :
  option_map (fun r => (frame_ret r, frame_payload 0 r, frame_fd r))
    (read_escaped_frame (fun _ => 0) 0 sizeof_packet [3; 65; 66; 0])
  = Some (2, [65; 66], []).
Proof. vm_compute. reflexivity. Qed.

Example decode_one_zero :
  option_map (fun r => (frame_ret r, frame_payload 0 r, frame_fd r))
    (read_escaped_frame (fun _ => 0) 0 sizeof_packet [1; 1; 0])
  = Some (1, [0], []).
Proof. vm_compute. reflexivity. Qed.

(** The decoder on the frame of a maximal run, whatever its 254 bytes: it
    returns 253 and the run without its last byte.  The block of count
    0xFF is followed by no zero byte in [out], and line 213 still takes
    one byte off the length. *)
Lemma decode_maximal_run (m : memory) (out max : Z) (payload : list Z) (rest : stream) :
  length payload = 254%nat ->
  255 <= max ->
  exists r,
    read_escaped_frame m out max (frame_wire [payload] ++ rest) = Some r /\
    frame_ret r = 253 /\
    frame_payload out r = removelast payload /\
    frame_fd r = rest /\
    frame_warnings r = 0%nat.
Proof.
  intros Hlen Hmax. unfold read_escaped_frame, frame_wire, block_wire.
  cbn [flat_map]. rewrite app_nil_r, <- !app_assoc. cbn [app length].
  rewrite frame_loop_block by lia.
  assert (Hlen' : Z.of_nat (length payload) = 254) by (rewrite Hlen; reflexivity).
  rewrite Hlen'. change (254 + 1 =? 255) with true. cbn iota.
  cbn [frame_loop]. rewrite Z.eqb_refl.
  eexists. split; [reflexivity |].
  cbn [frame_ret frame_mem frame_fd frame_warnings]. unfold frame_payload.
  cbn [frame_ret frame_mem].
  destruct (Z.gtb_spec (out + 254) out) as [_ |]; [| lia].
  split; [lia |]. split; [| split; reflexivity].
  replace (Z.to_nat (out + 254 - out - 1)) with 253%nat by lia.
  rewrite (load_bytes_firstn _ _ _ (length payload)) by lia.
  rewrite load_store_bytes, removelast_firstn_len, Hlen. reflexivity.
Qed.

(** C1 (the code departs from it): the frame of scenario 3, 0xFF, a run of
    254 non-zero bytes and 0x00, is what the encoder emits for that run,
    and stands for it in the wire format; the decoder returns 253, the run
    without its last byte. *)
Theorem decode_254_run_drops_last_byte :
  cobs_encode (nonzero_run 254) = 255 :: nonzero_run 254 ++ [0] /\
  frame_wire [nonzero_run 254] = 255 :: nonzero_run 254 ++ [0] /\
  blocks_payload [nonzero_run 254] = nonzero_run 254 /\
  option_map (fun r => (frame_ret r, frame_payload 0 r))
    (read_escaped_frame (fun _ => 0) 0 sizeof_packet (cobs_encode (nonzero_run 254)))
  = Some (253, nonzero_run 253) /\
  nonzero_run 253 <> nonzero_run 254.
Proof.
  repeat split; try (vm_compute; reflexivity).
  intros H. apply (f_equal (@length Z)) in H. vm_compute in H. discriminate H.
Qed.

(** A payload as long as the capacity does not decode either: its last
    block trips the length check, which counts the zero the decoder appends
    after every block that is not full. *)
Lemma decode_full_capacity_payload_fails :
  option_map (fun r => (frame_ret r, frame_warnings r))
    (read_escaped_frame (fun _ => 0) 0 sizeof_packet
       (cobs_encode (repeat 0 (Z.to_nat sizeof_packet))))
  = Some (-1, 1%nat).
Proof. vm_compute. reflexivity. Qed.






(** ** The ingest loop: header, padding, commit *)

Lemma lor_shifted (a s : Z) :
  0 <= s < 2 ^ 16 -> Z.lor (a * 2 ^ 16) s = a * 2 ^ 16 + s.
Proof.
  intros Hs.
  assert (Hland : Z.land (a * 2 ^ 16) s = 0).
  { apply Z.bits_inj'. intros n Hn.
    rewrite Z.land_spec, Z.bits_0, <- Z.shiftl_mul_pow2 by lia.
    destruct (Z.ltb_spec n 16) as [Hlow | Hhigh].
    - now rewrite Z.shiftl_spec_low by lia.
    - replace (Z.testbit s n) with false; [apply andb_false_r |].
      symmetry. destruct (Z.eq_dec s 0) as [-> | Hnz]; [apply Z.bits_0 |].
      apply Z.bits_above_log2; [lia |]. apply Z.log2_lt_pow2; [lia |].
      assert (2 ^ 16 <= 2 ^ n) by (apply Z.pow_le_mono_r; lia). lia. }
  rewrite <- Z.lxor_lor by exact Hland. symmetry. now apply Z.add_nocarry_lxor.
Qed.

Lemma logging_header_value (T s : Z) :
  0 <= s < 65536 -> 0 <= T < 2 ^ 52 ->
  logging_header T s = T / 16 * 65536 + s.
Proof.
  intros Hs HT. unfold logging_header. rewrite Z.shiftl_mul_pow2 by lia.
  assert (0 <= T / 16 < 2 ^ 48)
    by (split; [apply Z.div_pos | apply Z.div_lt_upper_bound]; lia).
  rewrite wrap64_small by (change (2 ^ 16) with 65536; lia).
  apply lor_shifted. lia.
Qed.

Lemma header_fields (T s : Z) :
  0 <= s < 65536 -> 0 <= T < 2 ^ 52 ->
  header_size (logging_header T s) = s /\
  header_time (logging_header T s) * 16 = T - T mod 16.
Proof.
  intros Hs HT. rewrite logging_header_value by assumption.
  unfold header_size, header_time. split.
  - change 65535 with (Z.ones 16). rewrite Z.land_ones by lia.
    change (2 ^ 16) with 65536.
    rewrite Z.add_comm, Z.mod_add, Z.mod_small; lia.
  - rewrite Z.shiftr_div_pow2 by lia. change (2 ^ 16) with 65536.
    rewrite Z.add_comm, Z.div_add, Z.div_small by lia.
    pose proof (Z.div_mod T 16 ltac:(lia)). lia.
Qed.

Lemma pad8_bounds (s : Z) : 0 <= s < 2 ^ 63 -> s <= pad8 s < s + 8 /\ pad8 s mod 8 = 0.
Proof.
  intros Hs. rewrite pad8_small by assumption.
  split; [apply round_up_bounds | apply round_up_mod]; lia.
Qed.

(** What [publish_frame] leaves in the slot it commits, when [buf] is the
    slot the writer cursor designates: the size prefix, the header, the
    packet as the decoder left it, and zeros up to the next multiple of
    8. *)
Lemma publish_frame_slot (T s b : Z) (st st' : pipeline) :
  0 <= s < 2 ^ 63 ->
  b = shared_memory_ringbuffer_acquire (shm st) ->
  publish_frame T s b st = (LoopContinue, st') ->
  load64 (data (shm st')) (b - sizeof_slot) = 8 + s /\
  load_bytes (data (shm st')) b (Z.to_nat (8 + pad8 s))
  = le_bytes 8 (logging_header T s)
    ++ load_bytes (data (shm st)) (b + 8) (Z.to_nat s)
    ++ repeat 0 (Z.to_nat (pad8 s - s)).
Proof.
  intros Hs Hb Hpub. unfold publish_frame in Hpub.
  set (d1 := store64 (data (shm st)) b (logging_header T s)) in Hpub.
  set (d2 := if negb (pad8 s =? s)
             then memset d1 (b + 8 + s) 0 (Z.to_nat (pad8 s - s)) else d1) in Hpub.
  destruct (shared_memory_ringbuffer_send (set_data (shm st) d2) (8 + s))
    as [shm' |] eqn:Esend; [| discriminate Hpub].
  injection Hpub as <-. cbn [shm].
  unfold shared_memory_ringbuffer_send in Esend.
  destruct (_ <=? _) in Esend; [| discriminate Esend].
  injection Esend as <-. cbn [data set_data writer_cursor] in *.
  assert (Hslot : slot_offset (set_data (shm st) d2) (writer_cursor (shm st))
                  = b - sizeof_slot).
  { rewrite Hb. unfold shared_memory_ringbuffer_acquire, slot_offset. cbn. lia. }
  rewrite Hslot. destruct (pad8_bounds s Hs) as [Hpad _].
  split.
  { rewrite load_store64. apply wrap64_small. lia. }
  assert (Hd2 : forall x, x < b + 8 + s -> d2 x = d1 x).
  { intros x Hx. subst d2. destruct (negb (pad8 s =? s)); [| reflexivity].
    apply store_bytes_outside. lia. }
  replace (Z.to_nat (8 + pad8 s))
    with (8 + (Z.to_nat s + Z.to_nat (pad8 s - s)))%nat by lia.
  rewrite !load_bytes_app. f_equal; [| f_equal].
  - rewrite <- (le_bytes_length 8 (logging_header T s)) at 1.
    apply (load_bytes_stored _ (data (shm st))). intros x Hx.
    rewrite le_bytes_length in Hx. unfold store64 at 1.
    rewrite store_bytes_outside by (rewrite le_bytes_length; unfold sizeof_slot; lia).
    apply Hd2. lia.
  - apply load_bytes_ext. intros x Hx. unfold store64 at 1.
    rewrite store_bytes_outside by (rewrite le_bytes_length; unfold sizeof_slot; lia).
    rewrite Hd2 by lia. subst d1. unfold store64. apply store_bytes_outside.
    rewrite le_bytes_length. lia.
  - rewrite <- (repeat_length 0 (Z.to_nat (pad8 s - s))) at 1.
    apply (load_bytes_stored _ d1). intros x Hx. rewrite repeat_length in Hx.
    unfold store64 at 1.
    rewrite store_bytes_outside by (rewrite le_bytes_length; unfold sizeof_slot; lia).
    replace (b + Z.of_nat 8 + Z.of_nat (Z.to_nat s)) with (b + 8 + s) in * by lia.
    subst d2. destruct (Z.eqb_spec (pad8 s) s) as [E | _]; [lia |]. reflexivity.
Qed.

(** C5 as stated fails: a frame stamped at microsecond 1700000000000007
    carries a header whose upper 48 bits, times 16, give
    1700000000000000. *)
Lemma header_time_is_truncated :
  header_size (logging_header 1700000000000007 2) = 2 /\
  header_time (logging_header 1700000000000007 2) * 16 = 1700000000000000 /\
  header_time (logging_header 1700000000000007 2) * 16 <> 1700000000000007.
Proof. vm_compute. repeat split; discriminate. Qed.

(** C5 (amended): the header of every committed frame, of payload size [s]
    and stamped at microsecond [T] (before the year 2112), has [s] in its
    low 16 bits and [T] rounded down to a multiple of 16 microseconds in
    its upper 48 bits, in units of 16 microseconds. *)
Theorem committed_header_fields (T s b : Z) (st st' : pipeline) :
  0 < s <= 65527 ->
  0 <= T < 2 ^ 52 ->
  b = shared_memory_ringbuffer_acquire (shm st) ->
  publish_frame T s b st = (LoopContinue, st') ->
  let header := load64 (data (shm st')) b in
  header = logging_header T s /\
  header_size header = s /\
  header_time header * 16 = T - T mod 16 /\
  T - 16 < header_time header * 16 <= T.
Proof.
  intros Hs HT Hb Hpub header.
  assert (Hh : header = logging_header T s).
  { subst header. unfold load64.
    destruct (publish_frame_slot T s b st st' ltac:(lia) Hb Hpub) as [_ Hload].
    apply (f_equal (firstn 8)) in Hload.
    rewrite firstn_app, le_bytes_length, Nat.sub_diag, firstn_O, app_nil_r in Hload.
    rewrite (firstn_all2 (le_bytes 8 _)) in Hload by (rewrite le_bytes_length; lia).
    replace (Z.to_nat (8 + pad8 s)) with (8 + Z.to_nat (pad8 s))%nat in Hload
      by (pose proof (pad8_bounds s ltac:(lia)); lia).
    rewrite load_bytes_app, firstn_app, load_bytes_length, Nat.sub_diag, firstn_O,
      app_nil_r, firstn_all2 in Hload by (rewrite load_bytes_length; lia).
    rewrite Hload, le_value_bytes. rewrite logging_header_value by lia.
    apply Z.mod_small. change (2 ^ (8 * Z.of_nat 8)) with (2 ^ 64).
    assert (0 <= T / 16 < 2 ^ 48)
      by (split; [apply Z.div_pos | apply Z.div_lt_upper_bound]; lia).
    lia. }
  rewrite Hh. destruct (header_fields T s ltac:(lia) HT) as [H1 H2].
  repeat split; try assumption; rewrite H2;
    pose proof (Z.mod_pos_bound T 16 ltac:(lia)); lia.
Qed.

Lemma program_ring_fresh : program_ring = Some fresh_program_ring.
Proof. reflexivity. Qed.

(** A frame stamped in 2023 on the fresh ring: the header leaves the slot
    as the theorem says. *)
Lemma committed_header_fields_witness :
  let T := 1700000000000007 in
  let st := main_start fresh_program_ring [] in
  let st' := snd (publish_frame T 2 16 st) in
  let header := load64 (data (shm st')) 16 in
  header = logging_header T 2 /\
  header_size header = 2 /\
  header_time header * 16 = T - T mod 16 /\
  T - 16 < header_time header * 16 <= T.
Proof.
  apply (committed_header_fields 1700000000000007 2 16
           (main_start fresh_program_ring [])
           (snd (publish_frame 1700000000000007 2 16 (main_start fresh_program_ring [])))).
  - lia.
  - lia.
  - reflexivity.
  - reflexivity.
Defined.

(** ** The ingest loop: log rotation *)

(** The test of line 337, on the rounded frame time and the unrounded start
    time, compares the two 10-second buckets. *)
Lemma rotate_test (T start : Z) :
  T - T mod 10000000 > start <-> bucket T > bucket start.
Proof.
  unfold bucket.
  pose proof (Z.div_mod T 10000000 ltac:(lia)).
  pose proof (Z.mod_pos_bound T 10000000 ltac:(lia)).
  pose proof (Z.div_mod start 10000000 ltac:(lia)).
  pose proof (Z.mod_pos_bound start 10000000 ltac:(lia)).
  lia.
Qed.

(** C7 as stated fails: a file opened by a frame at 25 s stays open, and
    nothing is printed, when the clock has stepped back and the next frame
    is stamped 5 s, in another bucket. *)
Lemma earlier_bucket_keeps_file_open :
  let st := open_log true 25000000 (main_start fresh_program_ring []) in
  let st' := rotate_log 5000000 st in
  fh st = Some [] /\
  bucket 5000000 <> bucket (time_microseconds_file_start st) /\
  fh st' = Some [] /\ stdout st' = [].
Proof. vm_compute. repeat split; discriminate. Qed.

(** ** Alignment *)

Lemma pad16_mod (x : Z) : pad16 x mod 16 = 0.
Proof. rewrite pad16_spec, Z.mul_comm. apply Z.mod_mul. lia. Qed.

Lemma pad8_mod (x : Z) : pad8 x mod 8 = 0.
Proof. rewrite pad8_spec, Z.mul_comm. apply Z.mod_mul. lia. Qed.

Lemma pad8_nonneg (x : Z) : 0 <= pad8 x.
Proof.
  rewrite pad8_spec. pose proof (wrap64_range (x + 7)).
  assert (0 <= wrap64 (x + 7) / 8) by (apply Z.div_pos; lia). lia.
Qed.

(** A ring that [writer_init] hands out starts at cursor 0 and wraps at a
    non-zero multiple of 16. *)
Lemma writer_init_ok (os : writer_os) (size pmax : Z) (ring : shared_memory_ringbuffer) :
  shared_memory_ringbuffer_writer_init os size pmax = WriterOk ring ->
  cursor_wrap ring = size /\ size <> 0 /\ size mod 16 = 0 /\
  max_slot_size ring mod 16 = 0 /\ writer_cursor ring = 0.
Proof.
  unfold shared_memory_ringbuffer_writer_init.
  destruct (Z.eqb_spec size 0) as [| Hnz]; [discriminate |].
  destruct (Z.land size _ =? 0); [| discriminate]. cbn [negb andb].
  destruct (Z.eqb_spec (pmax mod 16) 0) as [Hp |]; [| discriminate].
  destruct (Z.eqb_spec
              (wrap64 (wrap64 (offsetof_data + size) + wrap64 (pmax + sizeof_slot)) mod 16) 0)
    as [Ht |]; [| discriminate].
  cbn [negb].
  destruct (shm_open_creates os); [| discriminate].
  destruct (ftruncate_ok os); [| discriminate].
  destruct (writer_mmap_ok os); [| discriminate].
  cbn [negb]. intros H. injection H as <-.
  cbn [cursor_wrap max_slot_size writer_cursor].
  rewrite wrap64_mod16, Z.add_mod, !wrap64_mod16, <- Z.add_mod in Ht by lia.
  unfold offsetof_data, sizeof_slot in *.
  assert (Hm : wrap64 (pmax + 16) mod 16 = 0).
  { rewrite wrap64_mod16, <- Z.add_mod_idemp_l, Hp by lia. reflexivity. }
  repeat split; try assumption.
  replace (32 + size + (pmax + 16)) with (size + pmax + 3 * 16) in Ht by lia.
  rewrite Z.mod_add, <- Z.add_mod_idemp_r, Hp, Z.add_0_r in Ht by lia.
  exact Ht.
Qed.

Lemma send_cursor (s s' : shared_memory_ringbuffer) (size : Z) :
  shared_memory_ringbuffer_send s size = Some s' ->
  cursor_wrap s' = cursor_wrap s /\ writer_cursor s' mod 16 = writer_cursor s mod 16.
Proof.
  unfold shared_memory_ringbuffer_send.
  destruct (_ <=? _); [| discriminate]. intros H. injection H as <-. cbn.
  split; [reflexivity |].
  rewrite wrap64_mod16, <- Z.add_mod_idemp_r, pad16_mod, Z.add_0_r by lia.
  reflexivity.
Qed.

Lemma send_all_cursor (sizes : list Z) :
  forall s s',
    send_all s sizes = Some s' ->
    cursor_wrap s' = cursor_wrap s /\ writer_cursor s' mod 16 = writer_cursor s mod 16.
Proof.
  induction sizes as [| size sizes IH]; intros s s' H; simpl in H.
  - injection H as <-. split; reflexivity.
  - destruct (shared_memory_ringbuffer_send s size) as [s1 |] eqn:E; [| discriminate H].
    apply send_cursor in E. apply IH in H. destruct E, H. split; congruence.
Qed.

Lemma rotate_log_aligned (T : Z) (st : pipeline) :
  log_aligned st -> log_aligned (rotate_log T st).
Proof.
  unfold log_aligned, rotate_log. destruct (fh st) eqn:E.
  - destruct (_ >? _); cbn; [trivial | now rewrite E].
  - now rewrite E.
Qed.

Lemma open_log_aligned (logging_path : bool) (T : Z) (st : pipeline) :
  log_aligned st -> log_aligned (open_log logging_path T st).
Proof.
  unfold log_aligned, open_log. destruct (fh st) eqn:E.
  - now rewrite E.
  - destruct logging_path; cbn; [reflexivity | now rewrite E].
Qed.

Lemma publish_frame_aligned (T s b : Z) (st : pipeline) :
  log_aligned st -> log_aligned (snd (publish_frame T s b st)).
Proof.
  unfold log_aligned, publish_frame.
  destruct (shared_memory_ringbuffer_send _ _); cbn [snd fh]; [| trivial].
  destruct (fh st) as [written |]; [| trivial]. intros H.
  rewrite length_app, load_bytes_length, Nat2Z.inj_add, Z2Nat.id
    by (pose proof (pad8_nonneg s); lia).
  rewrite Z.add_assoc, <- Z.add_mod_idemp_r, pad8_mod, Z.add_0_r by lia.
  rewrite <- Z.add_mod_idemp_l, H by lia. reflexivity.
Qed.

Lemma main_loop_body_aligned (logging_path : bool) (t : turn) (st : pipeline) :
  log_aligned st -> log_aligned (snd (main_loop_body logging_path t st)).
Proof.
  intros H. unfold main_loop_body.
  destruct (read_escaped_frame _ _ _ _) as [r |]; [| exact H].
  destruct (sig_after_read t); [exact H |].
  destruct (frame_ret r =? -1); [exact H |].
  destruct (frame_ret r =? 0); [exact H |].
  destruct (sig_after_clock t); [exact H |].
  apply publish_frame_aligned, open_log_aligned, rotate_log_aligned. exact H.
Qed.

Lemma main_loop_body_buf (logging_path : bool) (t : turn) (st : pipeline) :
  buf_acquired st -> buf_acquired (snd (main_loop_body logging_path t st)).
Proof.
  intros H. unfold main_loop_body.
  set (b := match buf st with
            | Some b => b
            | None => shared_memory_ringbuffer_acquire (shm st)
            end).
  assert (Hb : b = shared_memory_ringbuffer_acquire (shm st)).
  { subst b. unfold buf_acquired in H. destruct (buf st); [exact H | reflexivity]. }
  destruct (read_escaped_frame _ _ _ _) as [r |]; [| exact H].
  destruct (sig_after_read t); [exact Hb |].
  destruct (frame_ret r =? -1); [exact Hb |].
  destruct (frame_ret r =? 0); [exact Hb |].
  destruct (sig_after_clock t); [exact Hb |].
  unfold publish_frame.
  destruct (shared_memory_ringbuffer_send _ _); cbn [snd]; [exact I |].
  unfold buf_acquired, open_log, rotate_log. cbn [fh buf shm].
  destruct (fh st); [destruct (_ >? _) |]; cbn [fh]; destruct logging_path;
    exact Hb.
Qed.

Lemma main_loop_invariant (logging_path : bool) (turns : list turn) :
  forall st,
    log_aligned st /\ buf_acquired st ->
    log_aligned (main_loop logging_path turns st) /\
    buf_acquired (main_loop logging_path turns st).
Proof.
  induction turns as [| t turns IH]; intros st [Hlog Hbuf]; simpl; [now split |].
  pose proof (main_loop_body_aligned logging_path t st Hlog) as Hlog'.
  pose proof (main_loop_body_buf logging_path t st Hbuf) as Hbuf'.
  destruct (main_loop_body logging_path t st) as [[| |] st']; cbn [snd] in *;
    [apply IH | |]; now split.
Qed.

(** C9: from the writer cursor 0 of a new ring, after any sequence of
    [send] calls whose asserts hold, the writer cursor is a multiple of 16
    and so is the address of the slot prefix it designates; in the log
    file every record is the 8-byte header, the packet and zeros up to
    [round_up_8] of its size, so that the write position after every
    record is a multiple of 8. *)
Theorem alignment_invariants :
  (forall os size pmax ring sizes ring',
      shared_memory_ringbuffer_writer_init os size pmax = WriterOk ring ->
      send_all ring sizes = Some ring' ->
      writer_cursor ring' mod 16 = 0 /\
      slot_offset ring' (writer_cursor ring') mod 16 = 0 /\
      shared_memory_ringbuffer_acquire ring' mod 16 = 0 /\
      forall mapping, mapping mod 16 = 0 ->
        (mapping + offsetof_data + slot_offset ring' (writer_cursor ring')) mod 16 = 0) /\
  (forall logging_path ring fd turns,
      let st := main_loop logging_path turns (main_start ring fd) in
      log_aligned st /\ buf_acquired st) /\
  (forall T s b st st' written,
      0 <= s < 2 ^ 63 ->
      b = shared_memory_ringbuffer_acquire (shm st) ->
      fh st = Some written ->
      publish_frame T s b st = (LoopContinue, st') ->
      let packet := load_bytes (data (shm st)) (b + 8) (Z.to_nat s) in
      fh st' = Some (written ++ log_record (logging_header T s) packet) /\
      Z.of_nat (length (log_record (logging_header T s) packet)) = 8 + round_up 8 s).
Proof.
  repeat apply conj.
  - intros os size pmax ring sizes ring' Hinit Hsend.
    destruct (writer_init_ok _ _ _ _ Hinit) as (Hw & Hnz & Hw16 & _ & Hc).
    destruct (send_all_cursor _ _ _ Hsend) as [Hw' Hc'].
    rewrite Hc in Hc'. cbn in Hc'.
    assert (Hslot : slot_offset ring' (writer_cursor ring') mod 16 = 0).
    { unfold slot_offset. rewrite Z.mod_mod_divide; [exact Hc' |].
      rewrite Hw', Hw. apply Z.mod_divide; [lia | exact Hw16]. }
    repeat split; try assumption.
    + unfold shared_memory_ringbuffer_acquire, sizeof_slot.
      rewrite <- Z.add_mod_idemp_l, Hslot by lia. reflexivity.
    + intros mapping Hmap. unfold offsetof_data.
      rewrite <- Z.add_mod_idemp_r, Hslot, Z.add_0_r by lia.
      rewrite <- Z.add_mod_idemp_l, Hmap by lia. reflexivity.
  - intros logging_path ring fd turns. apply main_loop_invariant. split; exact I.
  - intros T s b st st' written Hs Hb Hfh Hpub. cbn zeta.
    destruct (publish_frame_slot T s b st st' Hs Hb Hpub) as [_ Hload].
    destruct (pad8_bounds s Hs) as [Hpad _].
    assert (Hrec : log_record (logging_header T s)
                     (load_bytes (data (shm st)) (b + 8) (Z.to_nat s))
                   = load_bytes (data (shm st')) b (Z.to_nat (8 + pad8 s))).
    { rewrite Hload. unfold log_record. rewrite load_bytes_length.
      do 3 f_equal. rewrite Z2Nat.id, <- pad8_small by lia. lia. }
    split.
    + unfold publish_frame in Hpub.
      destruct (shared_memory_ringbuffer_send _ _) as [shm' |] eqn:E;
        [| discriminate Hpub].
      rewrite Hrec. injection Hpub as <-. cbn [fh shm]. now rewrite Hfh.
    + rewrite Hrec, load_bytes_length, <- pad8_small by lia. lia.
Qed.

(** A ring of 128 bytes after four commits. *)
Lemma alignment_invariants_witness :
  match ring_after 128 16 [16; 0; 16; 7] with
  | Some ring => writer_cursor ring mod 16 = 0
  | None => False
  end.
Proof.
  unfold ring_after.
  destruct (shared_memory_ringbuffer_writer_init all_calls_succeed 128 16)
    as [| | ring] eqn:Einit.
  1, 2: vm_compute in Einit; discriminate Einit.
  destruct (send_all ring [16; 0; 16; 7]) as [ring' |] eqn:E.
  - exact (proj1 (proj1 alignment_invariants _ _ _ _ _ _ Einit E)).
  - vm_compute in Einit. injection Einit as <-. vm_compute in E. discriminate E.
Defined.

(** ** Replay from standard input *)

(** What [replay_loop_body] writes: the packet and its padding from
    [buf + 8] on, and the size prefix of the slot.  The eight bytes at
    [buf], where the serial ingest stores the header, are not written. *)
Lemma replay_leaves_header_bytes (st st' : replay) :
  replay_buf st = None ->
  replay_loop_body st = (LoopContinue, st') ->
  let b := shared_memory_ringbuffer_acquire (replay_shm st) in
  load_bytes (data (replay_shm st')) b 8 = load_bytes (data (replay_shm st)) b 8.
Proof.
  intros Hbuf Hbody b. unfold replay_loop_body in Hbody. rewrite Hbuf in Hbody.
  fold b in Hbody.
  destruct (read_logging_header (stdin st)) as [header input1].
  destruct (fread_item _ input1) as [[complete bytes] input2].
  destruct complete; cbn [negb] in Hbody; [| discriminate Hbody].
  set (d1 := store_bytes (data (replay_shm st)) (b + 8) bytes) in Hbody.
  set (d2 := if negb (pad8 (header_size header) =? header_size header)
             then memset d1 (b + 8 + header_size header) 0
                    (Z.to_nat (pad8 (header_size header) - header_size header))
             else d1) in Hbody.
  destruct (shared_memory_ringbuffer_send _ _) as [shm' |] eqn:Esend;
    [| discriminate Hbody].
  injection Hbody as <-. cbn [replay_shm].
  unfold shared_memory_ringbuffer_send in Esend.
  destruct (_ <=? _) in Esend; [| discriminate Esend].
  injection Esend as <-. cbn [data set_data writer_cursor].
  assert (Hsize : 0 <= header_size header).
  { unfold header_size. apply Z.land_nonneg. right. lia. }
  apply load_bytes_ext. intros x Hx. unfold store64.
  rewrite store_bytes_outside.
  2:{ rewrite le_bytes_length. right.
      subst b. unfold shared_memory_ringbuffer_acquire, slot_offset in *.
      cbn [cursor_wrap set_data] in *. unfold sizeof_slot in *. lia. }
  transitivity (d1 x).
  - subst d2. destruct (negb _); [| reflexivity].
    apply store_bytes_outside. lia.
  - apply store_bytes_outside. lia.
Qed.

(** C4 (the code departs from it): the frame AB, ingested from the serial
    line at microsecond 1700000000000007 with logging on, is committed as
    a slot of size 10 holding its header and payload, and is logged as one
    record.  Replaying that log file through [bin_to_shm] on a fresh ring
    commits a slot of size 10 whose first eight bytes are the zeros the
    segment was created with, not the header. *)
Theorem replay_does_not_store_header :
  let T := 1700000000000007 in
  let t := {| sig_after_read := false; current_time_in_unix_microseconds := T;
              sig_after_clock := false |} in
  let serial := main_loop_body true t (main_start fresh_program_ring (cobs_encode [65; 66])) in
  let file := match fh (snd serial) with Some written => written | None => [] end in
  let replayed := replay_loop_body
                    {| replay_shm := fresh_program_ring; replay_buf := None; stdin := file |} in
  fst serial = LoopContinue /\
  file = log_record (logging_header T 2) [65; 66] /\
  slot_contents (shm (snd serial)) 0 = (10, le_bytes 8 (logging_header T 2) ++ [65; 66]) /\
  fst replayed = LoopContinue /\
  slot_contents (replay_shm (snd replayed)) 0 = (10, repeat 0 8 ++ [65; 66]) /\
  le_bytes 8 (logging_header T 2) <> repeat 0 8.
Proof. vm_compute. repeat split; discriminate. Qed.

(** * Further properties of the code *)

(** ** The ring: creation, bounds and delivery *)

(** The test [x && !(x & (x - 1))] singles out the powers of two. *)
Lemma power_of_two_test (x : Z) :
  0 < x ->
  (Z.land x (x - 1) = 0 <-> exists k, 0 <= k /\ x = 2 ^ k).
Proof.
  intros Hx. split.
  - intros Hland. exists (Z.log2 x).
    pose proof (Z.log2_nonneg x) as Hk. split; [exact Hk |].
    destruct (Z.log2_spec x Hx) as [Hlo Hhi].
    destruct (Z.eq_dec x (2 ^ Z.log2 x)) as [| Hne]; [assumption | exfalso].
    assert (Hbit : Z.testbit (Z.land x (x - 1)) (Z.log2 x) = true).
    { rewrite Z.land_spec, Z.bit_log2 by lia.
      assert (Hlog : Z.log2 (x - 1) = Z.log2 x)
        by (apply Z.log2_unique; [lia | split; lia]).
      rewrite <- Hlog. rewrite Z.bit_log2 by lia. reflexivity. }
    rewrite Hland, Z.bits_0 in Hbit. discriminate Hbit.
  - intros (k & Hk & ->).
    replace (2 ^ k - 1) with (Z.ones k) by (rewrite Z.ones_equiv; lia).
    apply Z.bits_inj'. intros n Hn. rewrite Z.land_spec, Z.bits_0.
    destruct (Z.eq_dec n k) as [-> | Hnk].
    + rewrite Z.ones_spec_high by lia. apply andb_false_r.
    + rewrite Z.pow2_bits_false by lia. reflexivity.
Qed.

Lemma power_of_two_mod16 (k : Z) : 0 <= k -> (2 ^ k mod 16 = 0 <-> 4 <= k).
Proof.
  intros Hk. split.
  - intros Hm. destruct (Z.lt_ge_cases k 4) as [Hlt | ]; [| assumption].
    assert (Hc : k = 0 \/ k = 1 \/ k = 2 \/ k = 3) by lia.
    destruct Hc as [-> | [-> | [-> | ->]]]; discriminate Hm.
  - intros Hge. replace k with (k - 4 + 4) by lia.
    rewrite Z.pow_add_r by lia. change (2 ^ 4) with 16. apply Z.mod_mul. lia.
Qed.

(** X1: [writer_init] aborts on an assert exactly when the capacity is not
    a power of two of at least 16 or the largest packet size is not a
    multiple of 16; with valid arguments it returns MAP_FAILED when one of
    its system calls fails, and otherwise a ring with that capacity, slots
    of at most the packet size plus the prefix, the writer cursor at 0,
    zeroed data and the caller's pid. *)
Theorem writer_init_outcomes (os : writer_os) (size pmax : Z) :
  0 <= size < 2 ^ 64 ->
  0 <= pmax < 2 ^ 64 ->
  let valid := (exists k, 4 <= k < 64 /\ size = 2 ^ k) /\ pmax mod 16 = 0 in
  let calls := shm_open_creates os && ftruncate_ok os && writer_mmap_ok os in
  let r := shared_memory_ringbuffer_writer_init os size pmax in
  (r = WriterAbort <-> ~ valid) /\
  (r = WriterMAP_FAILED <-> valid /\ calls = false) /\
  (valid -> calls = true ->
   r = WriterOk {| cursor_wrap := size; max_slot_size := wrap64 (pmax + sizeof_slot);
                   writer_cursor := 0; writer_pid := getpid os;
                   data := fun _ => 0 |}).
Proof.
  intros Hsize Hpmax valid calls r.
  assert (Hvalid : valid <->
            (negb (size =? 0) && (Z.land size (wrap64 (size - 1)) =? 0) = true /\
             pmax mod 16 = 0 /\
             wrap64 (wrap64 (offsetof_data + size) + wrap64 (pmax + sizeof_slot)) mod 16 = 0)).
  { subst valid. split.
    - intros [(k & Hk & ->) Hp].
      assert (0 < 2 ^ k) by (apply Z.pow_pos_nonneg; lia).
      assert (Hpow : Z.land (2 ^ k) (2 ^ k - 1) = 0)
        by (apply power_of_two_test; [lia | exists k; split; [lia | reflexivity]]).
      rewrite wrap64_small by lia. rewrite Hpow.
      destruct (Z.eqb_spec (2 ^ k) 0); [lia |]. repeat split; try assumption.
      rewrite wrap64_mod16, Z.add_mod, !wrap64_mod16, <- Z.add_mod by lia.
      unfold offsetof_data, sizeof_slot.
      replace (32 + 2 ^ k + (pmax + 16)) with (2 ^ k + pmax + 3 * 16) by lia.
      rewrite Z.mod_add, Z.add_mod, Hp by lia.
      rewrite (proj2 (power_of_two_mod16 k ltac:(lia))) by lia. reflexivity.
    - intros (Hpow & Hp & Ht).
      apply andb_true_iff in Hpow. destruct Hpow as [Hnz Hland].
      destruct (Z.eqb_spec size 0) as [| Hnz']; [discriminate Hnz |].
      apply Z.eqb_eq in Hland. rewrite wrap64_small in Hland by lia.
      apply power_of_two_test in Hland; [| lia].
      destruct Hland as (k & Hk & ->). split; [| exact Hp].
      rewrite wrap64_mod16, Z.add_mod, !wrap64_mod16, <- Z.add_mod in Ht by lia.
      unfold offsetof_data, sizeof_slot in Ht.
      replace (32 + 2 ^ k + (pmax + 16)) with (2 ^ k + pmax + 3 * 16) in Ht by lia.
      rewrite Z.mod_add, Z.add_mod, Hp, Z.add_0_r, Z.mod_mod in Ht by lia.
      apply power_of_two_mod16 in Ht; [| exact Hk].
      exists k. split; [| reflexivity]. split; [exact Ht |].
      destruct (Z.lt_ge_cases k 64) as [| Hge]; [assumption |].
      assert (2 ^ 64 <= 2 ^ k) by (apply Z.pow_le_mono_r; lia). lia. }
  set (e := negb (size =? 0) && (Z.land size (wrap64 (size - 1)) =? 0)
            && (pmax mod 16 =? 0)
            && (wrap64 (wrap64 (offsetof_data + size) + wrap64 (pmax + sizeof_slot)) mod 16
                =? 0)).
  assert (He : valid <-> e = true).
  { rewrite Hvalid. subst e. rewrite !andb_true_iff, !Z.eqb_eq. tauto. }
  assert (Hr : r = if e
                   then if calls
                        then WriterOk {| cursor_wrap := size;
                                         max_slot_size := wrap64 (pmax + sizeof_slot);
                                         writer_cursor := 0; writer_pid := getpid os;
                                         data := fun _ => 0 |}
                        else WriterMAP_FAILED
                   else WriterAbort).
  { subst r e calls. unfold shared_memory_ringbuffer_writer_init.
    destruct (negb (size =? 0) && (Z.land size (wrap64 (size - 1)) =? 0));
      [| reflexivity].
    destruct (pmax mod 16 =? 0); [| reflexivity].
    destruct (_ mod 16 =? 0); [| reflexivity].
    destruct (shm_open_creates os), (ftruncate_ok os), (writer_mmap_ok os);
      reflexivity. }
  rewrite Hr. clear Hr Hvalid.
  destruct e.
  - assert (Hv : valid) by (apply He; reflexivity).
    destruct calls; intuition (try discriminate; try congruence).
  - assert (Hnv : ~ valid) by (intros H; apply He in H; discriminate H).
    destruct calls; intuition (try discriminate; try congruence).
Qed.

(** The capacity 64 with packets of at most 48 bytes is accepted; 40 is
    refused. *)
Lemma writer_init_outcomes_witness :
  shared_memory_ringbuffer_writer_init all_calls_succeed 64 48
  = WriterOk {| cursor_wrap := 64; max_slot_size := wrap64 (48 + sizeof_slot);
                writer_cursor := 0; writer_pid := getpid all_calls_succeed;
                data := fun _ => 0 |}.
Proof.
  apply (proj2 (proj2 (writer_init_outcomes all_calls_succeed 64 48
                         ltac:(lia) ltac:(lia)))).
  - split; [exists 6; split; [lia | reflexivity] | reflexivity].
  - reflexivity.
Defined.

Lemma send_inversion (s s' : shared_memory_ringbuffer) (size : Z) :
  shared_memory_ringbuffer_send s size = Some s' ->
  pad16 (sizeof_slot + wrap64 size) <= max_slot_size s /\
  cursor_wrap s' = cursor_wrap s /\
  max_slot_size s' = max_slot_size s /\
  writer_pid s' = writer_pid s /\
  writer_cursor s' = wrap64 (writer_cursor s + pad16 (sizeof_slot + wrap64 size)) /\
  data s' = store64 (data s) (slot_offset s (writer_cursor s)) size.
Proof.
  unfold shared_memory_ringbuffer_send. rewrite load_store64.
  destruct (Z.leb_spec (pad16 (sizeof_slot + wrap64 size)) (max_slot_size s))
    as [Hle | _]; [| discriminate].
  intros Hsome. injection Hsome as <-. cbn. repeat split. assumption.
Qed.

Lemma slot_span_bounds (size : Z) :
  0 <= size < 2 ^ 63 ->
  pad16 (sizeof_slot + wrap64 size) = slot_span size /\
  sizeof_slot + size <= slot_span size < sizeof_slot + size + 16 /\
  slot_span size mod 16 = 0.
Proof.
  intros Hsize. unfold slot_span, sizeof_slot.
  pose proof (round_up_bounds 16 (16 + size) ltac:(lia)) as Hb.
  rewrite wrap64_small, pad16_round_up, wrap64_small by lia.
  repeat split; try lia. apply round_up_mod. lia.
Qed.

(** X2: on a ring that [writer_init] returned, after any [send] calls, the
    slot at the writer cursor starts at a multiple of 16 below
    [cursor_wrap], so that a slot of the largest size ends inside the
    [cursor_wrap + max_slot_size] bytes of [data]; a further [send] commits
    at most [max_slot_size] bytes and changes nothing but the 8 bytes of
    the size prefix. *)
Theorem slot_inside_data
    (os : writer_os) (capacity pmax : Z) (ring ring' ring'' : shared_memory_ringbuffer)
    (sizes : list Z) (size : Z) :
  0 <= capacity ->
  shared_memory_ringbuffer_writer_init os capacity pmax = WriterOk ring ->
  send_all ring sizes = Some ring' ->
  shared_memory_ringbuffer_send ring' size = Some ring'' ->
  let slot := slot_offset ring' (writer_cursor ring') in
  0 <= slot /\ slot + 16 <= cursor_wrap ring' /\
  shared_memory_ringbuffer_acquire ring' = slot + sizeof_slot /\
  slot + max_slot_size ring' <= cursor_wrap ring' + max_slot_size ring' /\
  slot + pad16 (sizeof_slot + wrap64 size) <= cursor_wrap ring' + max_slot_size ring' /\
  forall x, x < slot \/ slot + 8 <= x -> data ring'' x = data ring' x.
Proof.
  intros Hcap Hinit Hsends Hsend slot.
  destruct (writer_init_ok _ _ _ _ Hinit) as (Hw & Hnz & Hw16 & _ & Hc).
  destruct (send_all_cursor _ _ _ Hsends) as [Hw' Hc'].
  rewrite Hc in Hc'. cbn in Hc'.
  destruct (send_inversion _ _ _ Hsend) as (Hspan & _ & _ & _ & _ & Hdata).
  assert (Hpos : 0 < cursor_wrap ring') by (rewrite Hw', Hw; lia).
  assert (Hslot : 0 <= slot < cursor_wrap ring')
    by (apply Z.mod_pos_bound; exact Hpos).
  assert (Hslot16 : slot mod 16 = 0).
  { subst slot. unfold slot_offset. rewrite Z.mod_mod_divide; [exact Hc' |].
    rewrite Hw', Hw. apply Z.mod_divide; [lia | exact Hw16]. }
  assert (Hwrap16 : cursor_wrap ring' mod 16 = 0) by (rewrite Hw', Hw; exact Hw16).
  assert (Hend : slot + 16 <= cursor_wrap ring').
  { pose proof (Z.div_mod slot 16 ltac:(lia)).
    pose proof (Z.div_mod (cursor_wrap ring') 16 ltac:(lia)). lia. }
  repeat split; try lia.
  intros x Hx. rewrite Hdata. unfold store64. apply store_bytes_outside.
  rewrite le_bytes_length. fold slot. lia.
Qed.

(** On the ring of 128 bytes, after two slots the third is at offset 48. *)
Lemma slot_inside_data_witness :
  match ring_after 128 16 [16; 0], ring_after 128 16 [16; 0; 7] with
  | Some ring', Some ring'' =>
      let slot := slot_offset ring' (writer_cursor ring') in
      0 <= slot /\ slot + 16 <= cursor_wrap ring' /\
      shared_memory_ringbuffer_acquire ring' = slot + sizeof_slot /\
      slot + max_slot_size ring' <= cursor_wrap ring' + max_slot_size ring' /\
      slot + pad16 (sizeof_slot + wrap64 7) <= cursor_wrap ring' + max_slot_size ring' /\
      forall x, x < slot \/ slot + 8 <= x -> data ring'' x = data ring' x
  | _, _ => False
  end.
Proof.
  unfold ring_after.
  destruct (shared_memory_ringbuffer_writer_init all_calls_succeed 128 16)
    as [| | ring] eqn:Einit.
  1, 2: vm_compute in Einit; discriminate Einit.
  assert (Hring : ring = {| cursor_wrap := 128; max_slot_size := 32; writer_cursor := 0;
                            writer_pid := 4242; data := fun _ => 0 |})
    by (vm_compute in Einit; injection Einit as <-; reflexivity).
  destruct (send_all ring [16; 0]) as [ring' |] eqn:E1.
  2:{ rewrite Hring in E1. vm_compute in E1. discriminate E1. }
  assert (E2 : send_all ring [16; 0; 7] = shared_memory_ringbuffer_send ring' 7).
  { cbn [send_all] in *.
    destruct (shared_memory_ringbuffer_send ring 16) as [r1 |]; [| discriminate E1].
    destruct (shared_memory_ringbuffer_send r1 0) as [r2 |]; [| discriminate E1].
    injection E1 as ->. destruct (shared_memory_ringbuffer_send ring' 7); reflexivity. }
  rewrite E2.
  destruct (shared_memory_ringbuffer_send ring' 7) as [ring'' |] eqn:E3.
  - exact (slot_inside_data all_calls_succeed 128 16 ring ring' ring'' [16; 0] 7
             ltac:(lia) Einit E1 E3).
  - rewrite Hring in E1. vm_compute in E1. injection E1 as <-.
    vm_compute in E3. discriminate E3.
Defined.

Lemma total_span_nonneg (sizes : list Z) :
  Forall (fun size => 0 <= size < 2 ^ 63) sizes -> 0 <= total_span sizes.
Proof.
  induction 1 as [| size sizes Hsize _ IH]; simpl; [lia |].
  destruct (slot_span_bounds size Hsize) as (_ & Hb & _). unfold sizeof_slot in Hb. lia.
Qed.

(** Two cursors less than a lap apart designate slots 16 bytes apart or
    more. *)
Lemma slots_apart (wrap c k x : Z) :
  0 < wrap -> wrap mod 16 = 0 -> c mod 16 = 0 -> k mod 16 = 0 ->
  0 < k - c < wrap ->
  c mod wrap <= x < c mod wrap + 8 ->
  ~ (k mod wrap <= x < k mod wrap + 8).
Proof.
  intros Hw Hw16 Hc Hk Hd Hx Hx'.
  assert (Hdiv : (16 | wrap)) by (apply Z.mod_divide; [lia | exact Hw16]).
  assert (Hc' : (c mod wrap) mod 16 = 0) by (rewrite Z.mod_mod_divide; assumption).
  assert (Hk' : (k mod wrap) mod 16 = 0) by (rewrite Z.mod_mod_divide; assumption).
  assert (Hne : k mod wrap <> c mod wrap).
  { intros E.
    assert (Hz : (k - c) mod wrap = 0)
      by (rewrite Zminus_mod, E, Z.sub_diag; apply Z.mod_0_l; lia).
    rewrite Z.mod_small in Hz by lia. lia. }
  pose proof (Z.div_mod (c mod wrap) 16 ltac:(lia)).
  pose proof (Z.div_mod (k mod wrap) 16 ltac:(lia)). lia.
Qed.

(** What a sequence of [send] calls leaves: the cursor moved by the spans,
    and memory changed at the size prefixes of the slots only. *)
Lemma send_all_frame (sizes : list Z) :
  forall s s',
    Forall (fun size => 0 <= size < 2 ^ 63) sizes ->
    0 <= writer_cursor s -> writer_cursor s mod 16 = 0 ->
    writer_cursor s + total_span sizes < 2 ^ 64 ->
    send_all s sizes = Some s' ->
    cursor_wrap s' = cursor_wrap s /\
    max_slot_size s' = max_slot_size s /\
    writer_cursor s' = writer_cursor s + total_span sizes /\
    forall x,
      (forall k, writer_cursor s <= k < writer_cursor s + total_span sizes ->
                 k mod 16 = 0 ->
                 ~ (k mod cursor_wrap s <= x < k mod cursor_wrap s + 8)) ->
      data s' x = data s x.
Proof.
  induction sizes as [| size sizes IH]; intros s s' Hsizes Hc Hc16 Hno Hsend;
    simpl in Hsend.
  - injection Hsend as <-. simpl. repeat split; lia.
  - inversion Hsizes as [| ? ? Hsize Hsizes']; subst.
    pose proof (total_span_nonneg sizes Hsizes') as Htot.
    destruct (slot_span_bounds size Hsize) as (Hpad & Hb & Hs16).
    unfold sizeof_slot in Hb. cbn [total_span] in *.
    destruct (shared_memory_ringbuffer_send s size) as [s1 |] eqn:E;
      [| discriminate Hsend].
    destruct (send_inversion _ _ _ E) as (_ & Hw1 & Hm1 & _ & Hc1 & Hd1).
    rewrite Hpad, wrap64_small in Hc1 by lia.
    destruct (IH s1 s' Hsizes') as (Hw' & Hm' & Hc' & Hd'); try assumption; try lia.
    { rewrite Hc1, <- Z.add_mod_idemp_r, Hs16, Z.add_0_r by lia. exact Hc16. }
    repeat split; try congruence; try lia.
    intros x Hx. rewrite Hd'.
    + rewrite Hd1. unfold store64. apply store_bytes_outside.
      rewrite le_bytes_length. unfold slot_offset.
      specialize (Hx (writer_cursor s) ltac:(lia) Hc16). lia.
    + intros k Hk Hk16. rewrite Hw1. apply Hx; [lia | exact Hk16].
Qed.

(** A reader at the cursor the writer had before a sequence of [send]
    calls is handed the slots in the order they were committed. *)
Lemma recv_all_deliveries (sizes : list Z) :
  forall s s',
    Forall (fun size => 0 <= size < 2 ^ 63) sizes ->
    0 < cursor_wrap s < 2 ^ 64 -> cursor_wrap s mod 16 = 0 ->
    16 <= max_slot_size s ->
    0 <= writer_cursor s -> writer_cursor s mod 16 = 0 ->
    writer_cursor s + total_span sizes < 2 ^ 64 ->
    total_span sizes + max_slot_size s - 16 <= cursor_wrap s ->
    send_all s sizes = Some s' ->
    forall final,
      cursor_wrap final = cursor_wrap s -> max_slot_size final = max_slot_size s ->
      writer_cursor final = writer_cursor s' ->
      (forall x, data final x = data s' x) ->
      recv_all final (length sizes) {| reader_cursor := writer_cursor s |}
      = (deliveries (cursor_wrap s) (writer_cursor s) sizes,
         {| reader_cursor := writer_cursor s' |}).
Proof.
  induction sizes as [| size sizes IH];
    intros s s' Hsizes Hw Hw16 Hmax Hc Hc16 Hno Hfit Hsend final Fw Fm Fc Fd.
  - simpl in Hsend. injection Hsend as <-. reflexivity.
  - inversion Hsizes as [| ? ? Hsize Hsizes']; subst.
    pose proof (total_span_nonneg sizes Hsizes') as Htot.
    destruct (slot_span_bounds size Hsize) as (Hpad & Hb & Hs16).
    unfold sizeof_slot in Hb. cbn [total_span] in *.
    simpl in Hsend.
    destruct (shared_memory_ringbuffer_send s size) as [s1 |] eqn:E;
      [| discriminate Hsend].
    destruct (send_inversion _ _ _ E) as (_ & Hw1 & Hm1 & _ & Hc1 & Hd1).
    rewrite Hpad, wrap64_small in Hc1 by lia.
    assert (Hc116 : writer_cursor s1 mod 16 = 0).
    { rewrite Hc1, <- Z.add_mod_idemp_r, Hs16, Z.add_0_r by lia. exact Hc16. }
    destruct (send_all_frame sizes s1 s' Hsizes') as (Hw' & Hm' & Hc' & Hd');
      try assumption; try lia.
    (* the size prefix of the first slot is still there at the end *)
    assert (Hsize' : load64 (data final) (slot_offset final (writer_cursor s)) = size).
    { unfold load64, slot_offset. rewrite Fw.
      rewrite (load_bytes_ext (data final) (data s1)).
      - rewrite Hd1. fold (load64 (store64 (data s) (slot_offset s (writer_cursor s)) size)
                             (writer_cursor s mod cursor_wrap s)).
        unfold slot_offset. rewrite load_store64. apply wrap64_small. lia.
      - intros x Hx. rewrite Fd. apply Hd'. intros k Hk Hk16. rewrite Hw1.
        apply (slots_apart (cursor_wrap s) (writer_cursor s)); try assumption;
          simpl in Hx; lia. }
    assert (Hrecv :
      shared_memory_ringbuffer_recv final (writer_cursor final) (writer_cursor final)
        {| reader_cursor := writer_cursor s |}
      = {| recv_ret := size;
           recv_ret_p := Some (Ptr (writer_cursor s mod cursor_wrap s + sizeof_slot));
           recv_reader := {| reader_cursor := writer_cursor s1 |} |}).
    { unfold shared_memory_ringbuffer_recv. cbn [reader_cursor].
      rewrite Fc, Hc', Fm, recv_overrun_test, Hsize'.
      destruct (Z.eqb_spec (writer_cursor s1 + total_span sizes) (writer_cursor s));
        [lia |].
      rewrite wrap64_small by (unfold sizeof_slot; lia).
      destruct (Z.gtb_spec
                  (writer_cursor s1 + total_span sizes + max_slot_size s
                   - writer_cursor s - sizeof_slot) (cursor_wrap final));
        [unfold sizeof_slot in *; lia |].
      replace (pad16 (sizeof_slot + size)) with (slot_span size)
        by (rewrite <- Hpad, wrap64_small by lia; reflexivity).
      rewrite (wrap64_small (writer_cursor s + slot_span size)) by lia.
      rewrite to_ssize_small by lia. unfold slot_offset. rewrite Fw, <- Hc1.
      reflexivity. }
    cbn [length recv_all]. rewrite Hrecv. cbn [recv_reader recv_ret recv_ret_p].
    rewrite (IH s1 s' Hsizes') by (try assumption; try lia; try congruence).
    cbn [deliveries]. rewrite Hw1, Hc1. reflexivity.
Qed.

(** X3: slots are delivered in the order of their commits.  A reader whose
    cursor is where the writer's was, on a ring whose writer has since
    committed slots of the given sizes and is idle, is handed by as many
    [recv] calls each size with the payload pointer of its slot, ends at
    the writer's cursor, and is then told the ring is empty, as long as
    the slots committed and one of the largest size fit in the ring
    ([total_span sizes + max_slot_size - 16 <= cursor_wrap]). *)
Theorem recv_in_commit_order
    (s s' : shared_memory_ringbuffer) (sizes : list Z) :
  Forall (fun size => 0 <= size < 2 ^ 63) sizes ->
  0 < cursor_wrap s < 2 ^ 64 -> cursor_wrap s mod 16 = 0 ->
  16 <= max_slot_size s ->
  0 <= writer_cursor s -> writer_cursor s mod 16 = 0 ->
  writer_cursor s + total_span sizes < 2 ^ 64 ->
  total_span sizes + max_slot_size s - 16 <= cursor_wrap s ->
  send_all s sizes = Some s' ->
  let '(delivered, reader) :=
    recv_all s' (length sizes) {| reader_cursor := writer_cursor s |} in
  delivered = deliveries (cursor_wrap s) (writer_cursor s) sizes /\
  reader = {| reader_cursor := writer_cursor s' |} /\
  recv_all s' 1 reader = ([(0, Some NULL)], reader).
Proof.
  intros Hsizes Hw Hw16 Hmax Hc Hc16 Hno Hfit Hsend.
  destruct (send_all_frame sizes s s' Hsizes Hc Hc16 Hno Hsend) as (Hw' & Hm' & _).
  rewrite (recv_all_deliveries sizes s s') by (try assumption; reflexivity).
  repeat split. cbn [recv_all]. unfold shared_memory_ringbuffer_recv.
  cbn [reader_cursor]. rewrite Z.eqb_refl. reflexivity.
Qed.

(** Three slots of 16, 0 and 7 bytes on the ring of 128 bytes. *)
Lemma recv_in_commit_order_witness :
  match ring_after 128 16 [16; 0; 7] with
  | Some s' =>
      recv_all s' 3 {| reader_cursor := 0 |}
      = ([(16, Some (Ptr 16)); (0, Some (Ptr 48)); (7, Some (Ptr 64))],
         {| reader_cursor := 80 |})
  | None => False
  end.
Proof.
  pose (s0 := {| cursor_wrap := 128; max_slot_size := 32; writer_cursor := 0;
                 writer_pid := 4242; data := fun _ : Z => 0 |}).
  change (ring_after 128 16 [16; 0; 7]) with (send_all s0 [16; 0; 7]).
  destruct (send_all s0 [16; 0; 7]) as [s' |] eqn:E;
    [| vm_compute in E; discriminate E].
  assert (Hc : writer_cursor s' = 80)
    by (vm_compute in E; injection E as <-; reflexivity).
  pose proof (recv_in_commit_order s0 s' [16; 0; 7]) as H.
  cbn [length writer_cursor cursor_wrap max_slot_size s0] in H.
  destruct (recv_all s' 3 {| reader_cursor := 0 |}) as [delivered reader].
  destruct H as (Hd & Hr & _).
  - repeat constructor; lia.
  - lia.
  - reflexivity.
  - lia.
  - lia.
  - reflexivity.
  - vm_compute. reflexivity.
  - vm_compute. discriminate.
  - exact E.
  - rewrite Hd, Hr, Hc. reflexivity.
Defined.

(** ** The ring: the writer's liveness as readers see it *)

(** X4: [reader_init] and [eof] judge the writer alike.  Both narrow the
    stored pid to [pid_t] and probe it with [kill].  On a segment that was
    opened and mapped, and for the same outcome of the probe,
    [reader_init] returns a reader exactly when [eof] would return 0 and
    NULL exactly when [eof] would return 1; where [eof] would return -1
    (the probe failed with an [errno] other than EPERM and ESRCH),
    [reader_init] is on the path that reads the segment after unmapping
    it; it returns MAP_FAILED in none of these cases. *)
Theorem reader_init_agrees_with_eof (os : reader_os) (seg : shared_memory_ringbuffer) :
  shm_open_r os = ShmOpened seg ->
  fstat_ok os = true ->
  reader_mmap_ok os = true ->
  let r := shared_memory_ringbuffer_reader_init os in
  let e := shared_memory_ringbuffer_eof seg (kill_r os) in
  (r = ReaderOk {| reader_cursor := writer_cursor seg |} <-> e = 0) /\
  (r = ReaderNULL <-> e = 1) /\
  (r = ReaderReadsUnmapped <-> e = -1) /\
  r <> ReaderMAP_FAILED.
Proof.
  intros Hopen Hfstat Hmmap r e. subst r e.
  unfold shared_memory_ringbuffer_reader_init, shared_memory_ringbuffer_eof.
  rewrite Hopen, Hfstat, Hmmap. cbn [negb].
  destruct (to_pid_t (writer_pid seg) =? 0); [| destruct (kill_r os)];
    repeat split; intros H; try reflexivity; discriminate H.
Qed.

(** A live writer that the reader may not signal counts as present. *)
Lemma reader_init_agrees_with_eof_witness :
  let seg := fresh_program_ring in
  let os := {| shm_open_r := ShmOpened seg; fstat_ok := true; reader_mmap_ok := true;
               kill_r := KillEPERM |} in
  shared_memory_ringbuffer_reader_init os = ReaderOk {| reader_cursor := writer_cursor seg |}.
Proof.
  apply (proj2 (proj1 (reader_init_agrees_with_eof
                         {| shm_open_r := ShmOpened fresh_program_ring; fstat_ok := true;
                            reader_mmap_ok := true; kill_r := KillEPERM |}
                         fresh_program_ring eq_refl eq_refl eq_refl))).
  reflexivity.
Defined.

(** X5: once the writer has called [writer_close], every reader's [eof]
    returns 1 whatever the probe of the pid says, and no [reader_init] on
    the segment, which keeps its name, returns a reader: it returns NULL
    unless [fstat] or [mmap] fails. *)
Theorem writer_close_ends_the_stream (os : reader_os) (seg : shared_memory_ringbuffer) :
  shm_open_r os = ShmOpened (shared_memory_ringbuffer_writer_close seg) ->
  (forall k, shared_memory_ringbuffer_eof (shared_memory_ringbuffer_writer_close seg) k = 1) /\
  (forall reader, shared_memory_ringbuffer_reader_init os <> ReaderOk reader) /\
  (fstat_ok os = true -> reader_mmap_ok os = true ->
   shared_memory_ringbuffer_reader_init os = ReaderNULL) /\
  writer_cursor (shared_memory_ringbuffer_writer_close seg) = writer_cursor seg /\
  data (shared_memory_ringbuffer_writer_close seg) = data seg.
Proof.
  intros Hopen. unfold shared_memory_ringbuffer_reader_init. rewrite Hopen.
  repeat split.
  - intros reader. destruct (fstat_ok os), (reader_mmap_ok os); cbn; discriminate.
  - intros -> ->. reflexivity.
Qed.

(** The ring of the programs, closed. *)
Lemma writer_close_ends_the_stream_witness :
  shared_memory_ringbuffer_reader_init
    {| shm_open_r := ShmOpened (shared_memory_ringbuffer_writer_close fresh_program_ring);
       fstat_ok := true; reader_mmap_ok := true; kill_r := KillOk |}
  = ReaderNULL.
Proof.
  apply (proj1 (proj2 (proj2 (writer_close_ends_the_stream
           {| shm_open_r := ShmOpened (shared_memory_ringbuffer_writer_close fresh_program_ring);
              fstat_ok := true; reader_mmap_ok := true; kill_r := KillOk |}
           fresh_program_ring eq_refl)))); reflexivity.
Defined.

(** ** The decoder: bounds and framing *)

Lemma discard_until_zero_split (fd fd' : stream) :
  discard_until_zero fd = Some fd' -> exists junk, fd = junk ++ 0 :: fd'.
Proof.
  revert fd'. induction fd as [| c fd IH]; intros fd' H; simpl in H; [discriminate |].
  destruct (Z.eqb_spec c 0) as [-> | _].
  - injection H as <-. now exists [].
  - destruct (IH _ H) as [junk ->]. now exists (c :: junk).
Qed.

(** The decoder keeps inside [out, out + max_plain_size) and returns less
    than [max_plain_size], from any point of its loop where [dst] is
    inside. *)
Lemma frame_loop_inside (fuel : nat) :
  forall (m : memory) (out max dst : Z) (w : nat) (fd : stream) (r : frame_result),
    Forall is_byte fd ->
    out <= dst -> (dst = out \/ dst - out <= max) ->
    frame_loop fuel m out max dst w fd = Some r ->
    -1 <= frame_ret r <= Z.max 0 (max - 1) /\
    (forall x, x < out \/ out + max <= x -> frame_mem r x = m x).
Proof.
  induction fuel as [| fuel IH]; intros m out max dst w fd r Hfd Hdst Hin Hloop;
    [discriminate Hloop |].
  destruct fd as [| code fd1]; cbn [frame_loop] in Hloop.
  { injection Hloop as <-. cbn. split; [lia | reflexivity]. }
  inversion Hfd as [| ? ? Hcode Hfd1]; subst. unfold is_byte in Hcode.
  destruct (Z.eqb_spec code 0) as [-> | Hnz].
  { injection Hloop as <-. cbn. split; [| reflexivity].
    destruct (Z.gtb_spec dst out); lia. }
  destruct (Z.gtb_spec (dst - out + code) max) as [Hlong | Hfit].
  - destruct (discard_until_zero fd1) as [fd2 |] eqn:E.
    + destruct (discard_until_zero_split _ _ E) as [junk ->].
      apply (IH m out max out (S w) fd2 r); try lia; try assumption.
      apply Forall_app in Hfd1. destruct Hfd1 as [_ Hfd1].
      now inversion Hfd1.
    + injection Hloop as <-. cbn. split; [lia | reflexivity].
  - set (size := Z.to_nat (code - 1)) in *.
    assert (Hchunk : (length (firstn size fd1) <= size)%nat) by apply firstn_le_length.
    assert (Hstore : forall x, x < out \/ out + max <= x ->
                       store_bytes m dst (firstn size fd1) x = m x).
    { intros x Hx. apply store_bytes_outside. lia. }
    destruct (Nat.ltb_spec (length (firstn size fd1)) size).
    { injection Hloop as <-. cbn. split; [lia | exact Hstore]. }
    assert (Hrest : Forall is_byte (skipn size fd1)).
    { rewrite <- (firstn_skipn size fd1) in Hfd1. apply Forall_app in Hfd1. tauto. }
    destruct (Z.eqb_spec code 255) as [-> | Hne].
    + apply IH in Hloop; [| assumption | lia | lia]. destruct Hloop as [Hret Hmem].
      split; [exact Hret |]. intros x Hx. rewrite Hmem by exact Hx. now apply Hstore.
    + apply IH in Hloop; [| assumption | lia | lia]. destruct Hloop as [Hret Hmem].
      split; [exact Hret |]. intros x Hx. rewrite Hmem by exact Hx.
      unfold store. destruct (Z.eqb_spec x (dst + (code - 1))); [lia |].
      now apply Hstore.
Qed.

(** What the loop has consumed when it returns a length: a prefix of the
    stream that ends with a zero byte. *)
Lemma frame_loop_consumes (fuel : nat) :
  forall (m : memory) (out max dst : Z) (w : nat) (fd : stream) (r : frame_result),
    frame_loop fuel m out max dst w fd = Some r ->
    frame_ret r <> -1 ->
    exists consumed, fd = consumed ++ 0 :: frame_fd r.
Proof.
  induction fuel as [| fuel IH]; intros m out max dst w fd r Hloop Hret;
    [discriminate Hloop |].
  destruct fd as [| code fd1]; cbn [frame_loop] in Hloop.
  { injection Hloop as <-. cbn in Hret. contradiction. }
  destruct (Z.eqb_spec code 0) as [-> | Hnz].
  { injection Hloop as <-. now exists []. }
  destruct (_ >? max).
  - destruct (discard_until_zero fd1) as [fd2 |] eqn:E.
    + destruct (discard_until_zero_split _ _ E) as [junk ->].
      destruct (IH _ _ _ _ _ _ _ Hloop Hret) as [consumed ->].
      exists (code :: junk ++ 0 :: consumed). cbn. now rewrite <- app_assoc.
    + injection Hloop as <-. cbn in Hret. contradiction.
  - set (size := Z.to_nat (code - 1)) in *.
    destruct (_ <? _)%nat.
    { injection Hloop as <-. cbn in Hret. contradiction. }
    assert (Hrest : exists consumed, skipn size fd1 = consumed ++ 0 :: frame_fd r)
      by (destruct (code =? 255); exact (IH _ _ _ _ _ _ _ Hloop Hret)).
    destruct Hrest as [consumed Hc].
    exists (code :: firstn size fd1 ++ consumed).
    cbn. rewrite <- app_assoc, <- Hc, firstn_skipn. reflexivity.
Qed.

(** ** The ingest loop: what a turn may touch, and what it publishes *)

Lemma frame_loop_fd_bytes (fuel : nat) :
  forall (m : memory) (out max dst : Z) (w : nat) (fd : stream) (r : frame_result),
    Forall is_byte fd ->
    frame_loop fuel m out max dst w fd = Some r ->
    Forall is_byte (frame_fd r).
Proof.
  induction fuel as [| fuel IH]; intros m out max dst w fd r Hfd Hloop;
    [discriminate Hloop |].
  destruct fd as [| code fd1]; cbn [frame_loop] in Hloop.
  { injection Hloop as <-. constructor. }
  inversion Hfd as [| ? ? _ Hfd1]; subst.
  destruct (code =? 0).
  { injection Hloop as <-. exact Hfd1. }
  destruct (_ >? max).
  - destruct (discard_until_zero fd1) as [fd2 |] eqn:E.
    + destruct (discard_until_zero_split _ _ E) as [junk ->].
      apply Forall_app in Hfd1. destruct Hfd1 as [_ Hfd1].
      inversion Hfd1; subst. eapply IH; eassumption.
    + injection Hloop as <-. constructor.
  - destruct (_ <? _)%nat.
    { injection Hloop as <-. constructor. }
    assert (Hrest : Forall is_byte (skipn (Z.to_nat (code - 1)) fd1)).
    { rewrite <- (firstn_skipn (Z.to_nat (code - 1)) fd1) in Hfd1.
      apply Forall_app in Hfd1. tauto. }
    destruct (code =? 255); eapply IH; eassumption.
Qed.

Lemma round_up_le_multiple (a x y : Z) :
  0 < a -> y mod a = 0 -> x <= y -> round_up a x <= y.
Proof.
  intros Ha Hy Hxy. unfold round_up.
  pose proof (Z.div_mod y a ltac:(lia)) as Hdiv. rewrite Hy in Hdiv.
  assert ((x + (a - 1)) / a < y / a + 1).
  { apply Z.div_lt_upper_bound; [lia |]. lia. }
  nia.
Qed.

(** What [rotate_log] and [open_log] leave alone. *)
Lemma logging_keeps_ring (logging_path : bool) (T : Z) (st : pipeline) :
  let st' := open_log logging_path T (rotate_log T st) in
  shm st' = shm st /\ buf st' = buf st /\ fd_serial st' = fd_serial st.
Proof.
  unfold open_log, rotate_log.
  destruct (fh st) eqn:Efh; [destruct (_ >? _) |]; cbn [fh]; rewrite ?Efh;
    destruct logging_path; repeat split.
Qed.

(** The commit of a frame the decoder returned always passes the assert of
    [send] on a ring with slots of at least 65552 bytes. *)
Lemma publish_frame_commits (T s b : Z) (st : pipeline) :
  0 < s <= 65527 ->
  65552 <= max_slot_size (shm st) ->
  exists st', publish_frame T s b st = (LoopContinue, st').
Proof.
  intros Hs Hmax. unfold publish_frame, shared_memory_ringbuffer_send.
  rewrite load_store64. cbn [max_slot_size set_data].
  rewrite wrap64_small by lia.
  assert (Hpad : pad16 (sizeof_slot + (8 + s)) <= 65552).
  { unfold sizeof_slot. rewrite pad16_round_up, wrap64_small.
    - apply round_up_le_multiple; [lia | reflexivity | lia].
    - pose proof (round_up_bounds 16 (16 + (8 + s)) ltac:(lia)). lia. }
  destruct (Z.leb_spec (pad16 (sizeof_slot + (8 + s))) (max_slot_size (shm st)));
    [| lia].
  eexists. reflexivity.
Qed.

(** What the commit of a frame changes: bytes of the slot it fills, and
    nothing else of the ring but the cursor. *)
Lemma publish_frame_frame (T s b : Z) (st st' : pipeline) :
  0 < s <= 65527 ->
  0 < cursor_wrap (shm st) ->
  b = shared_memory_ringbuffer_acquire (shm st) ->
  publish_frame T s b st = (LoopContinue, st') ->
  buf st' = None /\
  fd_serial st' = fd_serial st /\
  cursor_wrap (shm st') = cursor_wrap (shm st) /\
  max_slot_size (shm st') = max_slot_size (shm st) /\
  forall x, x < b - 16 \/ b + 65536 <= x -> data (shm st') x = data (shm st) x.
Proof.
  intros Hs Hwrap Hb Hpub. unfold publish_frame in Hpub.
  destruct (shared_memory_ringbuffer_send _ _) as [shm' |] eqn:Esend;
    [| discriminate Hpub].
  destruct (send_inversion _ _ _ Esend) as (_ & Hw' & Hm' & _ & _ & Hd').
  injection Hpub as <-. cbn [shm buf fd_serial].
  rewrite Hw', Hm', Hd'. cbn [cursor_wrap max_slot_size data set_data writer_cursor].
  repeat split.
  intros x Hx.
  unfold shared_memory_ringbuffer_acquire, sizeof_slot in Hb.
  assert (Hpad : s <= pad8 s <= 65528).
  { destruct (pad8_bounds s ltac:(lia)) as [Hb1 _]. split; [lia |].
    rewrite pad8_small by lia. apply round_up_le_multiple; [lia | reflexivity | lia]. }
  unfold store64 at 1. rewrite store_bytes_outside.
  2:{ rewrite le_bytes_length. unfold slot_offset in *. cbn [cursor_wrap set_data]. lia. }
  transitivity (store64 (data (shm st)) b (logging_header T s) x).
  - destruct (negb _); [| reflexivity]. apply store_bytes_outside.
    rewrite repeat_length. lia.
  - unfold store64. apply store_bytes_outside. rewrite le_bytes_length. lia.
Qed.

Lemma publish_frame_cursor (T s b : Z) (st st' : pipeline) :
  0 < s <= 65527 ->
  publish_frame T s b st = (LoopContinue, st') ->
  writer_cursor (shm st')
  = wrap64 (writer_cursor (shm st) + round_up 16 (sizeof_slot + 8 + s)).
Proof.
  intros Hs Hpub. unfold publish_frame in Hpub.
  destruct (shared_memory_ringbuffer_send _ _) as [shm' |] eqn:Esend;
    [| discriminate Hpub].
  destruct (send_inversion _ _ _ Esend) as (_ & _ & _ & _ & Hc & _).
  injection Hpub as <-. cbn [shm]. rewrite Hc. cbn [writer_cursor set_data].
  rewrite (wrap64_small (8 + s)) by lia. rewrite recv_advance. do 3 f_equal. lia.
Qed.

(** One turn of the loop, on a ring with room for the programs' slots. *)
Lemma main_loop_body_safe (logging_path : bool) (t : turn) (st : pipeline) :
  buf_acquired st ->
  Forall is_byte (fd_serial st) ->
  0 < cursor_wrap (shm st) ->
  65552 <= max_slot_size (shm st) ->
  let result := main_loop_body logging_path t st in
  fst result <> LoopAbort /\
  buf_acquired (snd result) /\
  Forall is_byte (fd_serial (snd result)) /\
  cursor_wrap (shm (snd result)) = cursor_wrap (shm st) /\
  max_slot_size (shm (snd result)) = max_slot_size (shm st) /\
  forall x, x < 0 \/ cursor_wrap (shm st) + max_slot_size (shm st) <= x ->
            data (shm (snd result)) x = data (shm st) x.
Proof.
  intros Hbuf Hfd Hwrap Hmax result. subst result. unfold main_loop_body.
  set (b := match buf st with
            | Some b => b
            | None => shared_memory_ringbuffer_acquire (shm st)
            end).
  assert (Hb : b = shared_memory_ringbuffer_acquire (shm st)).
  { subst b. unfold buf_acquired in Hbuf. destruct (buf st); [exact Hbuf | reflexivity]. }
  assert (Hslot : 0 <= slot_offset (shm st) (writer_cursor (shm st)) < cursor_wrap (shm st))
    by (apply Z.mod_pos_bound; exact Hwrap).
  assert (Hb' : 16 <= b < cursor_wrap (shm st) + 16).
  { rewrite Hb. unfold shared_memory_ringbuffer_acquire, sizeof_slot. lia. }
  destruct (read_escaped_frame_total (data (shm st)) (b + 8) sizeof_packet (fd_serial st))
    as [r Hr].
  destruct (frame_loop_inside (S (length (fd_serial st))) (data (shm st)) (b + 8)
              sizeof_packet (b + 8) 0%nat (fd_serial st) r Hfd ltac:(lia)
              (or_introl eq_refl) Hr) as [Hret Hmem].
  rewrite Hr.
  assert (Hret' : -1 <= frame_ret r <= 65527) by (unfold sizeof_packet in Hret; lia).
  assert (Hbytes : Forall is_byte (frame_fd r))
    by (exact (frame_loop_fd_bytes _ _ _ _ _ _ _ _ Hfd Hr)).
  assert (Hmem' : forall x, x < 0 \/ cursor_wrap (shm st) + max_slot_size (shm st) <= x ->
                            frame_mem r x = data (shm st) x).
  { intros x Hx; apply Hmem. unfold sizeof_packet. lia. }
  clear Hmem Hret Hr.
  set (st1 := {| shm := set_data (shm st) (frame_mem r); buf := Some b;
                 fd_serial := frame_fd r; fh := fh st; path := path st;
                 time_microseconds_file_start := time_microseconds_file_start st;
                 packet_time_previous := packet_time_previous st;
                 stdout := stdout st |}).
  assert (Hstop : forall status,
    status <> LoopAbort ->
    fst (status, st1) <> LoopAbort /\
    buf_acquired (snd (status, st1)) /\
    Forall is_byte (fd_serial (snd (status, st1))) /\
    cursor_wrap (shm (snd (status, st1))) = cursor_wrap (shm st) /\
    max_slot_size (shm (snd (status, st1))) = max_slot_size (shm st) /\
    forall x, x < 0 \/ cursor_wrap (shm st) + max_slot_size (shm st) <= x ->
              data (shm (snd (status, st1))) x = data (shm st) x).
  { intros status Hs. split; [exact Hs |]. split.
    - exact Hb.
    - repeat split; assumption. }
  destruct (sig_after_read t); [apply Hstop; discriminate |].
  destruct (Z.eqb_spec (frame_ret r) (-1)); [apply Hstop; discriminate |].
  destruct (Z.eqb_spec (frame_ret r) 0); [apply Hstop; discriminate |].
  destruct (sig_after_clock t); [apply Hstop; discriminate |].
  clear Hstop.
  match goal with
  | |- context [publish_frame ?T ?s ?b' (open_log ?l ?T' (rotate_log ?T'' ?st2))] =>
      set (st3 := open_log l T (rotate_log T st2));
      destruct (logging_keeps_ring l T st2) as (Hshm & Hbuf3 & Hfd3);
      fold st3 in Hshm, Hbuf3, Hfd3
  end.
  set (T0 := current_time_in_unix_microseconds t) in *.
  cbn [shm fd_serial buf] in Hshm, Hfd3, Hbuf3.
  assert (Hs : 0 < frame_ret r <= 65527) by lia.
  assert (Hmax3 : 65552 <= max_slot_size (shm st3)) by (rewrite Hshm; exact Hmax).
  destruct (publish_frame_commits T0 (frame_ret r) b st3 Hs Hmax3) as [st' Hpub].
  rewrite Hpub. cbn [fst snd].
  assert (Hwrap3 : 0 < cursor_wrap (shm st3)) by (rewrite Hshm; exact Hwrap).
  assert (Hb3 : b = shared_memory_ringbuffer_acquire (shm st3)) by (rewrite Hshm; exact Hb).
  destruct (publish_frame_frame T0 (frame_ret r) b st3 st' Hs Hwrap3 Hb3 Hpub)
    as (Hnone & Hfd' & Hw' & Hm' & Hd').
  rewrite Hshm in Hw', Hm', Hd'. cbn [cursor_wrap max_slot_size data set_data] in Hw', Hm', Hd'.
  split; [discriminate |].
  split; [unfold buf_acquired; rewrite Hnone; exact I |].
  split; [rewrite Hfd', Hfd3; exact Hbytes |].
  split; [exact Hw' |]. split; [exact Hm' |].
  intros x Hx. rewrite Hd' by lia. apply Hmem'. exact Hx.
Qed.

Lemma main_loop_safe (logging_path : bool) (turns : list turn) :
  forall st : pipeline,
    buf_acquired st ->
    Forall is_byte (fd_serial st) ->
    0 < cursor_wrap (shm st) ->
    65552 <= max_slot_size (shm st) ->
    let st' := main_loop logging_path turns st in
    buf_acquired st' /\
    Forall is_byte (fd_serial st') /\
    cursor_wrap (shm st') = cursor_wrap (shm st) /\
    max_slot_size (shm st') = max_slot_size (shm st) /\
    forall x, x < 0 \/ cursor_wrap (shm st) + max_slot_size (shm st) <= x ->
              data (shm st') x = data (shm st) x.
Proof.
  induction turns as [| t turns IH]; intros st Hbuf Hfd Hwrap Hmax; cbn [main_loop].
  { repeat split; assumption. }
  pose proof (main_loop_body_safe logging_path t st Hbuf Hfd Hwrap Hmax) as Hbody.
  cbv zeta in Hbody.
  destruct (main_loop_body logging_path t st) as [status st1].
  cbn [fst snd] in Hbody. destruct Hbody as (_ & Hbuf1 & Hfd1 & Hw1 & Hm1 & Hd1).
  destruct status; try (repeat split; assumption).
  specialize (IH st1 Hbuf1 Hfd1). rewrite Hw1, Hm1 in IH.
  destruct (IH Hwrap Hmax) as (Hbuf2 & Hfd2 & Hw2 & Hm2 & Hd2).
  repeat split; try assumption.
  intros x Hx. rewrite Hd2 by exact Hx. apply Hd1. exact Hx.
Qed.

(** X8: on a ring whose slots hold 65552 bytes (what [main] asks for), no
    turn of the ingest loop ever fails the assert of [send], whatever the
    serial port delivers and however many turns went before; and the whole
    run writes no byte outside the mapped segment, [cursor_wrap +
    max_slot_size] bytes from [shm->data], and leaves the geometry of the
    ring alone. *)
Theorem ingest_loop_never_aborts_nor_escapes
    (logging_path : bool) (turns : list turn) (t : turn) (st : pipeline) :
  buf_acquired st ->
  Forall is_byte (fd_serial st) ->
  0 < cursor_wrap (shm st) ->
  65552 <= max_slot_size (shm st) ->
  let st' := main_loop logging_path turns st in
  fst (main_loop_body logging_path t st') <> LoopAbort /\
  cursor_wrap (shm st') = cursor_wrap (shm st) /\
  max_slot_size (shm st') = max_slot_size (shm st) /\
  forall x, x < 0 \/ cursor_wrap (shm st) + max_slot_size (shm st) <= x ->
            data (shm st') x = data (shm st) x.
Proof.
  intros Hbuf Hfd Hwrap Hmax st'.
  destruct (main_loop_safe logging_path turns st Hbuf Hfd Hwrap Hmax)
    as (Hbuf' & Hfd' & Hw' & Hm' & Hd').
  fold st' in Hbuf', Hfd', Hw', Hm', Hd'.
  split; [| repeat split; assumption].
  apply (main_loop_body_safe logging_path t st' Hbuf' Hfd'); [rewrite Hw' | rewrite Hm'];
    assumption.
Qed.

Lemma ingest_loop_never_aborts_nor_escapes_witness :
  let turns := [ {| sig_after_read := false; current_time_in_unix_microseconds := 25000000;
                    sig_after_clock := false |} ] in
  let t := {| sig_after_read := false; current_time_in_unix_microseconds := 31000000;
              sig_after_clock := false |} in
  let st := main_start fresh_program_ring [3; 7; 9; 0; 2; 5; 0] in
  let st' := main_loop true turns st in
  fst (main_loop_body true t st') <> LoopAbort /\
  cursor_wrap (shm st') = cursor_wrap (shm st) /\
  max_slot_size (shm st') = max_slot_size (shm st) /\
  forall x, x < 0 \/ cursor_wrap (shm st) + max_slot_size (shm st) <= x ->
            data (shm st') x = data (shm st) x.
Proof.
  intros turns t st.
  apply (ingest_loop_never_aborts_nor_escapes true turns t st).
  - exact I.
  - unfold st, main_start, is_byte. cbn [fd_serial]. repeat constructor; lia.
  - reflexivity.
  - discriminate.
Defined.

(** What the commit of a frame leaves of the log: the record appended to
    the open file, and nothing else changed. *)
Lemma publish_frame_log_fields (T s b : Z) (st st' : pipeline) :
  publish_frame T s b st = (LoopContinue, st') ->
  fh st' = match fh st with
           | Some written =>
               Some (written ++ load_bytes (data (shm st')) b (Z.to_nat (8 + pad8 s)))
           | None => None
           end /\
  path st' = path st /\
  time_microseconds_file_start st' = time_microseconds_file_start st /\
  stdout st' = stdout st.
Proof.
  intros Hpub. unfold publish_frame in Hpub.
  destruct (shared_memory_ringbuffer_send _ _) as [shm' |]; [| discriminate Hpub].
  injection Hpub as <-. cbn [fh shm path time_microseconds_file_start stdout].
  repeat split.
Qed.

(** The turn that commits a frame: its slot, its record, and what the
    rotation of lines 333-357 has made of the log before. *)
Lemma main_loop_body_frame
    (logging_path : bool) (t : turn) (st : pipeline) (r : frame_result) :
  buf_acquired st ->
  0 < cursor_wrap (shm st) ->
  65552 <= max_slot_size (shm st) ->
  sig_after_read t = false ->
  sig_after_clock t = false ->
  read_escaped_frame (data (shm st)) (shared_memory_ringbuffer_acquire (shm st) + 8)
    sizeof_packet (fd_serial st) = Some r ->
  0 < frame_ret r < sizeof_packet ->
  let T := current_time_in_unix_microseconds t in
  let h := logging_header T (frame_ret r) in
  let packet := frame_payload (shared_memory_ringbuffer_acquire (shm st) + 8) r in
  let logged := open_log logging_path T (rotate_log T st) in
  exists st',
    main_loop_body logging_path t st = (LoopContinue, st') /\
    buf st' = None /\
    fd_serial st' = frame_fd r /\
    slot_contents (shm st') (writer_cursor (shm st))
    = (8 + frame_ret r, le_bytes 8 h ++ packet) /\
    fh st' = match fh logged with
             | Some written => Some (written ++ log_record h packet)
             | None => None
             end /\
    path st' = path logged /\
    time_microseconds_file_start st' = time_microseconds_file_start logged /\
    stdout st' = stdout logged /\
    cursor_wrap (shm st') = cursor_wrap (shm st) /\
    max_slot_size (shm st') = max_slot_size (shm st) /\
    writer_cursor (shm st')
    = wrap64 (writer_cursor (shm st) + round_up 16 (sizeof_slot + 8 + frame_ret r)).
Proof.
  intros Hbuf Hwrap Hmax Hsig1 Hsig2 Hr Hret T h packet logged.
  unfold sizeof_packet in Hret.
  unfold main_loop_body.
  set (b := match buf st with
            | Some b => b
            | None => shared_memory_ringbuffer_acquire (shm st)
            end).
  assert (Hb : b = shared_memory_ringbuffer_acquire (shm st)).
  { subst b. unfold buf_acquired in Hbuf. destruct (buf st); [exact Hbuf | reflexivity]. }
  rewrite <- Hb in Hr. rewrite Hr, Hsig1, Hsig2.
  destruct (Z.eqb_spec (frame_ret r) (-1)) as [| _]; [lia |].
  destruct (Z.eqb_spec (frame_ret r) 0) as [| _]; [lia |].
  fold T.
  match goal with
  | |- context [publish_frame T ?s b (open_log logging_path T (rotate_log T ?st2))] =>
      set (st3 := open_log logging_path T (rotate_log T st2));
      destruct (logging_keeps_ring logging_path T st2) as (Hshm & _ & Hfd3);
      fold st3 in Hshm, Hfd3;
      assert (Hlog : fh st3 = fh logged /\ path st3 = path logged /\
                     time_microseconds_file_start st3 = time_microseconds_file_start logged /\
                     stdout st3 = stdout logged)
  end.
  { subst st3 logged. unfold open_log, rotate_log.
    cbn [fh time_microseconds_file_start path stdout].
    destruct (fh st) eqn:Efh; [destruct (_ >? _) |]; destruct logging_path;
      cbn [fh time_microseconds_file_start path stdout]; rewrite ?Efh;
      cbn [fh time_microseconds_file_start path stdout]; repeat split. }
  destruct Hlog as (Hfh & Hpath & Hstart & Hout).
  cbn [shm fd_serial] in Hshm, Hfd3.
  assert (Hs : 0 < frame_ret r <= 65527) by lia.
  assert (Hmax3 : 65552 <= max_slot_size (shm st3)) by (rewrite Hshm; exact Hmax).
  destruct (publish_frame_commits T (frame_ret r) b st3 Hs Hmax3) as [st' Hpub].
  exists st'. split; [exact Hpub |].
  assert (Hwrap3 : 0 < cursor_wrap (shm st3)) by (rewrite Hshm; exact Hwrap).
  assert (Hb3 : b = shared_memory_ringbuffer_acquire (shm st3)) by (rewrite Hshm; exact Hb).
  destruct (publish_frame_frame T (frame_ret r) b st3 st' Hs Hwrap3 Hb3 Hpub)
    as (Hnone & Hfd' & Hw' & Hm' & _).
  pose proof (publish_frame_cursor T (frame_ret r) b st3 st' Hs Hpub) as Hc'.
  rewrite Hshm in Hm', Hc'. cbn [max_slot_size writer_cursor set_data] in Hm', Hc'.
  destruct (publish_frame_slot T (frame_ret r) b st3 st' ltac:(lia) Hb3 Hpub)
    as (Hsize & Hload).
  destruct (publish_frame_log_fields T (frame_ret r) b st3 st' Hpub)
    as (Hfh' & Hpath' & Hstart' & Hout').
  rewrite Hshm in Hload, Hw'. cbn [data set_data cursor_wrap] in Hload, Hw'.
  fold h in Hload. subst packet. rewrite <- Hb.
  fold (frame_payload (b + 8) r) in Hload.
  set (packet := frame_payload (b + 8) r) in *.
  assert (Hlen : length packet = Z.to_nat (frame_ret r))
    by (apply load_bytes_length).
  destruct (pad8_bounds (frame_ret r) ltac:(lia)) as [Hpad _].
  split; [exact Hnone |]. split; [rewrite Hfd'; exact Hfd3 |].
  split; [| split; [| split; [congruence | split; [congruence | split; [congruence |
    split; [exact Hw' | split; [exact Hm' | exact Hc']]]]]]].
  - unfold slot_contents, slot_offset. rewrite Hw'.
    assert (Hslot : writer_cursor (shm st) mod cursor_wrap (shm st) = b - sizeof_slot).
    { rewrite Hb. unfold shared_memory_ringbuffer_acquire, slot_offset. lia. }
    rewrite Hslot, Hsize. f_equal.
    replace (b - sizeof_slot + sizeof_slot) with b by lia.
    rewrite (load_bytes_firstn _ _ _ (Z.to_nat (8 + pad8 (frame_ret r)))) by lia.
    rewrite Hload, app_assoc.
    replace (Z.to_nat (8 + frame_ret r)) with (length (le_bytes 8 h ++ packet) + 0)%nat
      by (rewrite length_app, le_bytes_length, Hlen; lia).
    rewrite firstn_app_2. cbn [firstn]. apply app_nil_r.
  - rewrite Hfh', Hfh, Hload. destruct (fh logged) as [written |]; [| reflexivity].
    unfold log_record.
    do 4 f_equal. rewrite Hlen, pad8_small by lia.
    rewrite Z2Nat.id by lia. rewrite pad8_small in Hpad by lia. f_equal. lia.
Qed.

(** The turn that publishes: its slot and its record. *)
Lemma main_loop_body_publishes (t : turn) (st : pipeline) (r : frame_result) :
  buf_acquired st ->
  0 < cursor_wrap (shm st) ->
  65552 <= max_slot_size (shm st) ->
  sig_after_read t = false ->
  sig_after_clock t = false ->
  read_escaped_frame (data (shm st)) (shared_memory_ringbuffer_acquire (shm st) + 8)
    sizeof_packet (fd_serial st) = Some r ->
  0 < frame_ret r < sizeof_packet ->
  let T := current_time_in_unix_microseconds t in
  let h := logging_header T (frame_ret r) in
  let packet := frame_payload (shared_memory_ringbuffer_acquire (shm st) + 8) r in
  exists st',
    main_loop_body true t st = (LoopContinue, st') /\
    buf st' = None /\
    fd_serial st' = frame_fd r /\
    slot_contents (shm st') (writer_cursor (shm st))
    = (8 + frame_ret r, le_bytes 8 h ++ packet) /\
    fh st' = Some (match fh (rotate_log T st) with Some written => written | None => [] end
                   ++ log_record h packet) /\
    cursor_wrap (shm st') = cursor_wrap (shm st) /\
    max_slot_size (shm st') = max_slot_size (shm st) /\
    writer_cursor (shm st')
    = wrap64 (writer_cursor (shm st) + round_up 16 (sizeof_slot + 8 + frame_ret r)).
Proof.
  intros Hbuf Hwrap Hmax Hsig1 Hsig2 Hr Hret T h packet.
  destruct (main_loop_body_frame true t st r Hbuf Hwrap Hmax Hsig1 Hsig2 Hr Hret)
    as (st' & Hturn & Hnone & Hfd & Hslot & Hfile & _ & _ & _ & Hw & Hm & Hc).
  exists st'. repeat split; try assumption.
  rewrite Hfile. fold T h packet. unfold open_log.
  destruct (fh (rotate_log T st)) as [written |] eqn:E; cbn [fh]; rewrite ?E; reflexivity.
Qed.

(** X9: a turn of the ingest loop that decodes a packet of [s > 0] bytes
    and sees no signal commits one slot and appends one record, and the two
    agree: the slot at the former writer cursor holds the size [8 + s], the
    8 bytes of the logging header and the packet, and the log file, opened
    by this turn or by an earlier one, grows by that same header and
    packet, zero-padded to a multiple of 8. *)
Theorem ingest_turn_ring_and_log_agree (t : turn) (st : pipeline) (r : frame_result) :
  buf_acquired st ->
  0 < cursor_wrap (shm st) ->
  65552 <= max_slot_size (shm st) ->
  sig_after_read t = false ->
  sig_after_clock t = false ->
  read_escaped_frame (data (shm st)) (shared_memory_ringbuffer_acquire (shm st) + 8)
    sizeof_packet (fd_serial st) = Some r ->
  0 < frame_ret r < sizeof_packet ->
  let T := current_time_in_unix_microseconds t in
  let h := logging_header T (frame_ret r) in
  let packet := frame_payload (shared_memory_ringbuffer_acquire (shm st) + 8) r in
  exists st',
    main_loop_body true t st = (LoopContinue, st') /\
    buf st' = None /\
    fd_serial st' = frame_fd r /\
    slot_contents (shm st') (writer_cursor (shm st))
    = (8 + frame_ret r, le_bytes 8 h ++ packet) /\
    fh st' = Some (match fh (rotate_log T st) with Some written => written | None => [] end
                   ++ log_record h packet).
Proof.
  intros Hbuf Hwrap Hmax Hsig1 Hsig2 Hr Hret T h packet.
  destruct (main_loop_body_publishes t st r Hbuf Hwrap Hmax Hsig1 Hsig2 Hr Hret)
    as (st' & Hturn & Hnone & Hfd & Hslot & Hfile & _).
  exists st'. repeat split; assumption.
Qed.

Lemma ingest_turn_ring_and_log_agree_witness :
  let t := {| sig_after_read := false; current_time_in_unix_microseconds := 25000000;
              sig_after_clock := false |} in
  let st := main_start fresh_program_ring [3; 7; 9; 0] in
  exists st',
    main_loop_body true t st = (LoopContinue, st') /\
    buf st' = None /\
    fd_serial st' = [] /\
    slot_contents (shm st') 0
    = (10, le_bytes 8 (logging_header 25000000 2) ++ [7; 9]) /\
    fh st' = Some (log_record (logging_header 25000000 2) [7; 9]).
Proof.
  intros t st.
  destruct (read_escaped_frame (data (shm st)) (shared_memory_ringbuffer_acquire (shm st) + 8)
              sizeof_packet (fd_serial st)) as [r |] eqn:Hr; [| vm_compute in Hr; discriminate Hr].
  assert (Hret : frame_ret r = 2) by (vm_compute in Hr; injection Hr as <-; reflexivity).
  assert (Hfd : frame_fd r = []) by (vm_compute in Hr; injection Hr as <-; reflexivity).
  assert (Hpay : frame_payload (shared_memory_ringbuffer_acquire (shm st) + 8) r = [7; 9])
    by (vm_compute in Hr; injection Hr as <-; reflexivity).
  pose proof (ingest_turn_ring_and_log_agree t st r I ltac:(reflexivity) ltac:(discriminate)
                eq_refl eq_refl Hr ltac:(rewrite Hret; split; reflexivity)) as H.
  cbv zeta in H. rewrite Hret, Hfd, Hpay in H. exact H.
Defined.

(** ** The ingest loop: the log along a run *)

(** The test of line 337 as a boolean. *)
Lemma rotate_test_bool (T start : Z) :
  (T - T mod 10000000 >? start) = (bucket T >? bucket start).
Proof.
  pose proof (rotate_test T start) as H.
  destruct (Z.gtb_spec (T - T mod 10000000) start), (Z.gtb_spec (bucket T) (bucket start));
    try reflexivity; lia.
Qed.

(** What the rotation of lines 333-357 makes of the log fields. *)
Lemma logging_log_fields (logging_path : bool) (T : Z) (st : pipeline) :
  let logged := open_log logging_path T (rotate_log T st) in
  let opened :=
    if logging_path
    then fh logged = Some [] /\ time_microseconds_file_start logged = T /\
         path logged = T / 1000000
    else fh logged = None in
  match fh st with
  | Some written =>
      if bucket T >? bucket (time_microseconds_file_start st)
      then stdout logged = stdout st ++ [path st] /\ opened
      else stdout logged = stdout st /\ fh logged = Some written /\
           time_microseconds_file_start logged = time_microseconds_file_start st /\
           path logged = path st
  | None => stdout logged = stdout st /\ opened
  end.
Proof.
  cbv zeta. unfold open_log, rotate_log. rewrite rotate_test_bool.
  destruct (fh st) as [written |] eqn:Efh.
  - destruct (bucket T >? bucket (time_microseconds_file_start st)).
    + cbn [fh]. destruct logging_path; cbn; repeat split.
    + rewrite Efh. repeat split. exact Efh.
  - rewrite Efh. destruct logging_path; cbn; repeat split. exact Efh.
Qed.

(** One turn of the loop and the log. *)
Lemma main_loop_body_log (logging_path : bool) (t : turn) (st : pipeline) :
  buf_acquired st ->
  Forall is_byte (fd_serial st) ->
  0 < cursor_wrap (shm st) ->
  65552 <= max_slot_size (shm st) ->
  let T := current_time_in_unix_microseconds t in
  exists status st',
    main_loop_body logging_path t st = (status, st') /\
    status <> LoopAbort /\
    (status = LoopBreak \/ buf st' <> None ->
     fh st' = fh st /\ path st' = path st /\
     time_microseconds_file_start st' = time_microseconds_file_start st /\
     stdout st' = stdout st) /\
    (status = LoopContinue -> buf st' = None ->
     exists s packet,
       0 < s /\
       slot_contents (shm st') (writer_cursor (shm st))
       = (8 + s, le_bytes 8 (logging_header T s) ++ packet) /\
       let record := log_record (logging_header T s) packet in
       let opened :=
         if logging_path
         then fh st' = Some record /\ time_microseconds_file_start st' = T /\
              path st' = T / 1000000
         else fh st' = None in
       match fh st with
       | Some written =>
           if bucket T >? bucket (time_microseconds_file_start st)
           then stdout st' = stdout st ++ [path st] /\ opened
           else stdout st' = stdout st /\ fh st' = Some (written ++ record) /\
                time_microseconds_file_start st' = time_microseconds_file_start st /\
                path st' = path st
       | None => stdout st' = stdout st /\ opened
       end).
Proof.
  intros Hbuf Hbytes Hwrap Hmax T.
  set (b := shared_memory_ringbuffer_acquire (shm st)).
  destruct (read_escaped_frame_total (data (shm st)) (b + 8) sizeof_packet (fd_serial st))
    as [r Hr].
  pose proof (frame_loop_inside (S (length (fd_serial st))) (data (shm st)) (b + 8)
                sizeof_packet (b + 8) 0%nat (fd_serial st) r Hbytes ltac:(lia)
                (or_introl eq_refl) Hr) as [Hrange _].
  unfold sizeof_packet in Hrange.
  assert (Hidle : forall status,
             status <> LoopAbort ->
             main_loop_body logging_path t st
             = (status, {| shm := set_data (shm st) (frame_mem r); buf := Some b;
                           fd_serial := frame_fd r; fh := fh st; path := path st;
                           time_microseconds_file_start := time_microseconds_file_start st;
                           packet_time_previous := packet_time_previous st;
                           stdout := stdout st |}) ->
             exists status st',
               main_loop_body logging_path t st = (status, st') /\
               status <> LoopAbort /\
               (status = LoopBreak \/ buf st' <> None ->
                fh st' = fh st /\ path st' = path st /\
                time_microseconds_file_start st' = time_microseconds_file_start st /\
                stdout st' = stdout st) /\
               (status = LoopContinue -> buf st' = None -> False)).
  { intros status Hstatus Hturn. eexists _, _. split; [exact Hturn |].
    split; [exact Hstatus |]. cbn [fh path time_microseconds_file_start stdout buf].
    split; [intros _; repeat split | intros _; discriminate]. }
  assert (Hb : match buf st with
               | Some b' => b'
               | None => shared_memory_ringbuffer_acquire (shm st)
               end = b).
  { unfold buf_acquired in Hbuf. destruct (buf st); [exact Hbuf | reflexivity]. }
  assert (Hcases :
            (sig_after_read t = true \/ frame_ret r = -1 \/ frame_ret r = 0 \/
             sig_after_clock t = true) \/
            (sig_after_read t = false /\ sig_after_clock t = false /\
             0 < frame_ret r < 65528)).
  { destruct (sig_after_read t), (sig_after_clock t); try tauto; lia. }
  destruct Hcases as [Hno | (Hsig1 & Hsig2 & Hret)].
  - assert (exists status,
               status <> LoopAbort /\
               main_loop_body logging_path t st
               = (status, {| shm := set_data (shm st) (frame_mem r); buf := Some b;
                             fd_serial := frame_fd r; fh := fh st; path := path st;
                             time_microseconds_file_start := time_microseconds_file_start st;
                             packet_time_previous := packet_time_previous st;
                             stdout := stdout st |})) as (status & Hstatus & Hturn).
    { unfold main_loop_body. rewrite Hb, Hr.
      destruct (sig_after_read t); [exists LoopBreak; split; [discriminate | reflexivity] |].
      destruct (Z.eqb_spec (frame_ret r) (-1));
        [exists LoopBreak; split; [discriminate | reflexivity] |].
      destruct (Z.eqb_spec (frame_ret r) 0);
        [exists LoopContinue; split; [discriminate | reflexivity] |].
      destruct (sig_after_clock t);
        [exists LoopBreak; split; [discriminate | reflexivity] |].
      exfalso. destruct Hno as [Hno | [Hno | [Hno | Hno]]]; congruence. }
    destruct (Hidle status Hstatus Hturn) as (status' & st' & H1 & H2 & H3 & H4).
    exists status', st'. split; [exact H1 |]. split; [exact H2 |]. split; [exact H3 |].
    intros Hc Hn. destruct (H4 Hc Hn).
  - destruct (main_loop_body_frame logging_path t st r Hbuf Hwrap Hmax Hsig1 Hsig2 Hr Hret)
      as (st' & Hturn & Hnone & _ & Hslot & Hfile & Hpath & Hstart & Hout & _).
    fold T b in Hslot, Hfile, Hpath, Hstart, Hout.
    exists LoopContinue, st'. split; [exact Hturn |]. split; [discriminate |].
    split.
    { intros [Hbreak | Hsome]; [discriminate Hbreak | contradiction]. }
    intros _ _. exists (frame_ret r), (frame_payload (b + 8) r).
    split; [lia |]. split; [exact Hslot |]. cbv zeta.
    pose proof (logging_log_fields logging_path T st) as Hlog. cbv zeta in Hlog.
    set (logged := open_log logging_path T (rotate_log T st)) in *.
    rewrite Hout, Hpath, Hstart, Hfile.
    destruct (fh st) as [written |].
    + destruct (bucket T >? bucket (time_microseconds_file_start st)).
      * destruct Hlog as [Hstd Hopen]. split; [exact Hstd |].
        destruct logging_path.
        -- destruct Hopen as (-> & H2 & H3). repeat split; assumption.
        -- now rewrite Hopen.
      * destruct Hlog as (Hstd & -> & H2 & H3). repeat split; assumption.
    + destruct Hlog as [Hstd Hopen]. split; [exact Hstd |].
      destruct logging_path.
      * destruct Hopen as (-> & H2 & H3). repeat split; assumption.
      * now rewrite Hopen.
Qed.

(** Along a run of the loop, an open log file starts with the record of
    the frame whose time is [time_microseconds_file_start], and is named
    after that time. *)
Lemma main_loop_log_start (logging_path : bool) (turns : list turn) :
  forall st : pipeline,
    buf_acquired st ->
    Forall is_byte (fd_serial st) ->
    0 < cursor_wrap (shm st) ->
    65552 <= max_slot_size (shm st) ->
    (forall written,
        fh st = Some written ->
        path st = time_microseconds_file_start st / 1000000 /\
        exists s packet more,
          written = log_record (logging_header (time_microseconds_file_start st) s) packet
                    ++ more) ->
    let st' := main_loop logging_path turns st in
    forall written,
      fh st' = Some written ->
      path st' = time_microseconds_file_start st' / 1000000 /\
      exists s packet more,
        written = log_record (logging_header (time_microseconds_file_start st') s) packet
                  ++ more.
Proof.
  induction turns as [| t turns IH]; intros st Hbuf Hbytes Hwrap Hmax Hinv;
    cbn [main_loop]; [exact Hinv |].
  destruct (main_loop_body_log logging_path t st Hbuf Hbytes Hwrap Hmax)
    as (status & st1 & Hturn & Hno & Hidle & Hframe).
  destruct (main_loop_body_safe logging_path t st Hbuf Hbytes Hwrap Hmax)
    as (_ & Hbuf1 & Hbytes1 & Hwrap1 & Hmax1 & _).
  rewrite Hturn in Hbuf1, Hbytes1, Hwrap1, Hmax1 |- *. cbn [snd] in *.
  assert (Hinv1 : forall written,
             fh st1 = Some written ->
             path st1 = time_microseconds_file_start st1 / 1000000 /\
             exists s packet more,
               written
               = log_record (logging_header (time_microseconds_file_start st1) s) packet
                 ++ more).
  { assert (Hcase : (status = LoopBreak \/ buf st1 <> None) \/
                    (status = LoopContinue /\ buf st1 = None)).
    { destruct status; [| tauto | contradiction].
      destruct (buf st1); [left; right; discriminate | tauto]. }
    destruct Hcase as [Hno' | [Hc Hn]].
    - destruct (Hidle Hno') as (-> & -> & -> & _). exact Hinv.
    - destruct (Hframe Hc Hn) as (s & packet & _ & _ & Hlog). cbv zeta in Hlog.
      intros written' Hfh'.
      assert (Hopened :
                (if logging_path
                 then fh st1
                      = Some (log_record
                                (logging_header (current_time_in_unix_microseconds t) s)
                                packet) /\
                      time_microseconds_file_start st1
                      = current_time_in_unix_microseconds t /\
                      path st1 = current_time_in_unix_microseconds t / 1000000
                 else fh st1 = None) ->
                path st1 = time_microseconds_file_start st1 / 1000000 /\
                exists s packet more,
                  written'
                  = log_record (logging_header (time_microseconds_file_start st1) s) packet
                    ++ more).
      { destruct logging_path.
        - intros (Hfh1 & -> & ->). split; [reflexivity |].
          rewrite Hfh1 in Hfh'. injection Hfh' as <-.
          exists s, packet, []. now rewrite app_nil_r.
        - intros Hfh1. rewrite Hfh1 in Hfh'. discriminate Hfh'. }
      destruct (fh st) as [written |] eqn:Efh.
      + destruct (bucket _ >? bucket _).
        * apply Hopened, Hlog.
        * destruct Hlog as (_ & Hfh1 & -> & ->).
          destruct (Hinv written eq_refl) as (Hpath & s0 & packet0 & more & ->).
          split; [exact Hpath |].
          rewrite Hfh1 in Hfh'. injection Hfh' as <-.
          exists s0, packet0, (more ++ log_record
                                 (logging_header (current_time_in_unix_microseconds t) s)
                                 packet).
          now rewrite app_assoc.
      + apply Hopened, Hlog. }
  destruct status; [| exact Hinv1 | exact Hinv1].
  apply IH; try assumption; lia.
Qed.

(** C7 (amended): along every run of the loop from the state [main]
    enters it with, an open log file starts with the record of the frame
    whose time is [time_microseconds_file_start] and is named after that
    time's second.  A turn that commits a frame stamped [T] (it is the
    turn that ends with [buf] reset to NULL, line 385) while a file is
    open closes the file and prints its path exactly when the bucket of
    [T] is later than the bucket of that first frame (which is when it
    differs, if the clock has not stepped back), and appends the frame's
    record otherwise; a frame that finds no file open, or has just closed
    one, opens a file when logging is on, with its own record first and
    its own time as the start; a turn that commits no frame leaves the log
    alone; and leaving the loop closes the open file and prints its
    path. *)
Theorem log_rotation (logging_path : bool) (ring : shared_memory_ringbuffer) (fd : stream)
    (turns : list turn) (t : turn) :
  0 < cursor_wrap ring ->
  65552 <= max_slot_size ring ->
  Forall is_byte fd ->
  let st := main_loop logging_path turns (main_start ring fd) in
  let T := current_time_in_unix_microseconds t in
  (forall written,
      fh st = Some written ->
      path st = time_microseconds_file_start st / 1000000 /\
      exists s packet more,
        written = log_record (logging_header (time_microseconds_file_start st) s) packet
                  ++ more) /\
  exists status st',
    main_loop_body logging_path t st = (status, st') /\
    status <> LoopAbort /\
    (status = LoopBreak \/ buf st' <> None ->
     fh st' = fh st /\ path st' = path st /\
     time_microseconds_file_start st' = time_microseconds_file_start st /\
     stdout st' = stdout st) /\
    (status = LoopContinue -> buf st' = None ->
     exists s packet,
       0 < s /\
       slot_contents (shm st') (writer_cursor (shm st))
       = (8 + s, le_bytes 8 (logging_header T s) ++ packet) /\
       let record := log_record (logging_header T s) packet in
       let opened :=
         if logging_path
         then fh st' = Some record /\ time_microseconds_file_start st' = T /\
              path st' = T / 1000000
         else fh st' = None in
       match fh st with
       | Some written =>
           if bucket T >? bucket (time_microseconds_file_start st)
           then stdout st' = stdout st ++ [path st] /\ opened
           else stdout st' = stdout st /\ fh st' = Some (written ++ record) /\
                time_microseconds_file_start st' = time_microseconds_file_start st /\
                path st' = path st
       | None => stdout st' = stdout st /\ opened
       end) /\
    fh (main_exit st') = None /\
    stdout (main_exit st')
    = stdout st' ++ match fh st' with Some _ => [path st'] | None => [] end.
Proof.
  intros Hwrap Hmax Hbytes st T.
  destruct (main_loop_safe logging_path turns (main_start ring fd) I Hbytes Hwrap Hmax)
    as (Hbuf' & Hbytes' & Hwrap' & Hmax' & _).
  fold st in Hbuf', Hbytes', Hwrap', Hmax'. cbn [main_start shm] in Hwrap', Hmax'.
  split.
  - apply (main_loop_log_start logging_path turns (main_start ring fd) I Hbytes Hwrap Hmax).
    intros written Hfh. discriminate Hfh.
  - destruct (main_loop_body_log logging_path t st Hbuf' Hbytes'
                ltac:(rewrite Hwrap'; exact Hwrap) ltac:(rewrite Hmax'; exact Hmax))
      as (status & st' & Hturn & Hno & Hidle & Hframe).
    exists status, st'. split; [exact Hturn |]. split; [exact Hno |].
    split; [exact Hidle |]. split; [exact Hframe |].
    unfold main_exit. destruct (fh st') as [written |] eqn:Efh; cbn [fh stdout].
    + split; reflexivity.
    + split; [exact Efh | now rewrite app_nil_r].
Qed.

Lemma log_rotation_witness :
  let logging_path := true in
  let t5 := {| sig_after_read := false; current_time_in_unix_microseconds := 5000000;
               sig_after_clock := false |} in
  let t := {| sig_after_read := false; current_time_in_unix_microseconds := 25000000;
              sig_after_clock := false |} in
  let st := main_loop logging_path [t5] (main_start fresh_program_ring [3; 7; 9; 0; 2; 5; 0]) in
  let T := current_time_in_unix_microseconds t in
  (forall written,
      fh st = Some written ->
      path st = time_microseconds_file_start st / 1000000 /\
      exists s packet more,
        written = log_record (logging_header (time_microseconds_file_start st) s) packet
                  ++ more) /\
  exists status st',
    main_loop_body logging_path t st = (status, st') /\
    status <> LoopAbort /\
    (status = LoopBreak \/ buf st' <> None ->
     fh st' = fh st /\ path st' = path st /\
     time_microseconds_file_start st' = time_microseconds_file_start st /\
     stdout st' = stdout st) /\
    (status = LoopContinue -> buf st' = None ->
     exists s packet,
       0 < s /\
       slot_contents (shm st') (writer_cursor (shm st))
       = (8 + s, le_bytes 8 (logging_header T s) ++ packet) /\
       let record := log_record (logging_header T s) packet in
       let opened :=
         if logging_path
         then fh st' = Some record /\ time_microseconds_file_start st' = T /\
              path st' = T / 1000000
         else fh st' = None in
       match fh st with
       | Some written =>
           if bucket T >? bucket (time_microseconds_file_start st)
           then stdout st' = stdout st ++ [path st] /\ opened
           else stdout st' = stdout st /\ fh st' = Some (written ++ record) /\
                time_microseconds_file_start st' = time_microseconds_file_start st /\
                path st' = path st
       | None => stdout st' = stdout st /\ opened
       end) /\
    fh (main_exit st') = None /\
    stdout (main_exit st')
    = stdout st' ++ match fh st' with Some _ => [path st'] | None => [] end.
Proof.
  intros logging_path t5 t.
  apply (log_rotation logging_path fresh_program_ring [3; 7; 9; 0; 2; 5; 0] [t5] t).
  - reflexivity.
  - discriminate.
  - unfold is_byte. repeat constructor; lia.
Defined.

(** ** Replay: what a turn of bin_to_shm.c does with a record of the log *)

Lemma read_logging_header_bytes (h : Z) (rest : stream) :
  0 <= h < 2 ^ 64 ->
  read_logging_header (le_bytes 8 h ++ rest)
  = if h =? 0 then read_logging_header rest else (h, rest).
Proof.
  intros Hh.
  assert (Hvalue : le_value (le_bytes 8 h) = h).
  { rewrite le_value_bytes. apply Z.mod_small. exact Hh. }
  cbn [le_bytes app] in *. cbn [read_logging_header]. rewrite Hvalue. reflexivity.
Qed.

Lemma read_logging_header_zeros (k : nat) (input : stream) :
  read_logging_header (repeat 0 (8 * k) ++ input) = read_logging_header input.
Proof.
  induction k as [| k IH]; [reflexivity |].
  replace (8 * S k)%nat with (8 + 8 * k)%nat by lia.
  rewrite repeat_app, <- app_assoc. cbn [repeat app read_logging_header].
  exact IH.
Qed.

Lemma header_size_range (h : Z) : 0 <= header_size h < 65536.
Proof.
  unfold header_size. change 65535 with (Z.ones 16). rewrite Z.land_ones by lia.
  apply Z.mod_pos_bound. reflexivity.
Qed.

Lemma fread_item_app (item rest : stream) :
  item <> [] ->
  fread_item (Z.of_nat (length item)) (item ++ rest) = (true, item, rest).
Proof.
  intros Hitem. unfold fread_item.
  destruct (Z.eqb_spec (Z.of_nat (length item)) 0) as [Hzero | _].
  { destruct item; [contradiction | discriminate Hzero]. }
  rewrite Nat2Z.id.
  destruct (Nat.leb_spec (length item) (length (item ++ rest))) as [_ | Hlt].
  2:{ rewrite length_app in Hlt. lia. }
  rewrite firstn_app, Nat.sub_diag, firstn_O, app_nil_r, firstn_all.
  rewrite skipn_app, Nat.sub_diag, skipn_all. reflexivity.
Qed.

(** A turn of the replay loop on an input that starts with a header [h]
    and the [pad8] of its size in bytes after it. *)
Lemma replay_loop_body_record (st : replay) (h : Z) (body rest : stream) :
  0 < h < 2 ^ 64 ->
  Z.of_nat (length body) = pad8 (header_size h) ->
  0 < header_size h ->
  stdin st = le_bytes 8 h ++ body ++ rest ->
  let b := match replay_buf st with
           | Some b => b
           | None => shared_memory_ringbuffer_acquire (replay_shm st)
           end in
  let d1 := store_bytes (data (replay_shm st)) (b + 8) body in
  let d2 := if negb (pad8 (header_size h) =? header_size h)
            then memset d1 (b + 8 + header_size h) 0
                   (Z.to_nat (pad8 (header_size h) - header_size h))
            else d1 in
  replay_loop_body st
  = match shared_memory_ringbuffer_send (set_data (replay_shm st) d2) (8 + header_size h) with
    | None =>
        (LoopAbort,
         {| replay_shm := send_aborted (set_data (replay_shm st) d2) (8 + header_size h);
            replay_buf := Some b; stdin := rest |})
    | Some shm' => (LoopContinue, {| replay_shm := shm'; replay_buf := None; stdin := rest |})
    end.
Proof.
  intros Hh Hlen Hsize Hin b d1 d2. unfold replay_loop_body. fold b.
  rewrite Hin, read_logging_header_bytes by lia.
  destruct (Z.eqb_spec h 0) as [| _]; [lia |].
  rewrite <- Hlen, fread_item_app.
  - rewrite Hlen. reflexivity.
  - intros ->. pose proof (header_size_range h) as Hr.
    destruct (pad8_bounds (header_size h) ltac:(lia)) as [Hb _].
    cbn [length] in Hlen. lia.
Qed.

(** The slot after the stores of a replay turn: the body that [fread]
    stored 8 bytes into the slot's data, the zeros of the [memset], and
    the size that [send] stores in the prefix.  The 8 bytes of the header
    are not among the bytes written. *)
Lemma replay_slot_written (m : memory) (b s : Z) (body : list Z) :
  0 < s < 65536 ->
  Z.of_nat (length body) = pad8 s ->
  let d1 := store_bytes m (b + 8) body in
  let d2 := if negb (pad8 s =? s)
            then memset d1 (b + 8 + s) 0 (Z.to_nat (pad8 s - s)) else d1 in
  let final := store64 d2 (b - sizeof_slot) (8 + s) in
  load64 final (b - sizeof_slot) = 8 + s /\
  load_bytes final (b + 8) (Z.to_nat s) = firstn (Z.to_nat s) body /\
  load_bytes final (b + 8 + s) (Z.to_nat (pad8 s - s)) = repeat 0 (Z.to_nat (pad8 s - s)) /\
  forall x, x < b - 16 \/ (b - 8 <= x < b + 8) \/ b + 8 + pad8 s <= x -> final x = m x.
Proof.
  intros Hs Hlen d1 d2 final.
  destruct (pad8_bounds s ltac:(lia)) as [Hpad _].
  assert (Hprefix : forall x, b <= x -> final x = d2 x).
  { intros x Hx. subst final. unfold store64. apply store_bytes_outside.
    rewrite le_bytes_length. unfold sizeof_slot. lia. }
  assert (Hd2 : forall x, x < b + 8 + s -> d2 x = d1 x).
  { intros x Hx. subst d2. destruct (negb (pad8 s =? s)); [| reflexivity].
    apply store_bytes_outside. lia. }
  split; [| split; [| split]].
  - subst final. rewrite load_store64. apply wrap64_small. lia.
  - transitivity (load_bytes d1 (b + 8) (Z.to_nat s)).
    + apply load_bytes_ext. intros x Hx. rewrite Hprefix by lia. apply Hd2. lia.
    + rewrite (load_bytes_firstn _ _ _ (length body)) by lia. f_equal.
      apply load_store_bytes.
  - set (n := Z.to_nat (pad8 s - s)).
    transitivity (load_bytes final (b + 8 + s) (length (repeat 0 n)));
      [rewrite repeat_length; reflexivity |].
    apply (load_bytes_stored _ d1). intros x Hx. rewrite repeat_length in Hx.
    rewrite Hprefix by lia. subst d2.
    destruct (Z.eqb_spec (pad8 s) s) as [Heq | Hne]; cbn [negb]; [lia | reflexivity].
  - intros x Hx. subst final. unfold store64. rewrite store_bytes_outside.
    2:{ rewrite le_bytes_length. unfold sizeof_slot. lia. }
    subst d2. transitivity (d1 x).
    + destruct (negb _); [| reflexivity]. apply store_bytes_outside.
      rewrite repeat_length. lia.
    + subst d1. apply store_bytes_outside. lia.
Qed.

(** What a committed replay turn leaves in the ring. *)
Lemma replay_loop_body_commits (st : replay) (h : Z) (body rest : stream) :
  replay_buf st = None ->
  0 < cursor_wrap (replay_shm st) ->
  65552 <= max_slot_size (replay_shm st) ->
  0 < h < 2 ^ 64 ->
  0 < header_size h <= sizeof_packet ->
  Z.of_nat (length body) = pad8 (header_size h) ->
  stdin st = le_bytes 8 h ++ body ++ rest ->
  let b := shared_memory_ringbuffer_acquire (replay_shm st) in
  let s := header_size h in
  exists shm',
    replay_loop_body st
    = (LoopContinue, {| replay_shm := shm'; replay_buf := None; stdin := rest |}) /\
    cursor_wrap shm' = cursor_wrap (replay_shm st) /\
    max_slot_size shm' = max_slot_size (replay_shm st) /\
    writer_cursor shm'
    = wrap64 (writer_cursor (replay_shm st) + round_up 16 (sizeof_slot + 8 + s)) /\
    load64 (data shm') (b - sizeof_slot) = 8 + s /\
    load_bytes (data shm') (b + 8) (Z.to_nat s) = firstn (Z.to_nat s) body /\
    load_bytes (data shm') (b + 8 + s) (Z.to_nat (pad8 s - s))
    = repeat 0 (Z.to_nat (pad8 s - s)) /\
    forall x, x < b - 16 \/ (b - 8 <= x < b + 8) \/ b + 8 + pad8 s <= x ->
              data shm' x = data (replay_shm st) x.
Proof.
  intros Hbuf Hwrap Hmax Hh Hs Hlen Hin b s. unfold sizeof_packet in Hs.
  pose proof (replay_loop_body_record st h body rest Hh Hlen ltac:(lia) Hin) as Hbody.
  cbv zeta in Hbody. rewrite Hbuf in Hbody. fold b in Hbody.
  subst s. set (s := header_size h) in *.
  pose proof (replay_slot_written (data (replay_shm st)) b s body ltac:(lia) Hlen) as Hslotw.
  cbv zeta in Hslotw.
  set (d1 := store_bytes (data (replay_shm st)) (b + 8) body) in Hbody, Hslotw.
  set (d2 := if negb (pad8 s =? s)
             then memset d1 (b + 8 + s) 0 (Z.to_nat (pad8 s - s)) else d1) in Hbody, Hslotw.
  assert (Hpad16 : pad16 (sizeof_slot + (8 + s)) = round_up 16 (sizeof_slot + 8 + s)).
  { unfold sizeof_slot. rewrite pad16_round_up, wrap64_small.
    - f_equal. lia.
    - pose proof (round_up_bounds 16 (16 + (8 + s)) ltac:(lia)). lia. }
  assert (Hfits : round_up 16 (sizeof_slot + 8 + s) <= 65552).
  { apply round_up_le_multiple; [lia | reflexivity | unfold sizeof_slot; lia]. }
  destruct (shared_memory_ringbuffer_send (set_data (replay_shm st) d2) (8 + s))
    as [shm' |] eqn:Esend.
  2:{ unfold shared_memory_ringbuffer_send in Esend.
      rewrite load_store64, wrap64_small, Hpad16 in Esend by lia.
      cbn [max_slot_size set_data] in Esend.
      destruct (Z.leb_spec (round_up 16 (sizeof_slot + 8 + s))
                  (max_slot_size (replay_shm st))); [discriminate Esend | lia]. }
  exists shm'. split; [exact Hbody |].
  destruct (send_inversion _ _ _ Esend) as (_ & Hw & Hm & _ & Hc & Hd).
  rewrite (wrap64_small (8 + s)), Hpad16 in Hc by lia.
  cbn [cursor_wrap max_slot_size writer_cursor data set_data] in Hw, Hm, Hc, Hd.
  assert (Hslot : slot_offset (set_data (replay_shm st) d2) (writer_cursor (replay_shm st))
                  = b - sizeof_slot).
  { subst b. unfold shared_memory_ringbuffer_acquire, slot_offset. cbn. lia. }
  rewrite Hslot in Hd. rewrite Hd.
  split; [exact Hw |]. split; [exact Hm |]. split; [exact Hc |]. exact Hslotw.
Qed.

Lemma skipn_load_bytes (m : memory) (a : Z) (k n : nat) :
  skipn k (load_bytes m a (k + n)) = load_bytes m (a + Z.of_nat k) n.
Proof.
  rewrite load_bytes_app, skipn_app, load_bytes_length, Nat.sub_diag.
  rewrite skipn_all2 by (rewrite load_bytes_length; lia). reflexivity.
Qed.

Lemma log_record_body (h : Z) (payload : list Z) :
  Z.of_nat (length payload) < 2 ^ 63 ->
  let body := payload
              ++ repeat 0 (Z.to_nat (round_up 8 (Z.of_nat (length payload)))
                           - length payload)%nat in
  log_record h payload = le_bytes 8 h ++ body /\
  Z.of_nat (length body) = pad8 (Z.of_nat (length payload)) /\
  firstn (length payload) body = payload.
Proof.
  intros Hlen body. subst body. split; [reflexivity |]. split.
  - rewrite length_app, repeat_length, pad8_small by lia.
    pose proof (round_up_bounds 8 (Z.of_nat (length payload)) ltac:(lia)). lia.
  - rewrite firstn_app, Nat.sub_diag, firstn_O, app_nil_r. apply firstn_all.
Qed.

(** X10: a turn of the replay loop on an input that starts with a record
    of the log (a non-zero header whose low 16 bits are the length of the
    payload, between 1 and 65528, the payload, zeros up to a multiple of
    8) commits one slot and consumes exactly that record: the slot's size
    is 8 plus the payload's length, the payload sits 8 bytes into the
    slot's data, the cursor moves by the padded slot size, and no byte of
    the ring changes but the size prefix and the packet area. *)
Theorem replay_republishes_record (st : replay) (h : Z) (payload rest : stream) :
  replay_buf st = None ->
  0 < cursor_wrap (replay_shm st) ->
  65552 <= max_slot_size (replay_shm st) ->
  0 < h < 2 ^ 64 ->
  header_size h = Z.of_nat (length payload) ->
  0 < Z.of_nat (length payload) <= sizeof_packet ->
  stdin st = log_record h payload ++ rest ->
  let b := shared_memory_ringbuffer_acquire (replay_shm st) in
  let s := Z.of_nat (length payload) in
  exists st',
    replay_loop_body st = (LoopContinue, st') /\
    replay_buf st' = None /\
    stdin st' = rest /\
    writer_cursor (replay_shm st')
    = wrap64 (writer_cursor (replay_shm st) + round_up 16 (sizeof_slot + 8 + s)) /\
    load64 (data (replay_shm st')) (b - sizeof_slot) = 8 + s /\
    load_bytes (data (replay_shm st')) (b + 8) (length payload) = payload /\
    forall x, x < b - 16 \/ (b - 8 <= x < b + 8) \/ b + 8 + pad8 s <= x ->
              data (replay_shm st') x = data (replay_shm st) x.
Proof.
  intros Hbuf Hwrap Hmax Hh Hsize Hlen Hin b s.
  destruct (log_record_body h payload) as (Hrec & Hbody & Hfirst);
    [unfold sizeof_packet in Hlen; lia |].
  set (body := payload ++ _) in Hrec, Hbody, Hfirst.
  rewrite Hrec, <- app_assoc in Hin. rewrite <- Hsize in Hbody, Hlen.
  destruct (replay_loop_body_commits st h body rest Hbuf Hwrap Hmax Hh Hlen Hbody Hin)
    as (shm' & Hturn & _ & _ & Hc & Hs & Hload & _ & Hd).
  rewrite Hsize in Hc, Hs, Hload, Hd. rewrite Nat2Z.id, Hfirst in Hload.
  eexists. split; [exact Hturn |]. cbn [replay_buf stdin replay_shm].
  repeat split; assumption.
Qed.

Lemma replay_republishes_record_witness :
  let st := {| replay_shm := fresh_program_ring; replay_buf := None;
               stdin := log_record 131075 [7; 8; 9] ++ [1; 2] |} in
  exists st',
    replay_loop_body st = (LoopContinue, st') /\
    replay_buf st' = None /\
    stdin st' = [1; 2] /\
    writer_cursor (replay_shm st') = wrap64 (0 + round_up 16 (sizeof_slot + 8 + 3)) /\
    load64 (data (replay_shm st')) (16 - sizeof_slot) = 8 + 3 /\
    load_bytes (data (replay_shm st')) (16 + 8) 3 = [7; 8; 9] /\
    forall x, x < 16 - 16 \/ (16 - 8 <= x < 16 + 8) \/ 16 + 8 + pad8 3 <= x ->
              data (replay_shm st') x = data fresh_program_ring x.
Proof.
  intros st.
  apply (replay_republishes_record st 131075 [7; 8; 9] [1; 2]).
  - reflexivity.
  - reflexivity.
  - discriminate.
  - split; reflexivity.
  - reflexivity.
  - split; [reflexivity | discriminate].
  - reflexivity.
Defined.

(** X11: a record whose header announces more than 65528 bytes is never
    committed by the replay.  With the slots of the program's ring (65552
    bytes) the turn reads the padded body into the slot, zeroes the
    padding, stores the size in the slot's prefix and then fails the
    assert of [send]: the process is aborted with the writer cursor where
    it was, so that no reader is ever handed the slot, and the input
    consumed up to the end of the record. *)
Theorem replay_oversized_record_aborts (st : replay) (h : Z) (body rest : stream) :
  replay_buf st = None ->
  max_slot_size (replay_shm st) = 65552 ->
  0 < h < 2 ^ 64 ->
  sizeof_packet < header_size h ->
  Z.of_nat (length body) = pad8 (header_size h) ->
  stdin st = le_bytes 8 h ++ body ++ rest ->
  let b := shared_memory_ringbuffer_acquire (replay_shm st) in
  let s := header_size h in
  exists st',
    replay_loop_body st = (LoopAbort, st') /\
    replay_buf st' = Some b /\
    stdin st' = rest /\
    writer_cursor (replay_shm st') = writer_cursor (replay_shm st) /\
    load64 (data (replay_shm st')) (b - sizeof_slot) = 8 + s /\
    load_bytes (data (replay_shm st')) (b + 8) (Z.to_nat s) = firstn (Z.to_nat s) body /\
    forall x, x < b - 16 \/ (b - 8 <= x < b + 8) \/ b + 8 + pad8 s <= x ->
              data (replay_shm st') x = data (replay_shm st) x.
Proof.
  intros Hbuf Hmax Hh Hs Hlen Hin b s. unfold sizeof_packet in Hs.
  pose proof (header_size_range h) as Hrange.
  pose proof (replay_loop_body_record st h body rest Hh Hlen ltac:(lia) Hin) as Hbody.
  cbv zeta in Hbody. rewrite Hbuf in Hbody. fold b in Hbody.
  subst s. set (s := header_size h) in *.
  pose proof (replay_slot_written (data (replay_shm st)) b s body ltac:(lia) Hlen) as Hslotw.
  cbv zeta in Hslotw.
  set (d1 := store_bytes (data (replay_shm st)) (b + 8) body) in Hbody, Hslotw.
  set (d2 := if negb (pad8 s =? s)
             then memset d1 (b + 8 + s) 0 (Z.to_nat (pad8 s - s)) else d1) in Hbody, Hslotw.
  assert (Hsend : shared_memory_ringbuffer_send (set_data (replay_shm st) d2) (8 + s) = None).
  { unfold shared_memory_ringbuffer_send.
    rewrite load_store64, wrap64_small by lia. cbn [max_slot_size set_data].
    rewrite Hmax. unfold sizeof_slot. rewrite pad16_round_up, wrap64_small.
    - pose proof (round_up_bounds 16 (16 + (8 + s)) ltac:(lia)).
      destruct (Z.leb_spec (round_up 16 (16 + (8 + s))) 65552); [lia | reflexivity].
    - pose proof (round_up_bounds 16 (16 + (8 + s)) ltac:(lia)). lia. }
  rewrite Hsend in Hbody.
  eexists. split; [exact Hbody |]. cbn [replay_buf stdin replay_shm].
  unfold send_aborted. cbn [writer_cursor data set_data cursor_wrap].
  assert (Hslot : slot_offset (set_data (replay_shm st) d2) (writer_cursor (replay_shm st))
                  = b - sizeof_slot).
  { subst b. unfold shared_memory_ringbuffer_acquire, slot_offset. cbn. lia. }
  rewrite Hslot. destruct Hslotw as (H1 & H2 & _ & H4).
  repeat split; assumption.
Qed.

Lemma replay_oversized_record_aborts_witness :
  let st := {| replay_shm := fresh_program_ring; replay_buf := None;
               stdin := le_bytes 8 131071 ++ repeat 5 (Z.to_nat 65536) ++ [] |} in
  let b := shared_memory_ringbuffer_acquire (replay_shm st) in
  let s := header_size 131071 in
  exists st',
    replay_loop_body st = (LoopAbort, st') /\
    replay_buf st' = Some b /\
    stdin st' = [] /\
    writer_cursor (replay_shm st') = writer_cursor (replay_shm st) /\
    load64 (data (replay_shm st')) (b - sizeof_slot) = 8 + s /\
    load_bytes (data (replay_shm st')) (b + 8) (Z.to_nat s)
    = firstn (Z.to_nat s) (repeat 5 (Z.to_nat 65536)) /\
    forall x, x < b - 16 \/ (b - 8 <= x < b + 8) \/ b + 8 + pad8 s <= x ->
              data (replay_shm st') x = data (replay_shm st) x.
Proof.
  intros st.
  apply (replay_oversized_record_aborts st 131071 (repeat 5 (Z.to_nat 65536)) []).
  - reflexivity.
  - reflexivity.
  - split; reflexivity.
  - reflexivity.
  - rewrite repeat_length. vm_compute. reflexivity.
  - reflexivity.
Defined.

(** X12: the replay skips header words that are all zero: any number of
    8-byte zero words in front of the input changes nothing in what the
    turn does, neither its outcome nor the ring or the input it leaves. *)
Theorem replay_skips_zero_words
    (ring : shared_memory_ringbuffer) (b : option Z) (k : nat) (input : stream) :
  replay_loop_body {| replay_shm := ring; replay_buf := b;
                      stdin := repeat 0 (8 * k) ++ input |}
  = replay_loop_body {| replay_shm := ring; replay_buf := b; stdin := input |}.
Proof.
  unfold replay_loop_body. cbn [stdin replay_shm replay_buf].
  rewrite read_logging_header_zeros. reflexivity.
Qed.

(** X13: what the ingest logs, the replay republishes.  When a turn of the
    ingest loop opens a log file and appends a record to it, a turn of the
    replay loop that finds this record at the head of its input commits a
    slot of the same size, with the same packet behind the 8 header bytes,
    and consumes exactly the record. *)
Theorem logged_record_replays (t : turn) (st st' : pipeline) (log : list Z)
    (rst : replay) (rest : stream) :
  buf_acquired st ->
  Forall is_byte (fd_serial st) ->
  0 < cursor_wrap (shm st) ->
  65552 <= max_slot_size (shm st) ->
  0 <= current_time_in_unix_microseconds t < 2 ^ 52 ->
  fh st = None ->
  main_loop_body true t st = (LoopContinue, st') ->
  fh st' = Some log ->
  replay_buf rst = None ->
  0 < cursor_wrap (replay_shm rst) ->
  65552 <= max_slot_size (replay_shm rst) ->
  stdin rst = log ++ rest ->
  exists rst',
    replay_loop_body rst = (LoopContinue, rst') /\
    stdin rst' = rest /\
    let published := slot_contents (shm st') (writer_cursor (shm st)) in
    let replayed := slot_contents (replay_shm rst') (writer_cursor (replay_shm rst)) in
    fst replayed = fst published /\
    skipn 8 (snd replayed) = skipn 8 (snd published).
Proof.
  intros Hbuf Hfd Hwrap Hmax HT Hfh Hturn Hlog Hrbuf Hrwrap Hrmax Hin.
  set (b := shared_memory_ringbuffer_acquire (shm st)).
  destruct (read_escaped_frame_total (data (shm st)) (b + 8) sizeof_packet (fd_serial st))
    as [r Hr].
  destruct (frame_loop_inside (S (length (fd_serial st))) (data (shm st)) (b + 8)
              sizeof_packet (b + 8) 0%nat (fd_serial st) r Hfd ltac:(lia)
              (or_introl eq_refl) Hr) as [Hret _].
  unfold sizeof_packet in Hret.
  assert (Hcase : sig_after_read t = false /\ sig_after_clock t = false /\ 0 < frame_ret r).
  { unfold main_loop_body in Hturn.
    replace (match buf st with Some b0 => b0 | None => _ end) with b in Hturn
      by (unfold buf_acquired in Hbuf; destruct (buf st); [symmetry; exact Hbuf | reflexivity]).
    rewrite Hr in Hturn.
    destruct (sig_after_read t); [discriminate Hturn |].
    destruct (Z.eqb_spec (frame_ret r) (-1)); [discriminate Hturn |].
    destruct (Z.eqb_spec (frame_ret r) 0).
    { injection Hturn as <-. cbn [fh] in Hlog. congruence. }
    destruct (sig_after_clock t); [discriminate Hturn |].
    repeat split. lia. }
  destruct Hcase as (Hsig1 & Hsig2 & Hpos).
  destruct (main_loop_body_publishes t st r Hbuf Hwrap Hmax Hsig1 Hsig2 Hr
              ltac:(unfold sizeof_packet; lia))
    as (st'' & Hturn' & _ & _ & Hslot & Hfile & _).
  rewrite Hturn in Hturn'. injection Hturn' as <-.
  fold b in Hslot, Hfile.
  set (T := current_time_in_unix_microseconds t) in *.
  set (h := logging_header T (frame_ret r)) in *.
  set (packet := frame_payload (b + 8) r) in *.
  assert (Hrot : fh (rotate_log T st) = None).
  { unfold rotate_log. rewrite Hfh. exact Hfh. }
  rewrite Hrot, Hlog in Hfile. cbn [app] in Hfile. injection Hfile as ->.
  assert (Hlen : Z.of_nat (length packet) = frame_ret r).
  { subst packet. unfold frame_payload. rewrite load_bytes_length. lia. }
  destruct (header_fields T (frame_ret r) ltac:(lia) HT) as [Hsize _].
  fold h in Hsize.
  assert (Hh : 0 < h < 2 ^ 64).
  { subst h. rewrite logging_header_value by lia.
    assert (0 <= T / 16 < 2 ^ 48)
      by (split; [apply Z.div_pos | apply Z.div_lt_upper_bound]; lia).
    lia. }
  destruct (log_record_body h packet) as (Hrec & Hbody & Hfirst); [lia |].
  set (body := packet ++ _) in Hrec, Hbody, Hfirst.
  rewrite Hrec, <- app_assoc in Hin. rewrite Hlen, <- Hsize in Hbody.
  destruct (replay_loop_body_commits rst h body rest Hrbuf Hrwrap Hrmax Hh
              ltac:(rewrite Hsize; unfold sizeof_packet; lia) Hbody Hin)
    as (shm' & Hrturn & Hw & _ & _ & Hs & Hload & _ & _).
  eexists. split; [exact Hrturn |]. split; [reflexivity |].
  cbn [replay_shm]. rewrite Hslot. cbn [fst snd].
  unfold slot_contents, slot_offset. rewrite Hw.
  assert (Hoff : writer_cursor (replay_shm rst) mod cursor_wrap (replay_shm rst)
                 = shared_memory_ringbuffer_acquire (replay_shm rst) - sizeof_slot).
  { unfold shared_memory_ringbuffer_acquire, slot_offset. lia. }
  rewrite Hoff, Hs, Hsize. cbn [fst snd]. split; [reflexivity |].
  replace (Z.to_nat (8 + frame_ret r)) with (8 + length packet)%nat by lia.
  rewrite skipn_load_bytes.
  replace (skipn 8 (le_bytes 8 h ++ packet)) with packet
    by (rewrite skipn_app, le_bytes_length; reflexivity).
  rewrite Hsize in Hload.
  replace (Z.to_nat (frame_ret r)) with (length packet) in Hload by lia.
  rewrite Hfirst in Hload. etransitivity; [| exact Hload].
  f_equal. unfold sizeof_slot. lia.
Qed.

Lemma logged_record_replays_witness :
  let t := {| sig_after_read := false; current_time_in_unix_microseconds := 25000000;
              sig_after_clock := false |} in
  let st := main_start fresh_program_ring [3; 7; 9; 0] in
  let st' := snd (main_loop_body true t st) in
  let log := log_record (logging_header 25000000 2) [7; 9] in
  let rst := {| replay_shm := fresh_program_ring; replay_buf := None;
                stdin := log ++ [] |} in
  exists rst',
    replay_loop_body rst = (LoopContinue, rst') /\
    stdin rst' = [] /\
    let published := slot_contents (shm st') (writer_cursor (shm st)) in
    let replayed := slot_contents (replay_shm rst') (writer_cursor (replay_shm rst)) in
    fst replayed = fst published /\
    skipn 8 (snd replayed) = skipn 8 (snd published).
Proof.
  intros t st st' log rst.
  apply (logged_record_replays t st st' log rst []).
  - exact I.
  - unfold st, main_start, is_byte. cbn [fd_serial]. repeat constructor; lia.
  - reflexivity.
  - discriminate.
  - split; [discriminate | reflexivity].
  - reflexivity.
  - subst st'. destruct (main_loop_body true t st) as [status st1] eqn:E.
    assert (Hs : status = LoopContinue)
      by (change status with (fst (status, st1)); rewrite <- E; vm_compute; reflexivity).
    rewrite Hs. reflexivity.
  - vm_compute. reflexivity.
  - reflexivity.
  - reflexivity.
  - discriminate.
  - reflexivity.
Defined.

(** ** readall: short reads are gathered *)

Lemma store_bytes_app (xs ys : list Z) (m : memory) (a : Z) :
  store_bytes m a (xs ++ ys)
  = store_bytes (store_bytes m a xs) (a + Z.of_nat (length xs)) ys.
Proof.
  revert m a. induction xs as [| x xs IH]; intros m a.
  - cbn [app store_bytes length]. now rewrite Z.add_0_r.
  - cbn [app store_bytes length]. rewrite IH. f_equal. lia.
Qed.

Lemma firstn_add (A : Type) (g n : nat) (l : list A) :
  firstn (g + n) l = firstn g l ++ firstn n (skipn g l).
Proof.
  revert l. induction g as [| g IH]; intros l; [reflexivity |].
  destruct l as [| x l]; cbn [Nat.add firstn skipn app].
  - now rewrite firstn_nil.
  - now rewrite IH.
Qed.

Lemma Forall_skipn_bytes (n : nat) (l : list Z) :
  Forall is_byte l -> Forall is_byte (skipn n l).
Proof.
  intros H. rewrite <- (firstn_skipn n l) in H. apply Forall_app in H. tauto.
Qed.

(** One [read] that finds data: what it returns is a non-empty prefix of
    the bytes available, and the rest stays available. *)
Lemma sys_read_data (b : Z) (bytes : list Z) (fd : descriptor) (count : nat) :
  (0 < count)%nat ->
  let '(now, got, fd') := sys_read (ReadData (b :: bytes) :: fd) count in
  let all := available (ReadData (b :: bytes) :: fd) in
  now = Z.of_nat (length got) /\
  (0 < length got <= count)%nat /\
  got = firstn (length got) all /\
  available fd' = skipn (length got) all /\
  (length got < count -> length got = length (b :: bytes))%nat /\
  ending fd' = ending (ReadData (b :: bytes) :: fd) /\
  (descriptor_bytes (ReadData (b :: bytes) :: fd) -> descriptor_bytes fd').
Proof.
  intros Hcount. cbn [sys_read available ending].
  set (chunk := b :: bytes).
  assert (Hgot : length (firstn count chunk) = Nat.min count (length chunk))
    by apply length_firstn.
  assert (Hchunk : (0 < length chunk)%nat) by (cbn; lia).
  split; [reflexivity |]. split; [lia |].
  split; [| split; [| split; [lia | split]]].
  - rewrite firstn_app, Hgot.
    replace (Nat.min count (length chunk) - length chunk)%nat with 0%nat by lia.
    rewrite firstn_O, app_nil_r.
    destruct (Nat.le_ge_cases count (length chunk)) as [Hle | Hge].
    + now rewrite Nat.min_l by exact Hle.
    + rewrite Nat.min_r by exact Hge. now rewrite !firstn_all2 by lia.
  - rewrite skipn_app, Hgot.
    destruct (Nat.le_gt_cases (length chunk) count) as [Hle | Hgt].
    + rewrite (skipn_all2 chunk) by exact Hle.
      rewrite Nat.min_r by exact Hle.
      rewrite skipn_all, Nat.sub_diag. reflexivity.
    + rewrite Nat.min_l by lia.
      replace (count - length chunk)%nat with 0%nat by lia. cbn [skipn].
      destruct (skipn count chunk) as [| x rest] eqn:Eskip.
      * apply (f_equal (@length Z)) in Eskip. rewrite length_skipn in Eskip.
        cbn [length] in Eskip. lia.
      * reflexivity.
  - destruct (skipn count chunk); reflexivity.
  - intros Hbytes. inversion Hbytes as [| ? ? Hchunkb Hfd]; subst.
    pose proof (Forall_skipn_bytes count chunk Hchunkb) as Hskip.
    destruct (skipn count chunk); [exact Hfd | constructor; assumption].
Qed.

(** The [read] of one byte, when one is available. *)
Lemma sys_read_one (fd : descriptor) (c : Z) (rest : list Z) :
  available fd = c :: rest ->
  exists fd1,
    sys_read fd 1 = (1, [c], fd1) /\ available fd1 = rest /\ ending fd1 = ending fd.
Proof.
  intros Hav. destruct fd as [| [[| b bytes] | |] fd]; try discriminate Hav.
  cbn [available app] in Hav. injection Hav as -> <-.
  cbn [sys_read firstn skipn length]. destruct bytes as [| b' bytes].
  - exists fd. repeat split.
  - exists (ReadData (b' :: bytes) :: fd). repeat split.
Qed.

(** The [read] that finds nothing on a descriptor that ends with an
    error. *)
Lemma sys_read_error (fd : descriptor) (count : nat) :
  available fd = [] -> ending fd = -1 ->
  exists fd1, sys_read fd count = (-1, [], fd1).
Proof.
  intros Hav Hend. destruct fd as [| [[| b bytes] | |] fd]; try discriminate.
  - exists []. reflexivity.
  - exists fd. reflexivity.
Qed.

(** The loop of [readall] from any point on. *)
Lemma readall_loop_gathers (buf : Z) (size : nat) (fuel : nat) :
  forall (fd : descriptor) (m : memory) (size_read : nat),
    (size_read <= size)%nat ->
    (size - size_read < fuel)%nat ->
    exists ret fd',
      let all := available fd in
      let n := Nat.min (size - size_read) (length all) in
      readall_loop fuel fd m buf size size_read
      = Some (ret, store_bytes m (buf + Z.of_nat size_read) (firstn n all), fd') /\
      (descriptor_bytes fd -> descriptor_bytes fd') /\
      ((size - size_read <= length all)%nat ->
       ret = to_ssize (Z.of_nat size) /\
       available fd' = skipn (size - size_read) all /\
       ending fd' = ending fd) /\
      ((length all < size - size_read)%nat ->
       ret = if ending fd =? -1 then -1 else Z.of_nat (size_read + length all)).
Proof.
  induction fuel as [| fuel IH]; intros fd m size_read Hle Hfuel; [lia |].
  cbn [readall_loop].
  destruct (Nat.ltb_spec size_read size) as [Hlt | Hge].
  2:{ exists (to_ssize (Z.of_nat size)), fd. cbv zeta.
      replace (size - size_read)%nat with 0%nat by lia.
      cbn [Nat.min firstn store_bytes skipn]. split; [reflexivity |].
      split; [tauto |]. split; [intros _; repeat split | lia]. }
  destruct fd as [| [[| b bytes] | |] fd].
  - exists (-1), []. cbn. rewrite Nat.min_0_r. cbn. split; [reflexivity |].
    split; [tauto |]. split; [lia | intros _; reflexivity].
  - exists (Z.of_nat size_read), fd. cbn [sys_read available length ending].
    rewrite firstn_nil, skipn_nil, Nat.min_0_r. cbn.
    split; [reflexivity |].
    split; [intros Hb; now inversion Hb |].
    split; [lia | intros _; f_equal; lia].
  - pose proof (sys_read_data b bytes fd (size - size_read) ltac:(lia)) as Hread.
    destruct (sys_read (ReadData (b :: bytes) :: fd) (size - size_read))
      as [[now got] fd1].
    set (all := available (ReadData (b :: bytes) :: fd)) in *.
    cbv zeta in Hread.
    destruct Hread as (Hnow & Hgot & Hprefix & Hrest & Hshort & Hend & Hbytes).
    destruct (Z.eqb_spec now (-1)) as [| _]; [lia |].
    destruct (Z.eqb_spec now 0) as [| _]; [lia |].
    destruct (IH fd1 (store_bytes m (buf + Z.of_nat size_read) got)
                (size_read + length got)%nat ltac:(lia) ltac:(lia))
      as (ret & fd' & Hloop & Hbytes' & Hfull & Hpart).
    cbv zeta in Hloop. rewrite Hrest in Hloop, Hfull, Hpart.
    rewrite length_skipn in Hloop, Hfull, Hpart.
    assert (Hall : (length got <= length all)%nat).
    { pose proof (f_equal (@length Z) Hprefix) as Hl. rewrite length_firstn in Hl. lia. }
    exists ret, fd'. cbv zeta. split; [| split; [| split]].
    + rewrite Hloop. f_equal. f_equal. f_equal.
      replace (Nat.min (size - size_read) (length all))
        with (length got
              + Nat.min (size - (size_read + length got)) (length all - length got))%nat
        by lia.
      rewrite firstn_add, <- Hprefix, store_bytes_app. f_equal. lia.
    + intros Hb. apply Hbytes', Hbytes, Hb.
    + intros Hlen. destruct (Hfull ltac:(lia)) as (Hret & Hav & Hend'). split; [exact Hret |].
      split; [| congruence].
      rewrite Hav, skipn_skipn. f_equal. lia.
    + intros Hlen. specialize (Hpart ltac:(lia)). rewrite Hend in Hpart. rewrite Hpart.
      destruct (_ =? -1); [reflexivity |]. f_equal. lia.
  - exists (Z.of_nat size_read), (ReadEof :: fd). cbn. rewrite Nat.min_0_r. cbn.
    split; [reflexivity |]. split; [tauto |]. split; [lia | intros _; f_equal; lia].
  - exists (-1), fd. cbn. rewrite Nat.min_0_r. cbn. split; [reflexivity |].
    split; [intros Hb; now inversion Hb |].
    split; [lia | intros _; reflexivity].
Qed.

(** [readall] in terms of the bytes available. *)
Lemma readall_available (fd : descriptor) (m : memory) (buf : Z) (size : nat) :
  exists ret fd',
    let all := available fd in
    readall fd m buf size = Some (ret, store_bytes m buf (firstn size all), fd') /\
    (descriptor_bytes fd -> descriptor_bytes fd') /\
    ((size <= length all)%nat ->
     ret = to_ssize (Z.of_nat size) /\ available fd' = skipn size all /\
     ending fd' = ending fd) /\
    ((length all < size)%nat ->
     ret = if ending fd =? -1 then -1 else Z.of_nat (length all)).
Proof.
  unfold readall.
  destruct (readall_loop_gathers buf size (S size) fd m 0 ltac:(lia) ltac:(lia))
    as (ret & fd' & Hloop & Hbytes & Hfull & Hpart).
  cbv zeta in Hloop. rewrite Nat.sub_0_r, Z.add_0_r in *.
  exists ret, fd'. cbv zeta. split; [| split; [exact Hbytes | split]].
  - rewrite Hloop. do 3 f_equal.
    destruct (Nat.le_ge_cases size (length (available fd))) as [Hle | Hge].
    + now rewrite Nat.min_l by exact Hle.
    + rewrite Nat.min_r by exact Hge. now rewrite !firstn_all2 by lia.
  - exact Hfull.
  - intros Hlen. rewrite (Hpart Hlen). reflexivity.
Qed.

(** X14: [readall] gathers short reads.  However the bytes that a
    descriptor delivers are cut into [read] results, a request that the
    available bytes can fill returns [size], stores exactly the first
    [size] of them at [buf] and leaves the others to be read; a request
    they cannot fill stores all of them and returns -1 when the data ends
    with an error, and their number when it ends with the end of the
    file.  The loop always returns. *)
Theorem readall_gathers_short_reads (fd : descriptor) (m : memory) (buf : Z) (size : nat) :
  Z.of_nat size < 2 ^ 63 ->
  exists ret fd',
    let all := available fd in
    readall fd m buf size
    = Some (ret, store_bytes m buf (firstn size all), fd') /\
    ((size <= length all)%nat ->
     ret = Z.of_nat size /\ available fd' = skipn size all /\ ending fd' = ending fd) /\
    ((length all < size)%nat ->
     (ending fd = -1 -> ret = -1) /\
     (ending fd = 0 -> ret = Z.of_nat (length all)) /\
     (ending fd = -1 \/ ending fd = 0)).
Proof.
  intros Hsize.
  destruct (readall_available fd m buf size) as (ret & fd' & Hread & _ & Hfull & Hpart).
  exists ret, fd'. cbv zeta in *. split; [exact Hread |]. split.
  - intros Hlen. destruct (Hfull Hlen) as (Hret & Hav & Hend).
    rewrite to_ssize_small in Hret by exact Hsize. repeat split; assumption.
  - intros Hlen. rewrite (Hpart Hlen). split; [| split].
    + intros ->. reflexivity.
    + intros ->. reflexivity.
    + clear. induction fd as [| [[| b bytes] | |] fd IH]; cbn [ending]; tauto.
Qed.

Lemma readall_gathers_short_reads_witness :
  exists ret fd',
    let fd := [ReadData [1]; ReadData [2; 3]; ReadData [4; 5; 6]; ReadEof] in
    let all := available fd in
    readall fd (fun _ => 0) 100 4
    = Some (ret, store_bytes (fun _ => 0) 100 (firstn 4 all), fd') /\
    ((4 <= length all)%nat ->
     ret = Z.of_nat 4 /\ available fd' = skipn 4 all /\ ending fd' = ending fd) /\
    ((length all < 4)%nat ->
     (ending fd = -1 -> ret = -1) /\
     (ending fd = 0 -> ret = Z.of_nat (length all)) /\
     (ending fd = -1 \/ ending fd = 0)).
Proof.
  apply (readall_gathers_short_reads
           [ReadData [1]; ReadData [2; 3]; ReadData [4; 5; 6]; ReadEof] (fun _ => 0) 100 4).
  reflexivity.
Defined.

(** ** The decoder on a descriptor *)

(** The discarding loop on a descriptor does what it does on the bytes
    available: it stops after their first zero byte, and when they hold
    none and the descriptor ends with an error it returns -1. *)
Lemma discard_loop_available (fuel : nat) :
  forall (fd : descriptor) (code : Z),
    (length (available fd) < fuel)%nat ->
    match discard_until_zero (available fd) with
    | Some rest =>
        exists fd2, discard_loop fuel fd code = Some (true, fd2) /\
                    available fd2 = rest /\ ending fd2 = ending fd
    | None =>
        ending fd = -1 -> exists fd2, discard_loop fuel fd code = Some (false, fd2)
    end.
Proof.
  induction fuel as [| fuel IH]; intros fd code Hfuel; [lia |].
  destruct (available fd) as [| c rest] eqn:Hav; cbn [discard_until_zero discard_loop].
  - intros Hend. destruct (sys_read_error fd 1 Hav Hend) as [fd1 ->].
    cbn. now exists fd1.
  - destruct (sys_read_one fd c rest Hav) as (fd1 & -> & Hav1 & Hend1).
    cbn [Z.eqb Pos.eqb]. cbn [length] in Hfuel.
    destruct (Z.eqb_spec c 0) as [-> | Hc].
    + exists fd1. repeat split; assumption.
    + specialize (IH fd1 c ltac:(rewrite Hav1; lia)). rewrite Hav1, Hend1 in IH.
      exact IH.
Qed.

(** The decoder on a descriptor returns what the decoder on the bytes
    available returns, whenever that is a length, and also when it is -1
    and the descriptor ends with an error. *)
Lemma frame_loop_fd_available (indeterminate : nat -> Z) (fuel : nat) :
  forall (fd : descriptor) (m : memory) (out max dst : Z) (w : nat) (r : frame_result),
    Forall is_byte (available fd) ->
    (length (available fd) < fuel)%nat ->
    frame_loop fuel m out max dst w (available fd) = Some r ->
    frame_ret r <> -1 \/ ending fd = -1 ->
    exists fd',
      frame_loop_fd indeterminate fuel fd m out max dst w
      = Some {| fd_ret := frame_ret r; fd_mem := frame_mem r; fd_rest := fd';
                fd_warnings := frame_warnings r |} /\
      (frame_ret r <> -1 -> available fd' = frame_fd r /\ ending fd' = ending fd).
Proof.
  induction fuel as [| fuel IH]; intros fd m out max dst w r Hbytes Hfuel Hloop Hend;
    [lia |].
  cbn [frame_loop frame_loop_fd] in *.
  destruct (available fd) as [| code s1] eqn:Hav.
  { injection Hloop as <-. cbn in *.
    destruct Hend as [Hend | Hend]; [contradiction |].
    destruct (sys_read_error fd 1 Hav Hend) as [fd1 ->]. cbn.
    exists fd1. split; [reflexivity | intros; contradiction]. }
  destruct (sys_read_one fd code s1 Hav) as (fd1 & -> & Hav1 & Hend1).
  cbn [Z.eqb Pos.eqb]. cbn [length] in Hfuel.
  inversion Hbytes as [| ? ? Hcode Hs1]; subst. unfold is_byte in Hcode.
  rewrite <- Hend1 in Hend.
  assert (Hfuel1 : (length (available fd1) < fuel)%nat) by lia.
  destruct (Z.eqb_spec code 0) as [-> | Hnz].
  { injection Hloop as <-. cbn. exists fd1. split; [reflexivity |].
    intros _. split; [reflexivity | exact Hend1]. }
  destruct (Z.gtb_spec (dst - out + code) max) as [Hlong | Hfit].
  - pose proof (discard_loop_available fuel fd1 code Hfuel1) as Hdisc.
    destruct (discard_until_zero (available fd1)) as [s2 |] eqn:E.
    + destruct Hdisc as (fd2 & -> & Hav2 & Hend2).
      destruct (discard_until_zero_split _ _ E) as [junk Hsplit].
      rewrite <- Hav2 in Hloop.
      destruct (IH fd2 m out max out (S w) r) as (fd' & Hrun & Hrest).
      * rewrite Hav2. rewrite Hsplit in Hs1. apply Forall_app in Hs1.
        destruct Hs1 as [_ Hs1]. now inversion Hs1.
      * apply (f_equal (@length Z)) in Hsplit. rewrite length_app in Hsplit.
        cbn [length] in Hsplit. rewrite Hav2. lia.
      * exact Hloop.
      * rewrite Hend2. exact Hend.
      * exists fd'. split; [exact Hrun |]. intros Hret.
        destruct (Hrest Hret) as [Hfd Hend']. split; congruence.
    + injection Hloop as <-. cbn in *.
      destruct Hend as [Hend | Hend]; [contradiction |].
      destruct (Hdisc Hend) as [fd2 ->]. exists fd2.
      split; [reflexivity | intros; contradiction].
  - set (size := Z.to_nat (code - 1)) in *.
    destruct (readall_available fd1 m dst size) as (ret & fd2 & Hread & _ & Hfull & Hpart).
    cbv zeta in Hread. rewrite Hread.
    assert (Hchunk : length (firstn size (available fd1))
                     = Nat.min size (length (available fd1))) by apply length_firstn.
    destruct (Nat.ltb_spec (length (firstn size (available fd1))) size) as [Hshort | Hlong].
    + injection Hloop as <-. cbn in *.
      destruct Hend as [Hend | Hend]; [contradiction |].
      rewrite (Hpart ltac:(lia)), Hend. cbn.
      exists fd2. split; [reflexivity | intros; contradiction].
    + destruct (Hfull ltac:(lia)) as (Hret & Hav2 & Hend2).
      rewrite to_ssize_small in Hret by (subst size; lia).
      destruct (Z.eqb_spec ret (-1)) as [| _]; [lia |].
      rewrite <- Hav2 in Hloop.
      assert (Hs2 : Forall is_byte (available fd2))
        by (rewrite Hav2; now apply Forall_skipn_bytes).
      assert (Hfuel2 : (length (available fd2) < fuel)%nat)
        by (rewrite Hav2, length_skipn; lia).
      rewrite <- Hend2 in Hend.
      destruct (Z.eqb_spec code 255) as [-> | Hne].
      * destruct (IH fd2 _ out max _ w r Hs2 Hfuel2 Hloop Hend) as (fd' & Hrun & Hrest).
        exists fd'. split; [exact Hrun |]. intros Hr.
        destruct (Hrest Hr) as [Hfd Hend']. split; congruence.
      * destruct (IH fd2 _ out max _ w r Hs2 Hfuel2 Hloop Hend) as (fd' & Hrun & Hrest).
        exists fd'. split; [exact Hrun |]. intros Hr.
        destruct (Hrest Hr) as [Hfd Hend']. split; congruence.
Qed.

(** Any [read]: the bytes stored are bytes of the descriptor, and the
    descriptor afterwards delivers bytes only. *)
Lemma sys_read_bytes (fd : descriptor) (count : nat) :
  descriptor_bytes fd ->
  let '(now, got, fd1) := sys_read fd count in
  Forall is_byte got /\ descriptor_bytes fd1.
Proof.
  intros Hbytes. destruct fd as [| [bytes | |] fd]; cbn [sys_read].
  - split; constructor.
  - inversion Hbytes as [| ? ? Hb Hfd]; subst. split.
    + rewrite <- (firstn_skipn count bytes) in Hb. apply Forall_app in Hb. tauto.
    + pose proof (Forall_skipn_bytes count bytes Hb) as Hskip.
      destruct (skipn count bytes); [exact Hfd | constructor; assumption].
  - split; [constructor | exact Hbytes].
  - inversion Hbytes; subst. split; [constructor | assumption].
Qed.

Lemma discard_loop_bytes (fuel : nat) :
  forall (fd fd2 : descriptor) (code : Z) (found : bool),
    descriptor_bytes fd ->
    discard_loop fuel fd code = Some (found, fd2) ->
    descriptor_bytes fd2.
Proof.
  induction fuel as [| fuel IH]; intros fd fd2 code found Hbytes Hloop;
    [discriminate Hloop |].
  cbn [discard_loop] in Hloop.
  pose proof (sys_read_bytes fd 1 Hbytes) as Hread.
  destruct (sys_read fd 1) as [[now got] fd1]. destruct Hread as [_ Hfd1].
  destruct (now =? -1); [injection Hloop as _ <-; exact Hfd1 |].
  destruct (_ =? 0); [injection Hloop as _ <-; exact Hfd1 |].
  exact (IH _ _ _ _ Hfd1 Hloop).
Qed.

(** The decoder on a descriptor keeps inside [out, out + max_plain_size)
    and returns less than [max_plain_size], from any point of its loop
    where [dst] is inside, whatever the [read] calls return and whatever
    the indeterminate values of [code] are. *)
Lemma frame_loop_fd_inside (indeterminate : nat -> Z) (fuel : nat) :
  (forall n, is_byte (indeterminate n)) ->
  forall (fd : descriptor) (m : memory) (out max dst : Z) (w : nat) (r : descriptor_frame),
    descriptor_bytes fd ->
    out <= dst -> (dst = out \/ dst - out <= max) ->
    frame_loop_fd indeterminate fuel fd m out max dst w = Some r ->
    -1 <= fd_ret r <= Z.max 0 (max - 1) /\
    (forall x, x < out \/ out + max <= x -> fd_mem r x = m x).
Proof.
  intros Hind.
  induction fuel as [| fuel IH]; intros fd m out max dst w r Hbytes Hdst Hin Hloop;
    [discriminate Hloop |].
  cbn [frame_loop_fd] in Hloop.
  pose proof (sys_read_bytes fd 1 Hbytes) as Hread.
  destruct (sys_read fd 1) as [[now got] fd1]. destruct Hread as [Hgot Hfd1].
  destruct (now =? -1).
  { injection Hloop as <-. cbn. split; [lia | reflexivity]. }
  set (code := match got with c :: _ => c | [] => indeterminate fuel end) in *.
  assert (Hcode : is_byte code).
  { subst code. destruct got as [| c got]; [apply Hind | now inversion Hgot]. }
  unfold is_byte in Hcode.
  destruct (Z.eqb_spec code 0) as [Hz | Hnz].
  { injection Hloop as <-. cbn. split; [| reflexivity].
    destruct (Z.gtb_spec dst out); lia. }
  destruct (Z.gtb_spec (dst - out + code) max) as [Hlong | Hfit].
  - destruct (discard_loop fuel fd1 code) as [[found fd2] |] eqn:E; [| discriminate Hloop].
    pose proof (discard_loop_bytes _ _ _ _ _ Hfd1 E) as Hfd2.
    destruct found.
    + apply (IH fd2 m out max out (S w) r); try lia; assumption.
    + injection Hloop as <-. cbn. split; [lia | reflexivity].
  - set (size := Z.to_nat (code - 1)) in *.
    destruct (readall_available fd1 m dst size) as (ret & fd2 & Hreadall & Hfd2 & _).
    cbv zeta in Hreadall. rewrite Hreadall in Hloop. specialize (Hfd2 Hfd1).
    set (chunk := firstn size (available fd1)) in *.
    assert (Hchunk : (length chunk <= size)%nat) by apply firstn_le_length.
    assert (Hstore : forall x, x < out \/ out + max <= x ->
                       store_bytes m dst chunk x = m x).
    { intros x Hx. apply store_bytes_outside. lia. }
    destruct (ret =? -1).
    { injection Hloop as <-. cbn. split; [lia | exact Hstore]. }
    destruct (Z.eqb_spec code 255) as [E255 | Hne].
    + apply IH in Hloop; [| assumption | lia | lia]. destruct Hloop as [Hret Hmem].
      split; [exact Hret |]. intros x Hx. rewrite Hmem by exact Hx. now apply Hstore.
    + apply IH in Hloop; [| assumption | lia | lia]. destruct Hloop as [Hret Hmem].
      split; [exact Hret |]. intros x Hx. rewrite Hmem by exact Hx.
      unfold store. destruct (Z.eqb_spec x (dst + (code - 1))); [lia |].
      now apply Hstore.
Qed.

(** On a descriptor that ends with an error, the decoder returns. *)
Lemma frame_loop_fd_total (indeterminate : nat -> Z) (fuel : nat)
    (fd : descriptor) (m : memory) (out max dst : Z) (w : nat) :
  Forall is_byte (available fd) ->
  ending fd = -1 ->
  (length (available fd) < fuel)%nat ->
  exists r, frame_loop_fd indeterminate fuel fd m out max dst w = Some r.
Proof.
  intros Hbytes Hend Hfuel.
  destruct (frame_loop_total (length (available fd)) (available fd) fuel m out max dst w
              ltac:(lia) Hfuel) as [r Hr].
  destruct (frame_loop_fd_available indeterminate fuel fd m out max dst w r
              Hbytes Hfuel Hr (or_intror Hend)) as (fd' & Hrun & _).
  eexists. exact Hrun.
Qed.

(** At the end of the file every [read] returns 0 and stores nothing: the
    decoder works on indeterminate values of [code].  It returns only if
    one of them is 0, and then a length, never -1; with none of them 0 it
    stays in the discarding loop. *)
Lemma discard_loop_at_eof (fuel : nat) (fd : descriptor) (code : Z) :
  code <> 0 -> discard_loop fuel (ReadEof :: fd) code = None.
Proof.
  intros Hcode. induction fuel as [| fuel IH]; [reflexivity |].
  cbn [discard_loop sys_read]. cbn [Z.eqb].
  destruct (Z.eqb_spec code 0); [contradiction | exact IH].
Qed.

Lemma frame_loop_fd_at_eof (indeterminate : nat -> Z) (fuel : nat) (fd : descriptor) :
  forall (m : memory) (out max dst : Z) (w : nat) (r : descriptor_frame),
    frame_loop_fd indeterminate fuel (ReadEof :: fd) m out max dst w = Some r ->
    fd_ret r <> -1 /\ fd_rest r = ReadEof :: fd /\ fd_warnings r = w /\
    exists n, (n < fuel)%nat /\ indeterminate n = 0.
Proof.
  induction fuel as [| fuel IH]; intros m out max dst w r Hloop; [discriminate Hloop |].
  cbn [frame_loop_fd sys_read] in Hloop. cbn [Z.eqb] in Hloop.
  destruct (Z.eqb_spec (indeterminate fuel) 0) as [Hz | Hnz].
  { injection Hloop as <-. cbn. split; [destruct (dst >? out) eqn:E; lia |].
    split; [reflexivity |]. split; [reflexivity |]. exists fuel. split; [lia | exact Hz]. }
  destruct (_ >? max).
  { rewrite discard_loop_at_eof in Hloop by exact Hnz. discriminate Hloop. }
  assert (Hreadall : forall size, exists ret,
             readall (ReadEof :: fd) m dst size = Some (ret, m, ReadEof :: fd) /\ ret <> -1).
  { intros size. unfold readall. cbn [readall_loop].
    destruct (Nat.ltb_spec 0 size) as [Hpos | Hzero].
    - cbn. eexists. split; [reflexivity | lia].
    - replace size with 0%nat by lia. eexists. split; [reflexivity | discriminate]. }
  destruct (Hreadall (Z.to_nat (indeterminate fuel - 1))) as (ret & Hr & Hret).
  rewrite Hr in Hloop.
  destruct (Z.eqb_spec ret (-1)); [contradiction |].
  destruct (_ =? 255); apply IH in Hloop;
    destruct Hloop as (H1 & H2 & H3 & n' & Hn & Hz);
    (repeat split; try assumption; exists n'; split; [lia | exact Hz]).
Qed.

Lemma descriptor_bytes_available (fd : descriptor) :
  descriptor_bytes fd -> Forall is_byte (available fd).
Proof.
  induction fd as [| [[| b bytes] | |] fd IH]; intros H; cbn [available];
    try constructor.
  - inversion H as [| ? ? Hb Hfd]; subst. now inversion Hb.
  - inversion H as [| ? ? Hb Hfd]; subst. inversion Hb; subst.
    apply Forall_app. split; [assumption | apply IH, Hfd].
Qed.

(** X6: [read_escaped_frame] keeps inside its buffer whatever the
    descriptor does.  For every descriptor that delivers bytes, however
    they are cut into [read] results and with ends of file and errors
    anywhere, and whatever the uninitialised [code] holds in the turns
    whose [read] returns 0, a call that returns gives -1 or a length below
    [max_plain_size] and has written nowhere but in the [max_plain_size]
    bytes at [out]; and on a descriptor whose data ends with an error the
    call does return. *)
Theorem read_escaped_frame_inside
    (indeterminate : nat -> Z) (fuel : nat) (fd : descriptor) (m : memory) (out max : Z) :
  (forall n, is_byte (indeterminate n)) ->
  descriptor_bytes fd ->
  (forall r, read_escaped_frame_fd indeterminate fuel fd m out max = Some r ->
             -1 <= fd_ret r <= Z.max 0 (max - 1) /\
             forall x, x < out \/ out + max <= x -> fd_mem r x = m x) /\
  (ending fd = -1 -> (length (available fd) < fuel)%nat ->
   exists r, read_escaped_frame_fd indeterminate fuel fd m out max = Some r).
Proof.
  intros Hind Hbytes. split.
  - intros r Hr.
    apply (frame_loop_fd_inside indeterminate fuel Hind fd m out max out 0%nat r Hbytes);
      [lia | now left | exact Hr].
  - intros Hend Hfuel. apply frame_loop_fd_total; try assumption.
    now apply descriptor_bytes_available.
Qed.

Lemma read_escaped_frame_inside_witness :
  let fd := [ReadData [3; 65; 66; 3]; ReadData [67; 68; 7; 0; 2]; ReadData [9; 0];
             ReadError] in
  (forall r, read_escaped_frame_fd (fun _ => 0) 12 fd (fun _ => 0) 100 4 = Some r ->
             -1 <= fd_ret r <= Z.max 0 (4 - 1) /\
             forall x, x < 100 \/ 100 + 4 <= x -> fd_mem r x = 0) /\
  (ending fd = -1 -> (length (available fd) < 12)%nat ->
   exists r, read_escaped_frame_fd (fun _ => 0) 12 fd (fun _ => 0) 100 4 = Some r).
Proof.
  intros fd.
  apply (read_escaped_frame_inside (fun _ => 0) 12 fd (fun _ => 0) 100 4).
  - intros _. unfold is_byte. lia.
  - unfold fd, descriptor_bytes, is_byte. repeat constructor; lia.
Defined.

(** X7: the decoder on a stream of bytes is exact for a descriptor.  When
    the run over the bytes that a descriptor has available returns a
    length, [read_escaped_frame] on the descriptor returns the same length,
    memory and warnings, however the bytes are cut into [read] results and
    whatever follows them, the end of the file included; it has consumed a
    prefix of the available bytes that ends with a zero byte and nothing
    after it, so that the next call starts at the byte after a frame end.
    When the run over the bytes returns -1 and the descriptor ends with an
    error, the function returns -1 too. *)
Theorem read_escaped_frame_stops_after_zero
    (indeterminate : nat -> Z) (fuel : nat) (fd : descriptor) (m : memory) (out max : Z)
    (r : frame_result) :
  Forall is_byte (available fd) ->
  (length (available fd) < fuel)%nat ->
  read_escaped_frame m out max (available fd) = Some r ->
  frame_ret r <> -1 \/ ending fd = -1 ->
  exists fd',
    read_escaped_frame_fd indeterminate fuel fd m out max
    = Some {| fd_ret := frame_ret r; fd_mem := frame_mem r; fd_rest := fd';
              fd_warnings := frame_warnings r |} /\
    (frame_ret r <> -1 ->
     available fd' = frame_fd r /\ ending fd' = ending fd /\
     exists consumed, available fd = consumed ++ 0 :: available fd').
Proof.
  intros Hbytes Hfuel Hr Hend. unfold read_escaped_frame in Hr.
  rewrite (frame_loop_fuel (length (available fd)) _ _ fuel) in Hr by lia.
  destruct (frame_loop_fd_available indeterminate fuel fd m out max out 0%nat r
              Hbytes Hfuel Hr Hend) as (fd' & Hrun & Hrest).
  exists fd'. split; [exact Hrun |]. intros Hret.
  destruct (Hrest Hret) as [Hav Hend']. split; [exact Hav |]. split; [exact Hend' |].
  rewrite Hav. exact (frame_loop_consumes _ _ _ _ _ _ _ _ Hr Hret).
Qed.

Lemma read_escaped_frame_stops_after_zero_witness :
  let fd := [ReadData [3; 65]; ReadData [66; 0; 2]; ReadData [67; 0]; ReadEof] in
  let r := {| frame_ret := 2; frame_mem := store (store_bytes (fun _ => 0) 0 [65; 66]) 2 0;
              frame_fd := [2; 67; 0]; frame_warnings := 0 |} in
  exists fd',
    read_escaped_frame_fd (fun _ => 7) 8 fd (fun _ => 0) 0 sizeof_packet
    = Some {| fd_ret := frame_ret r; fd_mem := frame_mem r; fd_rest := fd';
              fd_warnings := frame_warnings r |} /\
    (frame_ret r <> -1 ->
     available fd' = frame_fd r /\ ending fd' = ending fd /\
     exists consumed, available fd = consumed ++ 0 :: available fd').
Proof.
  intros fd r.
  apply (read_escaped_frame_stops_after_zero (fun _ => 7) 8 fd (fun _ => 0) 0 sizeof_packet r).
  - unfold fd, is_byte. cbn [available app]. repeat constructor; lia.
  - unfold fd. cbn. lia.
  - reflexivity.
  - left. cbn. discriminate.
Defined.

(** X18: at the end of the file [read_escaped_frame] never returns -1.
    Every [read] returns 0 there, which the function does not test: it
    goes on with whatever the uninitialised [code] holds.  If the call
    returns, some turn has found 0 in [code], the result is a length and
    nothing was consumed; if the first turn finds 0, the result is 0 and
    the memory is untouched; if no turn does, the call does not return,
    whatever the fuel: it stays in its loops. *)
Theorem read_escaped_frame_at_end_of_file
    (indeterminate : nat -> Z) (fuel : nat) (fd : descriptor) (m : memory) (out max : Z) :
  (forall r, read_escaped_frame_fd indeterminate fuel (ReadEof :: fd) m out max = Some r ->
             fd_ret r <> -1 /\ fd_rest r = ReadEof :: fd /\
             exists n, (n < fuel)%nat /\ indeterminate n = 0) /\
  ((forall n, indeterminate n <> 0) ->
   read_escaped_frame_fd indeterminate fuel (ReadEof :: fd) m out max = None) /\
  (indeterminate fuel = 0 ->
   read_escaped_frame_fd indeterminate (S fuel) (ReadEof :: fd) m out max
   = Some {| fd_ret := 0; fd_mem := m; fd_rest := ReadEof :: fd; fd_warnings := 0 |}).
Proof.
  assert (Hany : forall r,
             read_escaped_frame_fd indeterminate fuel (ReadEof :: fd) m out max = Some r ->
             fd_ret r <> -1 /\ fd_rest r = ReadEof :: fd /\
             exists n, (n < fuel)%nat /\ indeterminate n = 0).
  { intros r Hr. apply frame_loop_fd_at_eof in Hr. tauto. }
  split; [exact Hany |]. split.
  - intros Hnz.
    destruct (read_escaped_frame_fd indeterminate fuel (ReadEof :: fd) m out max)
      as [r |] eqn:E; [| reflexivity].
    destruct (Hany r eq_refl) as (_ & _ & n & _ & Hz). now apply Hnz in Hz.
  - intros Hz. unfold read_escaped_frame_fd. cbn [frame_loop_fd sys_read]. cbn [Z.eqb].
    rewrite Hz. cbn [Z.eqb]. rewrite Z.gtb_ltb, Z.ltb_irrefl. reflexivity.
Qed.



(** ** text_packet and the clock *)

Lemma printable_characters_some (bytes text : list Z) :
  printable_characters bytes = Some text <->
  forallb isprint text = true /\
  exists rest, bytes = text ++ rest /\ newline_or_end rest.
Proof.
  revert text. induction bytes as [| c bytes IH]; intros text; cbn [printable_characters].
  - split.
    + intros [= <-]. split; [reflexivity |]. exists []. split; [reflexivity | exact I].
    + intros (_ & rest & Hsplit & _). symmetry in Hsplit.
      apply app_eq_nil in Hsplit. destruct Hsplit as [-> _]. reflexivity.
  - destruct ((c =? 13) || (c =? 10)) eqn:Enl.
    + assert (Hc : c = 13 \/ c = 10).
      { apply orb_true_iff in Enl. destruct Enl as [E | E]; apply Z.eqb_eq in E; tauto. }
      split.
      * intros [= <-]. split; [reflexivity |]. exists (c :: bytes).
        split; [reflexivity | exact Hc].
      * intros (Hprint & rest & Hsplit & _). destruct text as [| x text]; [reflexivity |].
        injection Hsplit as <- _. cbn [forallb] in Hprint.
        apply andb_true_iff in Hprint. destruct Hprint as [Hprint _].
        destruct Hc as [-> | ->]; discriminate Hprint.
    + assert (Hc : c <> 13 /\ c <> 10).
      { apply orb_false_iff in Enl. destruct Enl as [E1 E2].
        apply Z.eqb_neq in E1, E2. tauto. }
      destruct (isprint c) eqn:Eprint; cbn [negb].
      * destruct (printable_characters bytes) as [text' |] eqn:Etail.
        -- split.
           ++ intros [= <-]. destruct (proj1 (IH text') eq_refl) as (Hprint & rest & -> & Hrest).
              split; [cbn [forallb]; rewrite Eprint, Hprint; reflexivity |].
              exists rest. split; [reflexivity | exact Hrest].
           ++ intros (Hprint & rest & Hsplit & Hrest).
              destruct text as [| x text].
              { cbn [app] in Hsplit. subst rest. cbn in Hrest. lia. }
              injection Hsplit as <- Hsplit. cbn [forallb] in Hprint.
              apply andb_true_iff in Hprint. destruct Hprint as [_ Hprint].
              f_equal. f_equal.
              assert (Hsome : Some text' = Some text)
                by (apply IH; split; [exact Hprint | exists rest; split; assumption]).
              now injection Hsome.
        -- split; [discriminate |].
           intros (Hprint & rest & Hsplit & Hrest).
           destruct text as [| x text].
           { cbn [app] in Hsplit. subst rest. cbn in Hrest. lia. }
           injection Hsplit as <- Hsplit. cbn [forallb] in Hprint.
           apply andb_true_iff in Hprint. destruct Hprint as [_ Hprint].
           assert (Hsome : None = Some text)
             by (apply IH; split; [exact Hprint | exists rest; split; assumption]).
           discriminate Hsome.
      * split; [discriminate |].
        intros (Hprint & rest & Hsplit & Hrest).
        destruct text as [| x text].
        { cbn [app] in Hsplit. subst rest. cbn in Hrest. lia. }
        injection Hsplit as <- _. cbn [forallb] in Hprint.
        rewrite Eprint in Hprint. discriminate Hprint.
Qed.

(** X15: [text_packet] prints the first line of a packet when it is
    text.  It prints [text] and returns 1 exactly when [text] is the
    non-empty run of printable characters that the packet starts with
    and that a carriage return, a line feed or the end of the packet
    closes; it returns 1 without printing when that run is empty, and 0,
    printing nothing, when a byte that is not printable comes first. *)
Theorem text_packet_prints_first_line
    (m : memory) (packet_buffer : Z) (packet_size : nat) (text : list Z) :
  let bytes := load_bytes m packet_buffer packet_size in
  (text_packet m packet_buffer packet_size = (1, Some text) <->
   text <> [] /\ forallb isprint text = true /\
   exists rest, bytes = text ++ rest /\ newline_or_end rest) /\
  (text_packet m packet_buffer packet_size = (1, None) <-> newline_or_end bytes) /\
  (text_packet m packet_buffer packet_size = (0, None) <->
   forall line rest, bytes = line ++ rest -> newline_or_end rest ->
                     forallb isprint line = false).
Proof.
  intros bytes. unfold text_packet. fold bytes.
  pose proof (printable_characters_some bytes) as Hspec.
  destruct (printable_characters bytes) as [[| c found] |] eqn:Efound.
  - destruct (proj1 (Hspec []) eq_refl) as (_ & rest & Hsplit & Hrest).
    cbn [app] in Hsplit. subst rest. split; [| split].
    + split; [discriminate |]. intros (Hne & Hprint & Hrest').
      assert (Hsome : Some (@nil Z) = Some text) by (apply Hspec; tauto).
      injection Hsome as <-. contradiction.
    + tauto.
    + split; [discriminate |]. intros Hnone.
      specialize (Hnone [] bytes eq_refl Hrest). discriminate Hnone.
  - destruct (proj1 (Hspec (c :: found)) eq_refl) as (Hprint & rest & Hsplit & Hrest).
    split; [| split].
    + split.
      * intros [= <-]. split; [discriminate |]. split; [exact Hprint |].
        exists rest. split; assumption.
      * intros (_ & Hprint' & Hrest').
        assert (Hsome : Some (c :: found) = Some text) by (apply Hspec; tauto).
        injection Hsome as <-. reflexivity.
    + split; [discriminate |]. intros Hnl. rewrite Hsplit in Hnl. cbn in Hnl.
      cbn [forallb] in Hprint. apply andb_true_iff in Hprint.
      destruct Hprint as [Hprint _]. destruct Hnl as [-> | ->]; discriminate Hprint.
    + split; [discriminate |]. intros Hnone.
      rewrite (Hnone (c :: found) rest Hsplit Hrest) in Hprint. discriminate Hprint.
  - split; [| split].
    + split; [discriminate |]. intros (_ & Hprint & Hrest).
      assert (Hsome : None = Some text) by (apply Hspec; tauto). discriminate Hsome.
    + split; [discriminate |]. intros Hnl.
      assert (Hsome : None = Some (@nil Z)).
      { apply Hspec. split; [reflexivity |]. exists bytes. split; [reflexivity | exact Hnl]. }
      discriminate Hsome.
    + split; [| reflexivity]. intros _ line rest Hsplit Hrest.
      destruct (forallb isprint line) eqn:Hprint; [| reflexivity].
      assert (Hsome : None = Some line).
      { apply Hspec. split; [exact Hprint |]. exists rest. split; assumption. }
      discriminate Hsome.
Qed.

(** X16: the clock and the header fit together until the year 2112.  For a
    [timespec] the system clock can return ([tv_nsec] below one second,
    [tv_sec] below 4503599627) the packet time is the number of
    microseconds without any wrap-around, its whole seconds, which name
    the log file, are [tv_sec], and it is below [2 ^ 52], so that the
    header of a packet stamped with it gives the time back to within 16
    microseconds. *)
Theorem packet_time_of_timespec (tv_sec tv_nsec packet_size : Z) :
  0 <= tv_sec < 4503599627 ->
  0 <= tv_nsec < 1000000000 ->
  0 <= packet_size < 65536 ->
  let T := microseconds_of_timespec tv_sec tv_nsec in
  T = tv_sec * 1000000 + tv_nsec / 1000 /\
  T / 1000000 = tv_sec /\
  0 <= T < 2 ^ 52 /\
  header_time (logging_header T packet_size) * 16 <= T
    < header_time (logging_header T packet_size) * 16 + 16.
Proof.
  intros Hsec Hnsec Hsize T.
  assert (Hmicro : 0 <= tv_nsec / 1000 < 1000000).
  { split; [apply Z.div_pos; lia | apply Z.div_lt_upper_bound; lia]. }
  assert (HT : T = tv_sec * 1000000 + tv_nsec / 1000).
  { subst T. unfold microseconds_of_timespec.
    rewrite (wrap64_small (tv_sec * 1000000)), (wrap64_small tv_nsec) by lia.
    apply wrap64_small. lia. }
  assert (Hrange : 0 <= T < 2 ^ 52) by lia.
  split; [exact HT |]. split; [| split; [exact Hrange |]].
  - rewrite HT, Z.add_comm, Z.div_add by lia. rewrite Z.div_small by lia. lia.
  - destruct (header_fields T packet_size Hsize Hrange) as [_ Htime].
    rewrite Htime. pose proof (Z.mod_pos_bound T 16 ltac:(lia)). lia.
Qed.

Lemma packet_time_of_timespec_witness :
  let T := microseconds_of_timespec 1700000000 123456789 in
  T = 1700000000 * 1000000 + 123456789 / 1000 /\
  T / 1000000 = 1700000000 /\
  0 <= T < 2 ^ 52 /\
  header_time (logging_header T 100) * 16 <= T
    < header_time (logging_header T 100) * 16 + 16.
Proof.
  apply (packet_time_of_timespec 1700000000 123456789 100); lia.
Defined.

(** ** From the serial port to a reader *)

(** X17: a packet that a turn of the ingest loop commits is what the next
    [recv] of a reader that was caught up returns: the size [8 + s], the
    data pointer of the slot, where the 8 header bytes and the packet
    are, and a reader cursor equal to the new writer cursor, so that the
    call after it finds nothing new.  This holds across the wrap-around of
    the cursors at [2 ^ 64]. *)
Theorem ingested_packet_reaches_reader
    (t : turn) (st : pipeline) (r : frame_result) :
  buf_acquired st ->
  0 < cursor_wrap (shm st) < 2 ^ 64 ->
  65552 <= max_slot_size (shm st) ->
  max_slot_size (shm st) + 65536 <= cursor_wrap (shm st) ->
  0 <= writer_cursor (shm st) < 2 ^ 64 ->
  sig_after_read t = false ->
  sig_after_clock t = false ->
  read_escaped_frame (data (shm st)) (shared_memory_ringbuffer_acquire (shm st) + 8)
    sizeof_packet (fd_serial st) = Some r ->
  0 < frame_ret r < sizeof_packet ->
  let b := shared_memory_ringbuffer_acquire (shm st) in
  let h := logging_header (current_time_in_unix_microseconds t) (frame_ret r) in
  let st' := snd (main_loop_body true t st) in
  let wc := writer_cursor (shm st') in
  let received :=
    shared_memory_ringbuffer_recv (shm st') wc wc
      {| reader_cursor := writer_cursor (shm st) |} in
  recv_ret received = 8 + frame_ret r /\
  recv_ret_p received = Some (Ptr b) /\
  load_bytes (data (shm st')) b (Z.to_nat (recv_ret received))
  = le_bytes 8 h ++ frame_payload (b + 8) r /\
  recv_reader received = {| reader_cursor := wc |} /\
  recv_ret (shared_memory_ringbuffer_recv (shm st') wc wc (recv_reader received)) = 0.
Proof.
  intros Hbuf Hwrap Hmax Hroom Hcur Hsig1 Hsig2 Hr Hret b h st' wc received.
  destruct (main_loop_body_publishes t st r Hbuf (proj1 Hwrap) Hmax Hsig1 Hsig2 Hr Hret)
    as (st1 & Hturn & _ & _ & Hslot & _ & Hw & Hm & Hc).
  cbv zeta in Hslot. fold b h in Hslot.
  subst received wc st'. rewrite Hturn. cbn [snd].
  set (wc := writer_cursor (shm st1)) in *.
  set (received := shared_memory_ringbuffer_recv (shm st1) wc wc
                     {| reader_cursor := writer_cursor (shm st) |}).
  unfold sizeof_packet in Hret.
  set (s := frame_ret r) in *.
  set (adv := round_up 16 (sizeof_slot + 8 + s)) in *.
  assert (Hadv : 0 < adv <= 65552).
  { subst adv. unfold sizeof_slot.
    pose proof (round_up_bounds 16 (16 + 8 + s) ltac:(lia)).
    split; [lia |]. apply round_up_le_multiple; [lia | reflexivity | lia]. }
  unfold slot_contents in Hslot.
  pose proof (f_equal fst Hslot) as Hsize. pose proof (f_equal snd Hslot) as Hbytes.
  cbn [fst snd] in Hsize, Hbytes. clear Hslot.
  assert (Hoff : slot_offset (shm st1) (writer_cursor (shm st)) = b - sizeof_slot).
  { subst b. unfold shared_memory_ringbuffer_acquire, slot_offset. rewrite Hw. lia. }
  rewrite Hoff in Hsize, Hbytes. rewrite Hsize in Hbytes.
  replace (b - sizeof_slot + sizeof_slot) with b in Hbytes by lia.
  assert (Hrecv : received
                  = {| recv_ret := 8 + s; recv_ret_p := Some (Ptr b);
                       recv_reader := {| reader_cursor := wc |} |}).
  { subst received. unfold shared_memory_ringbuffer_recv. cbn [reader_cursor].
    destruct (Z.eqb_spec wc (writer_cursor (shm st))) as [Heq | _].
    { exfalso. rewrite Hc in Heq.
      assert (Hz : wrap64 adv = 0).
      { replace (wrap64 adv)
          with (wrap64 (writer_cursor (shm st) + adv - writer_cursor (shm st)))
          by (f_equal; lia).
        rewrite <- wrap64_sub_l, Heq, Z.sub_diag. reflexivity. }
      rewrite wrap64_small in Hz by lia. lia. }
    rewrite recv_overrun_test, Hoff, Hsize, Hm.
    assert (Htest : wrap64 (wc + max_slot_size (shm st) - writer_cursor (shm st) - sizeof_slot)
                    = adv + max_slot_size (shm st) - sizeof_slot).
    { rewrite Hc.
      replace (wrap64 (writer_cursor (shm st) + adv) + max_slot_size (shm st)
               - writer_cursor (shm st) - sizeof_slot)
        with (wrap64 (writer_cursor (shm st) + adv)
              - (writer_cursor (shm st) + sizeof_slot - max_slot_size (shm st))) by lia.
      rewrite wrap64_sub_l.
      replace (writer_cursor (shm st) + adv
               - (writer_cursor (shm st) + sizeof_slot - max_slot_size (shm st)))
        with (adv + max_slot_size (shm st) - sizeof_slot) by lia.
      apply wrap64_small. unfold sizeof_slot. lia. }
    rewrite Htest, Hw.
    destruct (Z.gtb_spec (adv + max_slot_size (shm st) - sizeof_slot) (cursor_wrap (shm st)))
      as [Hgt | _]; [unfold sizeof_slot in Hgt; lia |].
    rewrite to_ssize_small by lia. rewrite recv_advance.
    replace (b - sizeof_slot + sizeof_slot) with b by lia.
    f_equal. f_equal. rewrite Hc. f_equal. f_equal. subst adv. f_equal. lia. }
  rewrite Hrecv. cbn [recv_ret recv_ret_p recv_reader].
  split; [reflexivity |]. split; [reflexivity |]. split; [exact Hbytes |].
  split; [reflexivity |].
  unfold shared_memory_ringbuffer_recv. cbn [reader_cursor].
  rewrite Z.eqb_refl. reflexivity.
Qed.

Lemma ingested_packet_reaches_reader_witness :
  let t := {| sig_after_read := false; current_time_in_unix_microseconds := 25000000;
              sig_after_clock := false |} in
  let st := main_start fresh_program_ring [3; 7; 9; 0] in
  let st' := snd (main_loop_body true t st) in
  let wc := writer_cursor (shm st') in
  let received :=
    shared_memory_ringbuffer_recv (shm st') wc wc {| reader_cursor := 0 |} in
  recv_ret received = 8 + 2 /\
  recv_ret_p received = Some (Ptr 16) /\
  load_bytes (data (shm st')) 16 (Z.to_nat (recv_ret received))
  = le_bytes 8 (logging_header 25000000 2) ++ [7; 9] /\
  recv_reader received = {| reader_cursor := wc |} /\
  recv_ret (shared_memory_ringbuffer_recv (shm st') wc wc (recv_reader received)) = 0.
Proof.
  intros t st.
  destruct (read_escaped_frame (data (shm st)) (shared_memory_ringbuffer_acquire (shm st) + 8)
              sizeof_packet (fd_serial st)) as [r |] eqn:Hr; [| vm_compute in Hr; discriminate Hr].
  assert (Hret : frame_ret r = 2) by (vm_compute in Hr; injection Hr as <-; reflexivity).
  assert (Hpay : frame_payload (shared_memory_ringbuffer_acquire (shm st) + 8) r = [7; 9])
    by (vm_compute in Hr; injection Hr as <-; reflexivity).
  pose proof (ingested_packet_reaches_reader t st r I ltac:(split; reflexivity)
                ltac:(discriminate)
                ltac:(discriminate) ltac:(split; [discriminate | reflexivity])
                eq_refl eq_refl Hr ltac:(rewrite Hret; split; reflexivity)) as H.
  cbv zeta in H. rewrite Hret, Hpay in H. exact H.
Defined.
